(** * Relevance scoring and fallback selection of the podcast search page

    A shallow embedding of the search core of the repository:
    - [localSemanticSearch] / [semanticSearch]: the keyword and semantic-map
      scorer of the two page components;
    - [semanticSearchWithPinecone] and [performSearch]: the client-side
      fallback chain and the strategy selection;
    - the two API route handlers ([POST_search_pinecone],
      [POST_search_fallback]) and [createLocalEmbedding].

    JavaScript strings are sequences of UTF-16 code units, modelled as
    [list Z].  Integers (ids, lexical scores, percentages, hashes) are [Z]
    with the 32-bit wrap-around written out where the source has it.
    Similarity scores are rationals ([Q]) and the components of an embedding
    are reals ([R]): the arithmetic of the source is read exactly, without
    the rounding of IEEE doubles, and the statements about them are those
    that do not depend on that rounding.  Where the rounding itself is the
    question, [createLocalEmbedding64] computes the embedding in IEEE 754
    binary64 ([Binary64]). *)

From Stdlib Require Import List ZArith QArith Qround Reals Lia Lra Bool.
From Stdlib Require Import String Ascii Sorted Permutation SpecFloat.
Import ListNotations.
Open Scope Z_scope.

(** ** JavaScript strings *)

Module JS.

Definition code_unit := Z.
Definition jsstring := list code_unit.

(** Source literals are written as Rocq strings (UTF-8 bytes) and decoded to
    UTF-16 code units, so that the tables below read like the source. *)
Definition cont (b : Z) : Z := Z.land b 0x3F.

Fixpoint utf16_of_utf8 (bs : list Z) : jsstring :=
  match bs with
  | [] => []
  | b0 :: r0 =>
    if b0 <? 0x80 then b0 :: utf16_of_utf8 r0
    else match r0 with
    | [] => [0xFFFD]
    | b1 :: r1 =>
      if b0 <? 0xE0 then
        Z.lor (Z.shiftl (Z.land b0 0x1F) 6) (cont b1) :: utf16_of_utf8 r1
      else match r1 with
      | [] => [0xFFFD]
      | b2 :: r2 =>
        if b0 <? 0xF0 then
          Z.lor (Z.shiftl (Z.land b0 0x0F) 12)
                (Z.lor (Z.shiftl (cont b1) 6) (cont b2)) :: utf16_of_utf8 r2
        else match r2 with
        | [] => [0xFFFD]
        | b3 :: r3 =>
          let cp := Z.lor (Z.shiftl (Z.land b0 0x07) 18)
                   (Z.lor (Z.shiftl (cont b1) 12)
                   (Z.lor (Z.shiftl (cont b2) 6) (cont b3))) in
          let v := cp - 0x10000 in
          (0xD800 + Z.shiftr v 10) :: (0xDC00 + Z.land v 0x3FF)
            :: utf16_of_utf8 r3
        end
      end
    end
  end.

Definition lit (s : string) : jsstring :=
  utf16_of_utf8 (map (fun a => Z.of_N (N_of_ascii a)) (list_ascii_of_string s)).

Definition space : code_unit := 32.

(** [s.length] *)
Definition len (s : jsstring) : Z := Z.of_nat (List.length s).

(** [s.startsWith(t)] *)
Fixpoint startsWith (s t : jsstring) {struct t} : bool :=
  match t, s with
  | [], _ => true
  | _ :: _, [] => false
  | b :: t', a :: s' => (a =? b) && startsWith s' t'
  end.

(** [s.includes(t)]: [t] occurs in [s] as a contiguous run of code units. *)
Fixpoint includes (s t : jsstring) : bool :=
  startsWith s t ||
  match s with
  | [] => false
  | _ :: s' => includes s' t
  end.

(** [s.endsWith(" ")] *)
Definition endsWith_space (s : jsstring) : bool :=
  match rev s with
  | c :: _ => c =? space
  | [] => false
  end.

(** [s.split(" ")]: the pieces between single U+0020 code units; the empty
    string gives one empty piece. *)
Fixpoint split_space (s : jsstring) : list jsstring :=
  match s with
  | [] => [[]]
  | c :: s' =>
    if c =? space then [] :: split_space s'
    else match split_space s' with
         | w :: ws => (c :: w) :: ws
         | [] => [[c]]
         end
  end.

(** [l.join(" ")] *)
Fixpoint join_space (l : list jsstring) : jsstring :=
  match l with
  | [] => []
  | [w] => w
  | w :: ws => w ++ space :: join_space ws
  end.

(** The class [\s] of regular expressions, which is also what [trim]
    strips: WhiteSpace and LineTerminator code units. *)
Definition is_space (c : code_unit) : bool :=
  ((9 <=? c) && (c <=? 13)) || (c =? 32) || (c =? 0xA0) || (c =? 0x1680) ||
  ((0x2000 <=? c) && (c <=? 0x200A)) || (c =? 0x2028) || (c =? 0x2029) ||
  (c =? 0x202F) || (c =? 0x205F) || (c =? 0x3000) || (c =? 0xFEFF).

Fixpoint trimStart (s : jsstring) : jsstring :=
  match s with
  | [] => []
  | c :: s' => if is_space c then trimStart s' else s
  end.

(** [s.trim()] *)
Definition trim (s : jsstring) : jsstring :=
  rev (trimStart (rev (trimStart s))).

(** [/^[\s]*$/.test(s)] *)
Definition only_whitespace (s : jsstring) : bool := forallb is_space s.

(** A string is falsy exactly when it is empty. *)
Definition truthy (s : jsstring) : bool :=
  match s with [] => false | _ :: _ => true end.

(** The class [\w]: ASCII letters, digits and underscore. *)
Definition is_word (c : code_unit) : bool :=
  ((48 <=? c) && (c <=? 57)) || ((65 <=? c) && (c <=? 90)) ||
  ((97 <=? c) && (c <=? 122)) || (c =? 95).

(** [parseInt(s)] with no radix: leading white space is skipped, a sign is
    read, a [0x] prefix selects radix 16, and the longest run of digits is
    converted; [None] stands for NaN.  The value is the exact integer. *)
Definition digit_value (c : code_unit) : option Z :=
  if (48 <=? c) && (c <=? 57) then Some (c - 48)
  else if (97 <=? c) && (c <=? 122) then Some (c - 87)
  else if (65 <=? c) && (c <=? 90) then Some (c - 55)
  else None.

Fixpoint digits (radix : Z) (s : jsstring) (acc : option Z) : option Z :=
  match s with
  | [] => acc
  | c :: s' =>
    match digit_value c with
    | Some d =>
      if d <? radix
      then digits radix s' (Some (radix * match acc with Some a => a | None => 0 end + d))
      else acc
    | None => acc
    end
  end.

Definition parseInt (s : jsstring) : option Z :=
  let s1 := trimStart s in
  let '(sign, s2) :=
    match s1 with
    | 45 :: r => (-1, r)
    | 43 :: r => (1, r)
    | _ => (1, s1)
    end in
  let '(radix, s3) :=
    match s2 with
    | 48 :: 120 :: r => (16, r)
    | 48 :: 88 :: r => (16, r)
    | _ => (10, s2)
    end in
  option_map (Z.mul sign) (digits radix s3 None).

(** [x << 5 ... & x]: conversion of an exact integer to a signed 32-bit one. *)
Definition ToInt32 (z : Z) : Z := (z + 2 ^ 31) mod 2 ^ 32 - 2 ^ 31.

(** [Math.round]: the nearest integer, halves going up. *)
Definition Math_round (x : Q) : Z := Qfloor (x + (1 # 2))%Q.

(** [arr.sort(cmp)]: the sort is stable; an element moves behind the ones
    the comparator puts before it and stays in front of the rest. *)
Fixpoint sort_insert {A} (cmp : A -> A -> Z) (x : A) (l : list A) : list A :=
  match l with
  | [] => [x]
  | y :: l' => if 0 <? cmp x y then y :: sort_insert cmp x l' else x :: l
  end.

Fixpoint sort {A} (cmp : A -> A -> Z) (l : list A) : list A :=
  match l with
  | [] => []
  | x :: l' => sort_insert cmp x (sort cmp l')
  end.

(** [arr.find(pred)] *)
Definition find {A} (pred : A -> bool) (l : list A) : option A :=
  List.find pred l.

End JS.
Import JS.


(** ** Data model *)

(** [interface Podcast]; [fullDescription] is optional in the first page
    component and [relevanceScore] is optional in both. *)
Record Podcast := mkPodcast {
  id : Z;
  title : jsstring;
  description : jsstring;
  fullDescription : option jsstring;
  category : jsstring;
  duration : jsstring;
  publishDate : jsstring;
  tags : list jsstring;
  relevanceScore : option Z
}.

(** [{ ...podcast, relevanceScore: score }] *)
Definition with_score (podcast : Podcast) (score : Z) : Podcast :=
  {| id := id podcast;
     title := title podcast;
     description := description podcast;
     fullDescription := fullDescription podcast;
     category := category podcast;
     duration := duration podcast;
     publishDate := publishDate podcast;
     tags := tags podcast;
     relevanceScore := Some score |}.

(** [s || ""] on an optional string *)
Definition or_empty (s : option jsstring) : jsstring :=
  match s with Some s => s | None => [] end.

(** [n || 0] and [n ?? 0] on an optional integer agree. *)
Definition or_zero (n : option Z) : Z :=
  match n with Some n => n | None => 0 end.

(** [a === b] on strings *)
Fixpoint str_eqb (a b : jsstring) : bool :=
  match a, b with
  | [], [] => true
  | x :: a', y :: b' => (x =? y) && str_eqb a' b'
  | _, _ => false
  end.

(** [p.relevanceScore && p.relevanceScore > bound] *)
Definition score_above (bound : Z) (p : Podcast) : bool :=
  match relevanceScore p with
  | Some s => negb (s =? 0) && (bound <? s)
  | None => false
  end.

(** [(b.relevanceScore || 0) - (a.relevanceScore || 0)] *)
Definition by_relevance (a b : Podcast) : Z :=
  or_zero (relevanceScore b) - or_zero (relevanceScore a).

(** The [semanticMap] literal of [localSemanticSearch], in the order of
    [Object.entries]. *)
Definition localSemanticSearch_semanticMap : list (jsstring * list jsstring) :=
  [ (lit "美食", map lit ["餐廳"; "料理"; "川菜"; "茶餐廳"; "麻辣"; "中式料理"; "母親節"; "饕客"]);
    (lit "旅行", map lit ["旅遊"; "日本"; "韓國"; "觀光"; "櫻花"; "鐵路"; "周遊券"; "桃園"; "露營"]);
    (lit "財經", map lit ["投資"; "企業"; "股票"; "AI"; "台積電"; "電動車"; "金融"; "理財"; "頭家"; "董事長"]);
    (lit "社會", map lit ["議題"; "教育"; "長照"; "霸凌"; "移工"; "偷渡"; "司法"; "犯罪"]);
    (lit "娛樂", map lit ["戲劇"; "韓劇"; "Netflix"; "電影"; "影視"; "律政"; "職人劇"; "台劇"]);
    (lit "科技", map lit ["AI"; "智能"; "科技"; "半導體"; "電子"; "導軌"; "連接器"; "雲端"]);
    (lit "人物", map lit ["故事"; "專訪"; "母親"; "企業家"; "創業"; "家庭"; "罕見疾病"]);
    (lit "時尚", map lit ["鐘錶"; "復刻"; "復古"; "收藏"; "設計"; "瑞士"; "百達翡麗"]);
    (lit "調查", map lit ["鏡爆點"; "逃稅"; "酒店"; "金錢豹"; "黑道"; "醫療腐敗"]) ]%string.

(** The [semanticMap] literal of [semanticSearch] (the first page
    component). *)
Definition semanticSearch_semanticMap : list (jsstring * list jsstring) :=
  [ (lit "美食", map lit ["餐廳"; "料理"; "吃"; "食物"; "菜"; "鍋"; "丼"; "燒鳥"; "川菜"; "蔬食"]);
    (lit "旅行", map lit ["旅遊"; "景點"; "地方"; "城市"; "溫泉"; "日本"; "桃園"; "露營"]);
    (lit "財經", map lit ["投資"; "企業"; "金融"; "理財"; "股票"; "經濟"; "商業"; "產業"]);
    (lit "社會", map lit ["詐騙"; "犯罪"; "議題"; "問題"; "移工"; "司法"; "逃稅"]);
    (lit "娛樂", map lit ["明星"; "藝人"; "爆料"; "八卦"; "電影"; "戲劇"; "影視"]);
    (lit "人物", map lit ["故事"; "專訪"; "訪談"; "創業"; "企業家"; "母親"; "家庭"]);
    (lit "科技", map lit ["電子"; "製造"; "連接器"; "導軌"; "雲端"; "智能"]);
    (lit "醫療", map lit ["健康"; "疾病"; "醫院"; "治療"; "藥物"; "SARS"; "疫情"]) ]%string.

(** The [semanticFeatures] literal of [createLocalEmbedding].  The keys are
    the Chinese words whose UTF-8 bytes the route file holds. *)
Definition semanticFeatures : list (jsstring * list Z) :=
  [ (lit "美食", [100; 200; 300]);
    (lit "旅遊", [150; 250; 350]);
    (lit "投資", [400; 500; 600]);
    (lit "財經", [450; 550; 650]);
    (lit "科技", [700; 800; 900]);
    (lit "企業", [750; 850; 950]);
    (lit "社會", [1000; 1100; 1200]);
    (lit "娛樂", [1300; 1400; 1500]) ].

(** ** Requests, responses and the remote services *)

(** ["/api/search-pinecone"] and ["/api/search-fallback"] *)
Inductive Endpoint := search_pinecone | search_fallback.

(** The JSON body of a search request. *)
Record SearchRequest := mkRequest {
  query : jsstring;
  topK : option Z;
  includeMetadata : option bool
}.

(** One entry of [matches] as the client reads it ([metadata] is carried
    along but never read). *)
Record Match := mkMatch {
  match_id : jsstring;
  match_score : Q
}.

(** What [NextResponse.json] sends: an error object, or the search result
    with its [matches]; [Unparseable] is a body of which [response.json()]
    rejects. *)
Inductive Body :=
  | ErrorBody (error : jsstring)
  | SearchBody (matches : list Match)
  | Unparseable.

Record Response := mkResponse {
  status : Z;
  body : Body
}.

(** [response.ok] *)
Definition ok (response : Response) : bool :=
  (200 <=? status response) && (status response <=? 299).

(** What can be thrown inside the [try] of [semanticSearchWithPinecone]. *)
Inductive Error :=
  | FetchRejected (endpoint : Endpoint)
  | RequestFailed (status : Z)
  | BadBody.

Inductive Exc (A : Type) :=
  | Ok (a : A)
  | Throw (e : Error).
Arguments Ok {A} a.
Arguments Throw {A} e.

(** Client computations: the [fetch] calls made so far, in order, and the
    value or the exception they end in. *)
Definition Call : Type := Endpoint * SearchRequest.
Definition M (A : Type) : Type := list Call * Exc A.

Definition ret {A} (a : A) : M A := ([], Ok a).
Definition throw {A} (e : Error) : M A := ([], Throw e).
Definition bind {A B} (m : M A) (f : A -> M B) : M B :=
  match m with
  | (calls, Ok a) => let '(calls', r) := f a in (calls ++ calls', r)
  | (calls, Throw e) => (calls, Throw e)
  end.
Definition try_catch {A} (m : M A) (handler : Error -> M A) : M A :=
  match m with
  | (calls, Ok a) => (calls, Ok a)
  | (calls, Throw e) => let '(calls', r) := handler e in (calls ++ calls', r)
  end.

Notation "x <- m ;; k" := (bind m (fun x => k))
  (at level 61, m at next level, right associativity).

(** A match of the vector index: [score] may be absent. *)
Record IndexMatch := mkIndexMatch {
  index_id : jsstring;
  index_score : option Q
}.

(** The services behind the route handlers.  A failing call carries the
    [message] of the error it rejects with. *)
Record Services := mkServices {
  OPENAI_API_KEY : bool;
  embeddings_create : jsstring -> list R + jsstring;
  index_query : list R -> Z -> bool -> option (list IndexMatch) + jsstring
}.

(** The page state that [performSearch] closes over. *)
Record SearchState := mkState {
  searchQuery : jsstring;
  selectedCategory : jsstring;
  isTyping : bool;
  shouldUseAPI : bool
}.

(** The 0 to 100 percentage of a similarity: [Math.round(score * 100)]. *)
Definition percentage (score : Q) : Z := Math_round (score * 100)%Q.

(** [(score || 0)] on an optional similarity *)
Definition score_or_zero (s : option Q) : Q :=
  match s with Some s => s | None => 0%Q end.

(** ** A platform, a corpus and services for the examples *)

(** Lowercasing of the ASCII letters; on strings made of ASCII characters
    and Chinese ideographs this is what [toLowerCase] returns. *)
Definition lower_unit (c : code_unit) : code_unit :=
  if (65 <=? c) && (c <=? 90) then c + 32 else c.

Definition ascii_toLowerCase (s : jsstring) : jsstring := map lower_unit s.

Definition episode (n : Z) (title description category : string)
    (tags : list string) : Podcast :=
  {| id := n;
     title := lit title;
     description := lit description;
     fullDescription := None;
     category := lit category;
     duration := lit "30:00";
     publishDate := lit "2024-05-01";
     tags := map lit tags;
     relevanceScore := None |}.

Definition ep1 : Podcast :=
  episode 1 "川菜館的秘密" "麻辣鍋與家常料理" "美食" ["川菜"; "餐廳"]%string.
Definition ep2 : Podcast :=
  episode 2 "Weekly news" "hello world" "時事" ["misc"]%string.
Definition ep3 : Podcast :=
  episode 3 "日本旅遊攻略" "櫻花季的鐵路行程" "旅行" ["日本"; "旅遊"]%string.

Definition sample_corpus : list Podcast := [ep1; ep2; ep3].

(** Eleven episodes about the same dish. *)
Definition eleven_episodes : list Podcast :=
  map (fun n => episode n "川菜" "麻辣" "美食" ["川菜"]%string)
      [1; 2; 3; 4; 5; 6; 7; 8; 9; 10; 11].

(** An index that answers every query with the best of the same four
    matches, the first of which names no episode. *)
Definition sample_matches : list IndexMatch :=
  [ {| index_id := lit "99"; index_score := Some (95 # 100) |};
    {| index_id := lit "2"; index_score := Some (90 # 100) |};
    {| index_id := lit "3"; index_score := Some (25 # 100) |};
    {| index_id := lit "1"; index_score := Some (21 # 100) |} ].

Definition sample_index (vector : list R) (topK : Z) (includeMetadata : bool)
    : option (list IndexMatch) + jsstring :=
  inl (Some (firstn (Z.to_nat topK) sample_matches)).

Definition svc_up : Services :=
  {| OPENAI_API_KEY := true;
     embeddings_create := fun _ => inl [];
     index_query := sample_index |}.

Definition svc_quota : Services :=
  {| OPENAI_API_KEY := true;
     embeddings_create :=
       fun _ => inr (lit "429 You exceeded your current quota");
     index_query := sample_index |}.

Definition svc_down : Services :=
  {| OPENAI_API_KEY := true;
     embeddings_create := fun _ => inr (lit "network error");
     index_query := fun _ _ _ => inr (lit "Pinecone unreachable") |}.

Definition unreachable (endpoint : Endpoint) (request : SearchRequest)
    : option Response := None.

Definition idle : SearchState :=
  {| searchQuery := []; selectedCategory := [];
     isTyping := false; shouldUseAPI := false |}.

(** A settled query of two ideographs with the API flag set, with and
    without a selected category; a query of white space only. *)
Definition settled_query : SearchState :=
  {| searchQuery := lit "川菜"; selectedCategory := [];
     isTyping := false; shouldUseAPI := true |}.

Definition settled_in_category : SearchState :=
  {| searchQuery := lit "川菜"; selectedCategory := lit "旅行";
     isTyping := false; shouldUseAPI := true |}.

Definition blank_query : SearchState :=
  {| searchQuery := [9; 32; 0x3000]; selectedCategory := [];
     isTyping := false; shouldUseAPI := false |}.

(** More sample data: an episode with capital letters in its text, a state
    that browses a category, services without an API key. *)
Definition ep4 : Podcast :=
  episode 4 "AI and Netflix" "SARS" "科技" ["AI"]%string.

Definition browsing : SearchState :=
  {| searchQuery := []; selectedCategory := lit "美食";
     isTyping := false; shouldUseAPI := false |}.

Definition svc_no_key : Services :=
  {| OPENAI_API_KEY := false;
     embeddings_create := fun _ => inl [];
     index_query := sample_index |}.

(** ** Double-precision numbers *)

(** IEEE 754 binary64 with the operations of the Standard Library's
    specification of floating-point numbers: every operation rounds its
    exact result to the nearest double, ties to even. *)
Module Binary64.

Definition prec : Z := 53.
Definition emax : Z := 1024.

Definition double : Type := spec_float.

(** An integer as a double (exact below 2^53). *)
Definition of_Z (z : Z) : double := binary_normalize prec emax z 0 false.

Definition add : double -> double -> double := SFadd prec emax.
Definition mul : double -> double -> double := SFmul prec emax.
Definition div : double -> double -> double := SFdiv prec emax.
Definition sqrt : double -> double := SFsqrt prec emax.
Definition ltb : double -> double -> bool := SFltb.

(** The decimal literal [n / 10^k]: the double nearest to it. *)
Definition decimal (n k : Z) : double := div (of_Z n) (of_Z (10 ^ k)).

(** [Math.min(x, y)] *)
Definition Math_min (x y : double) : double :=
  match x, y with
  | S754_nan, _ | _, S754_nan => S754_nan
  | _, _ => if SFltb y x then y else x
  end.

(** The number that a finite double stands for. *)
Definition to_Q (x : double) : Q :=
  match x with
  | S754_finite s m e =>
    let v := (inject_Z (Z.pos m) * Qpower 2 e)%Q in
    if s then (- v)%Q else v
  | _ => 0%Q
  end.

(** The sum of the squares of the components, without any rounding. *)
Definition exact_sumsq (embedding : list double) : Q :=
  fold_left (fun sum val => (sum + to_Q val * to_Q val)%Q) embedding 0%Q.

End Binary64.

(** ** The search core *)

Section Search.

(** [String.prototype.toLowerCase], and the corpus imported from
    [@/mockdata/podcasts]. *)
Variable toLowerCase : jsstring -> jsstring.
Variable podcastData : list Podcast.

(** *** The lexical scorer *)

(** [queryLower.split(" ").filter((term) => term.length > 0)] *)
Definition searchTerms (query : jsstring) : list jsstring :=
  let queryLower := toLowerCase query in
  filter (fun term => 0 <? len term) (split_space queryLower).

Definition searchContent (podcast : Podcast) : jsstring :=
  toLowerCase
    (title podcast ++ lit " " ++ description podcast ++ lit " " ++
     or_empty (fullDescription podcast) ++ lit " " ++
     join_space (tags podcast)).

(** The condition under which an entry of a semantic map adds 5. *)
Definition concept_hit (term content : jsstring)
    (entry : jsstring * list jsstring) : bool :=
  let '(key, values) := entry in
  includes term key || existsb (fun v => includes content v) values.

(** The two [forEach] loops of [localSemanticSearch] on one podcast. *)
Definition localScore (terms : list jsstring) (content : jsstring) : Z :=
  let score := 0 in
  let score :=
    fold_left (fun score term =>
      if includes content term then score + 10 else score) terms score in
  let score :=
    fold_left (fun score term =>
      fold_left (fun score entry =>
        if concept_hit term content entry then score + 5 else score)
        localSemanticSearch_semanticMap score) terms score in
  score.

Definition localSemanticSearch (query : jsstring) (podcasts : list Podcast)
    : list Podcast :=
  let terms := searchTerms query in
  JS.sort by_relevance
    (filter (score_above 0)
      (map (fun podcast =>
              with_score podcast (localScore terms (searchContent podcast)))
           podcasts)).

(** The single [forEach] loop of [semanticSearch] on one podcast. *)
Definition pageScore (terms : list jsstring) (content : jsstring) : Z :=
  fold_left (fun score term =>
    let score := if includes content term then score + 10 else score in
    fold_left (fun score entry =>
      if concept_hit term content entry then score + 5 else score)
      semanticSearch_semanticMap score) terms 0.

Definition semanticSearch (query : jsstring) (podcasts : list Podcast)
    : list Podcast :=
  if negb (truthy (trim query)) then podcasts else
  let terms := searchTerms query in
  JS.sort by_relevance
    (filter (score_above 0)
      (map (fun podcast =>
              with_score podcast (pageScore terms (searchContent podcast)))
           podcasts)).

(** *** The remote strategies on the client *)

Section Client.

(** [fetch(endpoint, { method: "POST", body })]; [None] is a rejected
    promise. *)
Variable fetch : Endpoint -> SearchRequest -> option Response.

Definition call_fetch (endpoint : Endpoint) (request : SearchRequest)
    : M Response :=
  ([(endpoint, request)],
   match fetch endpoint request with
   | Some response => Ok response
   | None => Throw (FetchRejected endpoint)
   end).

(** [(await response.json()).matches], as the array that [.map] needs. *)
Definition response_matches (response : Response) : M (list Match) :=
  match body response with
  | SearchBody matches => ret matches
  | ErrorBody _ | Unparseable => throw BadBody
  end.

(** The callback of [results.matches.map]; [None] is [null]. *)
Definition to_scored (podcasts : list Podcast) (m : Match) : option Podcast :=
  let podcastId := parseInt (match_id m) in
  let podcast :=
    JS.find (fun p => match podcastId with
                      | Some n => id p =? n
                      | None => false
                      end) podcasts in
  match podcast with
  | None => None
  | Some podcast => Some (with_score podcast (percentage (match_score m)))
  end.

(** [(p) => p && p.relevanceScore && p.relevanceScore > 20] *)
Definition above_threshold (p : option Podcast) : bool :=
  match p with
  | Some p => score_above 20 p
  | None => false
  end.

(** The filtered array holds no [null] and is read as [Podcast[]]. *)
Fixpoint non_null (l : list (option Podcast)) : list Podcast :=
  match l with
  | [] => []
  | Some p :: l' => p :: non_null l'
  | None :: l' => non_null l'
  end.

Definition rank_matches (matches : list Match) (podcasts : list Podcast)
    : list Podcast :=
  let scoredPodcasts :=
    non_null (filter above_threshold (map (to_scored podcasts) matches)) in
  JS.sort by_relevance scoredPodcasts.

Definition search_request (query : jsstring) : SearchRequest :=
  {| query := query; topK := Some 10; includeMetadata := Some true |}.

(** The body of the [try] block. *)
Definition remote_search (query : jsstring) (podcasts : list Podcast)
    : M (list Podcast) :=
  response <- call_fetch search_pinecone (search_request query) ;;
  response <-
    (if negb (ok response) && (status response =? 429)
     then call_fetch search_fallback (search_request query)
     else ret response) ;;
  if negb (ok response) then throw (RequestFailed (status response))
  else
    matches <- response_matches response ;;
    ret (rank_matches matches podcasts).

Definition semanticSearchWithPinecone (query : jsstring)
    (podcasts : list Podcast) : M (list Podcast) :=
  if negb (truthy (trim query)) then ret podcasts else
  try_catch (remote_search query podcasts)
    (fun error => ret (localSemanticSearch query podcasts)).

(** *** Strategy selection *)

Definition handleSearchInput (value : jsstring) (st : SearchState)
    : SearchState :=
  let shouldCallAPI :=
    (2 <=? len value) && negb (only_whitespace value) &&
    negb (endsWith_space value) in
  {| searchQuery := value;
     selectedCategory := selectedCategory st;
     isTyping := true;
     shouldUseAPI := shouldCallAPI |}.

(** The 800 ms timer of the typing effect: [setIsTyping(false)]. *)
Definition typingTimer (st : SearchState) : SearchState :=
  {| searchQuery := searchQuery st;
     selectedCategory := selectedCategory st;
     isTyping := false;
     shouldUseAPI := shouldUseAPI st |}.

Definition in_category (c : jsstring) (p : Podcast) : bool :=
  str_eqb (category p) c.

(** One run of [performSearch], with the list it passes to [setResults] as
    its value.  [st] is the page state that the run captured when the search
    timer fired: every read below is a read of the run's closure.  The
    status messages and the delays that the run awaits before its calls are
    left out, so the definition says which calls a run makes, not when. *)
Definition performSearch (st : SearchState) : M (list Podcast) :=
  let searchQuery := searchQuery st in
  let selectedCategory := selectedCategory st in
  if negb (truthy (trim searchQuery)) && negb (truthy selectedCategory)
  then ret podcastData
  else if (len searchQuery <? 2) || isTyping st then
    let filtered :=
      if truthy selectedCategory
      then filter (in_category selectedCategory) podcastData
      else podcastData in
    if truthy (trim searchQuery)
    then ret (localSemanticSearch searchQuery filtered)
    else ret filtered
  else
    let filtered := podcastData in
    let filtered :=
      if truthy selectedCategory
      then filter (in_category selectedCategory) filtered
      else filtered in
    if truthy (trim searchQuery) then
      try_catch
        (if shouldUseAPI st && negb (isTyping st)
         then semanticSearchWithPinecone searchQuery filtered
         else ret (localSemanticSearch searchQuery filtered))
        (fun error => ret (localSemanticSearch searchQuery filtered))
    else ret filtered.

End Client.

(** *** The local embedding *)

(** [.replace(/[^\u4e00-\u9fff\w\s]/g, " ")] *)
Definition strip_symbols (s : jsstring) : jsstring :=
  map (fun c =>
         if ((0x4e00 <=? c) && (c <=? 0x9fff)) || is_word c || is_space c
         then c else space) s.

(** [.replace(/\s+/g, " ")]: each run of white space becomes one space. *)
Fixpoint collapse_spaces (s : jsstring) : jsstring :=
  match s with
  | [] => []
  | c :: s' =>
    if is_space c then
      match s' with
      | c' :: _ => if is_space c' then collapse_spaces s'
                   else space :: collapse_spaces s'
      | [] => [space]
      end
    else c :: collapse_spaces s'
  end.

Definition normalizeText (text : jsstring) : jsstring :=
  trim (collapse_spaces (strip_symbols (toLowerCase text))).

(** The inner [for] loop: [hash = (hash << 5) - hash + char; hash = hash & hash]. *)
Definition wordHash (word : jsstring) : Z :=
  fold_left (fun hash char => ToInt32 (ToInt32 (hash * 32) - hash + char))
            word 0.

(** [embedding[pos] += w]; every position written is below the length. *)
Fixpoint add_at (pos : nat) (w : R) (embedding : list R) : list R :=
  match embedding, pos with
  | [], _ => []
  | x :: l, O => (x + w)%R :: l
  | x :: l, S n => x :: add_at n w l
  end.

(** [Math.min(1, Math.log(word.length + 1) / 3)] *)
Definition wordWeight (word : jsstring) : R :=
  Rmin 1 (ln (IZR (len word + 1)) / 3).

(** The body of [words.forEach]. *)
Definition addWord (dimension : Z) (embedding : list R) (word : jsstring)
    : list R :=
  let hash := wordHash word in
  let pos1 := Z.abs hash mod dimension in
  let pos2 := Z.abs (hash * 31) mod dimension in
  let pos3 := Z.abs (hash * 37) mod dimension in
  let weight := wordWeight word in
  let embedding := add_at (Z.to_nat pos1) weight embedding in
  let embedding := add_at (Z.to_nat pos2) (weight * (7 / 10)) embedding in
  add_at (Z.to_nat pos3) (weight * (5 / 10)) embedding.

(** The body of [Object.entries(semanticFeatures).forEach]. *)
Definition addFeature (dimension : Z) (normalizedText : jsstring)
    (embedding : list R) (feature : jsstring * list Z) : list R :=
  let '(keyword, positions) := feature in
  if includes normalizedText keyword then
    fold_left (fun embedding pos =>
                 if pos <? dimension then add_at (Z.to_nat pos) 2 embedding
                 else embedding) positions embedding
  else embedding.

(** [Math.sqrt(embedding.reduce((sum, val) => sum + val * val, 0))] *)
Definition magnitude (embedding : list R) : R :=
  sqrt (fold_left (fun sum val => (sum + val * val)%R) embedding 0%R).

(** [normalizedText.split(" ").filter((w) => w.length > 0)] *)
Definition wordsOf (normalizedText : jsstring) : list jsstring :=
  filter (fun w => 0 <? len w) (split_space normalizedText).

(** The vector before the final normalisation. *)
Definition accumulate (text : jsstring) (dimension : Z) : list R :=
  let normalizedText := normalizeText text in
  let words := wordsOf normalizedText in
  let embedding := repeat 0%R (Z.to_nat dimension) in
  let embedding := fold_left (addWord dimension) words embedding in
  fold_left (addFeature dimension normalizedText) semanticFeatures embedding.

Definition createLocalEmbedding (text : jsstring) (dimension : Z) : list R :=
  let embedding := accumulate text dimension in
  let magnitude := magnitude embedding in
  if Rlt_dec 0 magnitude
  then map (fun x => (x / magnitude)%R) embedding
  else embedding.

(** *** The route handlers *)

Definition default {A} (d : A) (o : option A) : A :=
  match o with Some a => a | None => d end.

(** [!query || query.trim().length === 0] *)
Definition missing_query (query : jsstring) : bool :=
  negb (truthy query) || (len (trim query) =? 0).

(** The [catch] of the main route: the status follows the error text. *)
Definition error_response (errorMessageText : jsstring) : Response :=
  if includes errorMessageText (lit "quota") ||
     includes errorMessageText (lit "429")
  then {| status := 429; body := ErrorBody (lit "OpenAI API quota exceeded") |}
  else if includes errorMessageText (lit "Pinecone")
  then {| status := 500; body := ErrorBody (lit "Pinecone database error") |}
  else if includes errorMessageText (lit "network") ||
          includes errorMessageText (lit "fetch")
  then {| status := 500; body := ErrorBody (lit "Network connection error") |}
  else {| status := 500; body := ErrorBody (lit "Internal server error") |}.

(** [POST] of [/api/search-pinecone]: the query is embedded by the remote
    embedding service. *)
Definition POST_search_pinecone (svc : Services) (request : SearchRequest)
    : Response :=
  let query := query request in
  let topK := default 10 (topK request) in
  let includeMetadata := default true (includeMetadata request) in
  if missing_query query then
    {| status := 400;
       body := ErrorBody (lit "Query is required and cannot be empty") |}
  else if negb (OPENAI_API_KEY svc) then
    {| status := 500; body := ErrorBody (lit "OpenAI API key not configured") |}
  else
    match embeddings_create svc query with
    | inr message => error_response message
    | inl queryEmbedding =>
      match index_query svc queryEmbedding topK includeMetadata with
      | inr message => error_response message
      | inl searchResponse =>
        let matches :=
          match searchResponse with
          | Some ms =>
            map (fun m => {| match_id := index_id m;
                             match_score := score_or_zero (index_score m) |}) ms
          | None => []
          end in
        {| status := 200; body := SearchBody matches |}
      end
    end.

(** [POST] of [/api/search-fallback]: the query is embedded locally and the
    scores of the index are scaled by 0.8. *)
Definition POST_search_fallback (svc : Services) (request : SearchRequest)
    : Response :=
  let query := query request in
  let topK := default 10 (topK request) in
  let includeMetadata := default true (includeMetadata request) in
  if missing_query query then
    {| status := 400; body := ErrorBody (lit "Query is required") |}
  else
    let queryEmbedding := createLocalEmbedding query 1536 in
    match index_query svc queryEmbedding topK includeMetadata with
    | inr message =>
      {| status := 500; body := ErrorBody (lit "Fallback search failed") |}
    | inl searchResponse =>
      let matches :=
        match searchResponse with
        | Some ms =>
          map (fun m => {| match_id := index_id m;
                           match_score :=
                             (score_or_zero (index_score m) * (8 # 10))%Q |}) ms
        | None => []
        end in
      {| status := 200; body := SearchBody matches |}
    end.

(** [fetch] when both routes are reached and served by [svc]. *)
Definition served (svc : Services) (endpoint : Endpoint)
    (request : SearchRequest) : option Response :=
  match endpoint with
  | search_pinecone => Some (POST_search_pinecone svc request)
  | search_fallback => Some (POST_search_fallback svc request)
  end.

(** *** Reference formulas for the scorer *)

Definition sumZ (l : list Z) : Z := fold_right Z.add 0 l.

Definition when (b : bool) (w : Z) : Z := if b then w else 0.

(** The score as a sum of contributions: 10 per term found in the text and
    5 per pair of a term and a map entry for which [hit] holds. *)
Definition score_sum
    (hit : jsstring -> jsstring -> jsstring * list jsstring -> bool)
    (semanticMap : list (jsstring * list jsstring))
    (terms : list jsstring) (content : jsstring) : Z :=
  sumZ (map (fun term =>
               when (includes content term) 10 +
               sumZ (map (fun entry => when (hit term content entry) 5)
                         semanticMap)) terms).

(** The condition of the specification's wording: the query term is a
    substring of the concept key, or a related term is in the text. *)
Definition spec_concept_hit (term content : jsstring)
    (entry : jsstring * list jsstring) : bool :=
  let '(key, values) := entry in
  includes key term || existsb (fun v => includes content v) values.

(** [t] occurs in [s]. *)
Definition substring (t s : jsstring) : Prop :=
  exists pre post, s = pre ++ t ++ post.

Definition has_score (s : Z) (p : Podcast) : bool :=
  match relevanceScore p with
  | Some s' => s' =? s
  | None => false
  end.

(** Descending order of relevance. *)
Definition desc (a b : Podcast) : Prop :=
  or_zero (relevanceScore b) <= or_zero (relevanceScore a).

(** A list of documents with the score of each attached, in the order of
    the list, and the ranking that both scorers apply to it. *)
Definition attach (score : Podcast -> Z) (podcasts : list Podcast)
    : list Podcast :=
  map (fun podcast => with_score podcast (score podcast)) podcasts.

Definition positive (score : Podcast -> Z) (podcasts : list Podcast)
    : list Podcast :=
  filter (score_above 0) (attach score podcasts).

(** The documents of score [s], in the order of the list. *)
Definition of_score (score : Podcast -> Z) (s : Z) (podcasts : list Podcast)
    : list Podcast :=
  map (fun d => with_score d s) (filter (fun d => score d =? s) podcasts).

(** The scores that the two scorers give a document for a query. *)
Definition localScoreOf (query : jsstring) (d : Podcast) : Z :=
  localScore (searchTerms query) (searchContent d).

Definition pageScoreOf (query : jsstring) (d : Podcast) : Z :=
  pageScore (searchTerms query) (searchContent d).

(** *** The fallback chain in the words of the specification *)

Inductive Strategy := RemoteEmbedding | RemoteLocalEmbedding | LocalLexical.

(** How one remote attempt ends. *)
Inductive Attempt :=
  | Succeeded (matches : list Match)
  | QuotaExceeded
  | Failed.

Definition attempt (fetch : Endpoint -> SearchRequest -> option Response)
    (endpoint : Endpoint) (query : jsstring) : Attempt :=
  match fetch endpoint (search_request query) with
  | None => Failed
  | Some response =>
    if ok response then
      match body response with
      | SearchBody matches => Succeeded matches
      | ErrorBody _ | Unparseable => Failed
      end
    else if status response =? 429 then QuotaExceeded
    else Failed
  end.

(** Step 1, then step 2 only after a quota failure of step 1, then the
    lexical scorer; the calls made, the strategy that answered and its
    result. *)
Definition fallback_chain (fetch : Endpoint -> SearchRequest -> option Response)
    (query : jsstring) (podcasts : list Podcast)
    : list Call * (Strategy * list Podcast) :=
  let first := (search_pinecone, search_request query) in
  let second := (search_fallback, search_request query) in
  match attempt fetch search_pinecone query with
  | Succeeded matches =>
    ([first], (RemoteEmbedding, rank_matches matches podcasts))
  | QuotaExceeded =>
    match attempt fetch search_fallback query with
    | Succeeded matches =>
      ([first; second], (RemoteLocalEmbedding, rank_matches matches podcasts))
    | QuotaExceeded | Failed =>
      ([first; second], (LocalLexical, localSemanticSearch query podcasts))
    end
  | Failed => ([first], (LocalLexical, localSemanticSearch query podcasts))
  end.

(** The candidates of a search: the corpus, restricted to the selected
    category when there is one. *)
Definition candidates (selectedCategory : jsstring) : list Podcast :=
  if truthy selectedCategory
  then filter (in_category selectedCategory) podcastData
  else podcastData.

(** What a search without any remote call shows. *)
Definition local_result (st : SearchState) : list Podcast :=
  if truthy (trim (searchQuery st))
  then localSemanticSearch (searchQuery st) (candidates (selectedCategory st))
  else candidates (selectedCategory st).

(** The states in which [performSearch] reaches the remote chain. *)
Definition remote_eligible (st : SearchState) : bool :=
  negb (isTyping st) && shouldUseAPI st &&
  (2 <=? len (searchQuery st)) && negb (only_whitespace (searchQuery st)).

(** A [fetch] whose answers hold no more matches than the request asks
    for. *)
Definition honours_topK (fetch : Endpoint -> SearchRequest -> option Response)
    : Prop :=
  forall endpoint request response matches,
    fetch endpoint request = Some response ->
    body response = SearchBody matches ->
    (List.length matches <= Z.to_nat (default 10%Z (topK request)))%nat.

(** Similarities lie between 0 and 1. *)
Definition unit_score (m : Match) : Prop :=
  (0 <= match_score m /\ match_score m <= 1)%Q.

(** The all-zero vector. *)
Definition zeros (n : nat) : list R := repeat 0%R n.

(** The sum of squares under the square root of [magnitude]. *)
Definition sumsq (embedding : list R) : R :=
  fold_left (fun sum val => (sum + val * val)%R) embedding 0%R.

(** The sum of the components. *)
Definition total (embedding : list R) : R := fold_right Rplus 0%R embedding.

(** *** Reference notions for further properties of the scorer *)

Definition is_upper (c : code_unit) : bool := (65 <=? c) && (c <=? 90).

(** A string with an ASCII capital letter in it. *)
Definition has_upper (s : jsstring) : bool := existsb is_upper s.

(** A semantic map without the related terms that hold a capital letter. *)
Definition without_upper (semanticMap : list (jsstring * list jsstring))
    : list (jsstring * list jsstring) :=
  map (fun entry : jsstring * list jsstring =>
         let '(key, values) := entry in
         (key, filter (fun v => negb (has_upper v)) values))
      semanticMap.

(** The number of search terms of a query. *)
Definition termCount (query : jsstring) : Z :=
  Z.of_nat (List.length (searchTerms query)).

(** *** The rest of the page components *)

(** [set.add(x)] on a [Set] of strings, kept in insertion order. *)
Definition set_add (set : list jsstring) (x : jsstring) : list jsstring :=
  if existsb (str_eqb x) set then set else set ++ [x].

(** [[...new Set(podcastData.map((p) => p.category))]] *)
Definition categories : list jsstring :=
  fold_left set_add (map category podcastData) [].

(** The set filled by [podcastData.forEach((p) => p.tags.forEach((tag) =>
    tags.add(tag)))], as an array. *)
Definition allTags : list jsstring :=
  fold_left (fun set p => fold_left set_add (tags p) set) podcastData [].

(** [allTags.slice(0, 10)], the tags shown as buttons. *)
Definition popularTags : list jsstring := firstn 10 allTags.

(** [handleTagClick], and the click on a suggested query: [setSearchQuery]
    alone. *)
Definition handleTagClick (tag : jsstring) (st : SearchState) : SearchState :=
  {| searchQuery := tag;
     selectedCategory := selectedCategory st;
     isTyping := isTyping st;
     shouldUseAPI := shouldUseAPI st |}.

Definition setSelectedCategory (c : jsstring) (st : SearchState)
    : SearchState :=
  {| searchQuery := searchQuery st;
     selectedCategory := c;
     isTyping := isTyping st;
     shouldUseAPI := shouldUseAPI st |}.

(** The delay of the search timer, in milliseconds. *)
Definition debounceDelay (st : SearchState) : Z :=
  if isTyping st then 150
  else if len (searchQuery st) <? 3 then 300
  else if shouldUseAPI st then 1000
  else 300.

(** What the user and the typing timer do to the page state. *)
Inductive Event :=
  | Typed (value : jsstring)
  | TimerFired
  | TagClicked (tag : jsstring)
  | SuggestionClicked (query : jsstring)
  | CategorySelected (c : jsstring).

Definition is_typed (e : Event) : bool :=
  match e with Typed _ => true | _ => false end.

Definition step (st : SearchState) (e : Event) : SearchState :=
  match e with
  | Typed value => handleSearchInput value st
  | TimerFired => typingTimer st
  | TagClicked tag => handleTagClick tag st
  | SuggestionClicked query => handleTagClick query st
  | CategorySelected c => setSelectedCategory c st
  end.

Definition run (st : SearchState) (events : list Event) : SearchState :=
  fold_left step events st.

(** [{ ...podcast, fullDescription: podcast.fullDescription ?? "" }] *)
Definition fill (podcast : Podcast) : Podcast :=
  {| id := id podcast;
     title := title podcast;
     description := description podcast;
     fullDescription := Some (or_empty (fullDescription podcast));
     category := category podcast;
     duration := duration podcast;
     publishDate := publishDate podcast;
     tags := tags podcast;
     relevanceScore := relevanceScore podcast |}.

(** [performSearch] of the first page component, which has no remote
    strategy. *)
Definition performSearch_first (searchQuery selectedCategory : jsstring)
    : list Podcast :=
  if negb (truthy (trim searchQuery)) && negb (truthy selectedCategory)
  then podcastData
  else
    let filtered := podcastData in
    let filtered :=
      if truthy selectedCategory
      then filter (in_category selectedCategory) filtered
      else filtered in
    if truthy (trim searchQuery)
    then map fill (semanticSearch searchQuery filtered)
    else filtered.

(** A list, restricted to a category when one is selected. *)
Definition restrict (c : jsstring) (l : list Podcast) : list Podcast :=
  if truthy c then filter (in_category c) l else l.

(** *** The search seen through the two routes *)

(** An error text that the main route reports as a quota failure. *)
Definition quota_message (message : jsstring) : bool :=
  includes message (lit "quota") || includes message (lit "429").

(** The matches of the index as the main route and as the fallback route
    send them. *)
Definition plain_matches (searchResponse : option (list IndexMatch))
    : list Match :=
  map (fun m => {| match_id := index_id m;
                   match_score := score_or_zero (index_score m) |})
      (default [] searchResponse).

Definition scaled_matches (searchResponse : option (list IndexMatch))
    : list Match :=
  map (fun m => {| match_id := index_id m;
                   match_score :=
                     (score_or_zero (index_score m) * (8 # 10))%Q |})
      (default [] searchResponse).


(** The search of the client when both routes are served by [svc], read
    off the answers of the services. *)
Definition served_search (svc : Services) (query : jsstring)
    (podcasts : list Podcast) : M (list Podcast) :=
  let first := (search_pinecone, search_request query) in
  let second := (search_fallback, search_request query) in
  let lexical := localSemanticSearch query podcasts in
  let hashed :=
    match index_query svc (createLocalEmbedding query 1536) 10 true with
    | inl searchResponse =>
      ([first; second],
       Ok (rank_matches (scaled_matches searchResponse) podcasts))
    | inr _ => ([first; second], Ok lexical)
    end in
  let on_error message :=
    if quota_message message then hashed else ([first], Ok lexical) in
  if negb (OPENAI_API_KEY svc) then ([first], Ok lexical)
  else
    match embeddings_create svc query with
    | inr message => on_error message
    | inl queryEmbedding =>
      match index_query svc queryEmbedding 10 true with
      | inr message => on_error message
      | inl searchResponse =>
        ([first],
         Ok (rank_matches (plain_matches searchResponse) podcasts))
      end
    end.

(** The ids that a double holds exactly, the safe integers.  [parseInt] is
    read as the integer that the digits denote; the double that the code
    compares with the ids differs from it only when it is 2^53 or more in
    absolute value, and then it equals no safe integer either. *)
Definition safe_id (d : Podcast) : Prop := Z.abs (id d) < 2 ^ 53.

(** *** Reference notions for the local embedding *)

(** The features whose keyword occurs in a normalised text. *)
Definition matchedFeatures (normalizedText : jsstring)
    : list (jsstring * list Z) :=
  filter (fun feature => includes normalizedText (fst feature))
         semanticFeatures.

(** The code units that the normalisation keeps apart from white space:
    Chinese ideographs and word characters. *)
Definition is_kept (c : code_unit) : bool :=
  ((0x4e00 <=? c) && (c <=? 0x9fff)) || is_word c.

(** [x] is directly followed by [y] in [s]. *)
Definition adjacent (x y : code_unit) (s : jsstring) : Prop :=
  exists a b, s = a ++ x :: y :: b.

(** The three positions that a word is hashed to, and the positions that
    the two loops of [createLocalEmbedding] write to for a text. *)
Definition wordPositions (dimension : Z) (word : jsstring) : list Z :=
  let hash := wordHash word in
  [Z.abs hash mod dimension;
   Z.abs (hash * 31) mod dimension;
   Z.abs (hash * 37) mod dimension].

Definition written (text : jsstring) (dimension : Z) : list Z :=
  flat_map (wordPositions dimension) (wordsOf (normalizeText text)) ++
  flat_map snd (matchedFeatures (normalizeText text)).

(** The components above zero of a vector of 1536 components, none of them
    negative, are those at the positions of [set]. *)
Definition supported (l : list R) (set : list Z) : Prop :=
  List.length l = 1536%nat /\ Forall (Rle 0%R) l /\
  forall i, (0 < nth i l 0)%R <-> In (Z.of_nat i) set.

(** *** The similarity route *)

(** [interface Document] of the route [/api/semantic-search]. *)
Record Document := mkDocument {
  document_id : Z;
  document_text : jsstring
}.

(** The request body; [documents] may be missing. *)
Record SimilarityRequest := mkSimilarityRequest {
  request_query : jsstring;
  request_documents : option (list Document)
}.

(** One entry of the answer; the score [None] is NaN. *)
Record Similarity := mkSimilarity {
  similarity_id : Z;
  similarity_score : option R;
  similarity_text : jsstring
}.

Inductive SimilarityBody :=
  | SimilarityError (error : jsstring)
  | SimilarityMatches (query : jsstring) (matches : list Similarity)
      (total : Z).

Record SimilarityResponse := mkSimilarityResponse {
  similarity_status : Z;
  similarity_body : SimilarityBody
}.

(** [openai.embeddings.create({ model, input })] for one text or for an
    array of texts: the embeddings of [data], in order, or the text of the
    error it rejects with. *)
Inductive EmbeddingInput :=
  | One (input : jsstring)
  | Many (inputs : list jsstring).

Definition Embeddings : Type := EmbeddingInput -> list (list R) + jsstring.

(** [a.reduce((sum, val, i) => sum + val * b[i], 0)]: a missing [b[i]] makes
    the sum NaN. *)
Definition dotProduct (a b : list R) : option R :=
  fst (fold_left
         (fun (acc : option R * nat) (val : R) =>
            let '(sum, i) := acc in
            (match sum, nth_error b i with
             | Some sum, Some y => Some (sum + val * y)%R
             | _, _ => None
             end, S i))
         a (Some 0%R, 0%nat)).

(** [cosineSimilarity]; a zero magnitude makes the dot product zero, and
    0 / 0 is NaN. *)
Definition cosineSimilarity (a b : list R) : option R :=
  let dotProduct := dotProduct a b in
  let magnitudeA := magnitude a in
  let magnitudeB := magnitude b in
  match dotProduct with
  | None => None
  | Some dotProduct =>
    if Req_dec_T (magnitudeA * magnitudeB) 0 then None
    else Some (dotProduct / (magnitudeA * magnitudeB))%R
  end.

(** [match.score > 0.3] *)
Definition above_similarity (m : Similarity) : bool :=
  match similarity_score m with
  | Some s => if Rlt_dec (3 / 10) s then true else false
  | None => false
  end.

(** [b.score - a.score > 0]: [a] is to come after [b]. *)
Definition less_similar (a b : Similarity) : bool :=
  match similarity_score a, similarity_score b with
  | Some x, Some y => if Rlt_dec 0 (y - x) then true else false
  | _, _ => false
  end.

(** The stable sort of [JS.sort], for a comparator given by its sign. *)
Fixpoint insert_after {A} (after : A -> A -> bool) (x : A) (l : list A)
    : list A :=
  match l with
  | [] => [x]
  | y :: l' => if after x y then y :: insert_after after x l' else x :: l
  end.

Fixpoint sort_after {A} (after : A -> A -> bool) (l : list A) : list A :=
  match l with
  | [] => []
  | x :: l' => insert_after after x (sort_after after l')
  end.

(** [documents.map((doc, index) => ...)]; a missing embedding makes
    [cosineSimilarity] throw. *)
Fixpoint similarities (queryEmbedding : list R) (documents : list Document)
    (documentEmbeddings : list (list R)) (index : nat)
    : option (list Similarity) :=
  match documents with
  | [] => Some []
  | doc :: rest =>
    match nth_error documentEmbeddings index with
    | None => None
    | Some embedding =>
      match similarities queryEmbedding rest documentEmbeddings (S index) with
      | None => None
      | Some ms =>
        Some ({| similarity_id := document_id doc;
                 similarity_score := cosineSimilarity queryEmbedding embedding;
                 similarity_text := document_text doc |} :: ms)
      end
    end
  end.

Definition similarity_error (code : Z) (message : string)
    : SimilarityResponse :=
  {| similarity_status := code; similarity_body := SimilarityError (lit message) |}.

(** [POST] of [/api/semantic-search]. *)
Definition POST_semantic_search (create : Embeddings)
    (request : SimilarityRequest) : SimilarityResponse :=
  let query := request_query request in
  match request_documents request with
  | None => similarity_error 400 "Query and documents are required"
  | Some documents =>
    if negb (truthy query) || (Z.of_nat (List.length documents) =? 0)
    then similarity_error 400 "Query and documents are required"
    else
      match create (One query) with
      | inr _ => similarity_error 500 "Internal server error"
      | inl [] => similarity_error 500 "Internal server error"
      | inl (queryEmbedding :: _) =>
        match create (Many (map document_text documents)) with
        | inr _ => similarity_error 500 "Internal server error"
        | inl documentEmbeddings =>
          match similarities queryEmbedding documents documentEmbeddings 0 with
          | None => similarity_error 500 "Internal server error"
          | Some scored =>
            let matches :=
              sort_after less_similar (filter above_similarity scored) in
            {| similarity_status := 200;
               similarity_body :=
                 SimilarityMatches query matches
                   (Z.of_nat (List.length matches)) |}
          end
        end
      end
  end.

(** The dot product as a sum over the pairs of components. *)
Fixpoint dot (a b : list R) : option R :=
  match a, b with
  | [], _ => Some 0%R
  | _ :: _, [] => None
  | x :: a', y :: b' => option_map (fun d => (x * y + d)%R) (dot a' b')
  end.

(** Descending order of similarity. *)
Definition similarity_desc (a b : Similarity) : Prop :=
  forall x y, similarity_score a = Some x -> similarity_score b = Some y ->
              (y <= x)%R.

(** *** The local embedding in double precision *)

Section Doubles.

(** [Math.log], which the language leaves to the implementation. *)
Variable Math_log : Binary64.double -> Binary64.double.

(** [embedding[pos] += w] *)
Fixpoint add_at64 (pos : nat) (w : Binary64.double)
    (embedding : list Binary64.double) : list Binary64.double :=
  match embedding, pos with
  | [], _ => []
  | x :: l, O => Binary64.add x w :: l
  | x :: l, S n => x :: add_at64 n w l
  end.

(** [Math.min(1, Math.log(word.length + 1) / 3)] *)
Definition wordWeight64 (word : jsstring) : Binary64.double :=
  Binary64.Math_min (Binary64.of_Z 1)
    (Binary64.div (Math_log (Binary64.of_Z (len word + 1)))
                  (Binary64.of_Z 3)).

Definition addWord64 (dimension : Z) (embedding : list Binary64.double)
    (word : jsstring) : list Binary64.double :=
  let hash := wordHash word in
  let pos1 := Z.abs hash mod dimension in
  let pos2 := Z.abs (hash * 31) mod dimension in
  let pos3 := Z.abs (hash * 37) mod dimension in
  let weight := wordWeight64 word in
  let embedding := add_at64 (Z.to_nat pos1) weight embedding in
  let embedding :=
    add_at64 (Z.to_nat pos2)
             (Binary64.mul weight (Binary64.decimal 7 1)) embedding in
  add_at64 (Z.to_nat pos3)
           (Binary64.mul weight (Binary64.decimal 5 1)) embedding.

Definition addFeature64 (dimension : Z) (normalizedText : jsstring)
    (embedding : list Binary64.double) (feature : jsstring * list Z)
    : list Binary64.double :=
  let '(keyword, positions) := feature in
  if includes normalizedText keyword then
    fold_left (fun embedding pos =>
                 if pos <? dimension
                 then add_at64 (Z.to_nat pos) (Binary64.of_Z 2) embedding
                 else embedding) positions embedding
  else embedding.

(** [Math.sqrt(embedding.reduce((sum, val) => sum + val * val, 0))] *)
Definition magnitude64 (embedding : list Binary64.double)
    : Binary64.double :=
  Binary64.sqrt
    (fold_left (fun sum val => Binary64.add sum (Binary64.mul val val))
               embedding (Binary64.of_Z 0)).

Definition accumulate64 (text : jsstring) (dimension : Z)
    : list Binary64.double :=
  let normalizedText := normalizeText text in
  let words := wordsOf normalizedText in
  let embedding := repeat (Binary64.of_Z 0) (Z.to_nat dimension) in
  let embedding := fold_left (addWord64 dimension) words embedding in
  fold_left (addFeature64 dimension normalizedText) semanticFeatures
            embedding.

Definition createLocalEmbedding64 (text : jsstring) (dimension : Z)
    : list Binary64.double :=
  let embedding := accumulate64 text dimension in
  let magnitude := magnitude64 embedding in
  if Binary64.ltb (Binary64.of_Z 0) magnitude
  then map (fun x => Binary64.div x magnitude) embedding
  else embedding.

End Doubles.

(** *** The normalisation with rounded arithmetic *)

Section Rounding.

Local Open Scope R_scope.

(** The unit roundoff of binary64: half the distance from 1 to the next
    double. *)
Definition unit_roundoff : R := / 2 ^ 53.

(** Zero and the magnitudes from 1e-300 to 1e300, all of them in the range
    of the normal numbers of binary64. *)
Definition in_range (x : R) : Prop :=
  x = 0 \/ / 10 ^ 300 <= Rabs x <= 10 ^ 300.

(** The standard model of floating-point arithmetic: the result of an
    operation is its exact result [x] rounded, with a relative error of at
    most the unit roundoff.  Rounding to the nearest double is such a
    rounding on the normal numbers, where nothing overflows or
    underflows. *)
Definition standard_model (rnd : R -> R) : Prop :=
  forall x, in_range x -> Rabs (rnd x - x) <= unit_roundoff * Rabs x.

(** What the two loops leave in a component: zero, or an accumulated weight,
    bounded here by 1e-100 and 1e100. *)
Definition weight_range (x : R) : Prop :=
  x = 0 \/ / 10 ^ 100 <= x <= 10 ^ 100.

(** The integer nearest to [y], the even one at a tie. *)
Definition nearest (y : R) : Z :=
  let f := Int_part y in
  if Rlt_dec (y - IZR f) (/ 2) then f
  else if Rlt_dec (/ 2) (y - IZR f) then (f + 1)%Z
  else if Z.even f then f else (f + 1)%Z.

(** The binary exponent of [x]: [2 ^ exponent x <= |x| < 2 ^ (exponent x + 1)]. *)
Definition exponent (x : R) : Z := Int_part (ln (Rabs x) / ln 2).

(** Rounding to the nearest number of 53 significant bits, ties to even:
    the rounding of binary64 without the bounds on its exponent. *)
Definition round53 (x : R) : R :=
  if Req_dec_T x 0 then 0
  else IZR (nearest (x * powerRZ 2 (52 - exponent x))) *
       powerRZ 2 (exponent x - 52).

(** The last step of [createLocalEmbedding] with every operation followed
    by the rounding [rnd]. *)
Variable rnd : R -> R.

(** [embedding.reduce((sum, val) => sum + val * val, 0)] *)
Definition sumsq_rnd (embedding : list R) : R :=
  fold_left (fun sum val => rnd (sum + rnd (val * val))) embedding 0.

(** [Math.sqrt(...)] of it *)
Definition magnitude_rnd (embedding : list R) : R :=
  rnd (sqrt (sumsq_rnd embedding)).

(** [if (magnitude > 0) { for (...) embedding[i] /= magnitude; }] *)
Definition normalize_rnd (embedding : list R) : list R :=
  let magnitude := magnitude_rnd embedding in
  if Rlt_dec 0 magnitude
  then map (fun x => rnd (x / magnitude)) embedding
  else embedding.

End Rounding.

(** ** Properties *)

(** *** Strings *)

Lemma startsWith_spec (s t : jsstring) :
  startsWith s t = true <-> exists post, s = t ++ post.
Proof.
  revert s; induction t as [|b t IH]; intros s; simpl.
  - split; [intros _; now exists s | reflexivity].
  - destruct s as [|a s].
    + split; [discriminate | intros [post H]; discriminate].
    + rewrite andb_true_iff, Z.eqb_eq, IH. split.
      * intros [-> [post ->]]. now exists post.
      * intros [post H]. injection H as -> ->. eauto.
Qed.

Lemma includes_spec (s t : jsstring) :
  includes s t = true <-> substring t s.
Proof.
  unfold substring. induction s as [|a s IH]; simpl.
  - rewrite orb_false_r, startsWith_spec. split.
    + intros [post H]. now exists [], post.
    + intros [pre [post H]]. destruct pre; simpl in H.
      * eauto.
      * discriminate.
  - rewrite orb_true_iff, startsWith_spec, IH. split.
    + intros [[post H] | [pre [post H]]].
      * now exists [], post.
      * exists (a :: pre), post. simpl. now rewrite H.
    + intros [pre [post H]]. destruct pre as [|c pre]; simpl in H.
      * left. eauto.
      * right. injection H as _ H. eauto.
Qed.

Lemma split_space_app (a b : jsstring) :
  split_space (a ++ space :: b) = split_space a ++ split_space b.
Proof.
  induction a as [|c a IH]; simpl.
  - reflexivity.
  - destruct (c =? space).
    + now rewrite IH.
    + rewrite IH. destruct (split_space a) as [|w ws] eqn:E.
      * destruct a; simpl in E; [discriminate|].
        destruct (_ =? space); [discriminate|].
        destruct (split_space a); discriminate.
      * reflexivity.
Qed.

Lemma trimStart_whitespace (s : jsstring) :
  only_whitespace s = true -> trimStart s = [].
Proof.
  induction s as [|c s IH]; simpl; [reflexivity|].
  intros H. apply andb_true_iff in H as [Hc Hs]. rewrite Hc. auto.
Qed.

Lemma trim_whitespace (s : jsstring) :
  only_whitespace s = true -> trim s = [].
Proof.
  intros H. unfold trim. now rewrite (trimStart_whitespace s H).
Qed.

Lemma trimStart_nil (s : jsstring) :
  trimStart s = [] -> only_whitespace s = true.
Proof.
  induction s as [|c s IH]; simpl; [reflexivity|].
  destruct (is_space c); [auto | discriminate].
Qed.

Lemma trim_nil (s : jsstring) :
  trim s = [] -> only_whitespace s = true.
Proof.
  unfold trim. intros H.
  assert (E : trimStart (rev (trimStart s)) = []).
  { destruct (trimStart (rev (trimStart s))) as [|c l]; [reflexivity|].
    simpl in H. now destruct (rev l). }
  apply trimStart_nil in E. unfold only_whitespace in E.
  rewrite forallb_forall in E.
  assert (T : forall x, In x (trimStart s) -> is_space x = true).
  { intros x Hx. apply E. now apply in_rev in Hx. }
  clear E H. induction s as [|c s IH]; simpl in *; [reflexivity|].
  destruct (is_space c) eqn:Hc; simpl.
  - auto.
  - rewrite <- Hc. apply T. now left.
Qed.

Lemma truthy_trim (s : jsstring) :
  truthy (trim s) = negb (only_whitespace s).
Proof.
  destruct (only_whitespace s) eqn:E.
  - now rewrite trim_whitespace.
  - destruct (trim s) eqn:T; [|reflexivity].
    apply trim_nil in T. congruence.
Qed.

(** *** The stable sort *)

Lemma sort_insert_perm {A} (cmp : A -> A -> Z) (x : A) (l : list A) :
  Permutation (x :: l) (sort_insert cmp x l).
Proof.
  induction l as [|y l IH]; simpl; [reflexivity|].
  destruct (0 <? cmp x y); [|reflexivity].
  rewrite perm_swap. now constructor.
Qed.

Lemma sort_perm {A} (cmp : A -> A -> Z) (l : list A) :
  Permutation l (JS.sort cmp l).
Proof.
  induction l as [|x l IH]; simpl; [reflexivity|].
  rewrite <- sort_insert_perm. now constructor.
Qed.

Lemma sort_length {A} (cmp : A -> A -> Z) (l : list A) :
  List.length (JS.sort cmp l) = List.length l.
Proof. symmetry. apply Permutation_length, sort_perm. Qed.

Lemma sort_In {A} (cmp : A -> A -> Z) (l : list A) (x : A) :
  In x (JS.sort cmp l) <-> In x l.
Proof.
  split; apply Permutation_in; [symmetry|]; apply sort_perm.
Qed.

Lemma insert_sorted (x : Podcast) (l : list Podcast) :
  StronglySorted desc l -> StronglySorted desc (sort_insert by_relevance x l).
Proof.
  induction 1 as [|y l Hl IH Hy]; simpl.
  - repeat constructor.
  - destruct (0 <? by_relevance x y) eqn:E.
    + constructor; [assumption|].
      eapply Permutation_Forall; [apply sort_insert_perm|].
      constructor; [|assumption].
      apply Z.ltb_lt in E. unfold desc, by_relevance in *. lia.
    + apply Z.ltb_ge in E. constructor.
      * now constructor.
      * constructor.
        -- unfold desc, by_relevance in *. lia.
        -- eapply Forall_impl; [|exact Hy].
           unfold desc, by_relevance in *. intros; lia.
Qed.

Lemma sort_sorted (l : list Podcast) :
  StronglySorted desc (JS.sort by_relevance l).
Proof.
  induction l; simpl; [constructor | now apply insert_sorted].
Qed.

Lemma insert_stable (s : Z) (x : Podcast) (l : list Podcast) :
  Forall (fun p => relevanceScore p <> None) (x :: l) ->
  filter (has_score s) (sort_insert by_relevance x l) =
  filter (has_score s) (x :: l).
Proof.
  intros H. inversion_clear H as [|? ? Hx Hl].
  induction l as [|y l IH]; simpl; [reflexivity|].
  inversion_clear Hl as [|? ? Hy Hl'].
  destruct (0 <? by_relevance x y) eqn:E; [|reflexivity].
  simpl. rewrite (IH Hl'). simpl.
  apply Z.ltb_lt in E. unfold by_relevance in E.
  unfold has_score.
  destruct (relevanceScore x) as [sx|]; [|congruence].
  destruct (relevanceScore y) as [sy|]; [|congruence].
  simpl in E.
  destruct (sx =? s) eqn:Ex, (sy =? s) eqn:Ey; try reflexivity.
  apply Z.eqb_eq in Ex, Ey. lia.
Qed.

Lemma sort_stable (s : Z) (l : list Podcast) :
  Forall (fun p => relevanceScore p <> None) l ->
  filter (has_score s) (JS.sort by_relevance l) = filter (has_score s) l.
Proof.
  induction 1 as [|x l Hx Hl IH]; simpl; [reflexivity|].
  rewrite insert_stable.
  - simpl. now rewrite IH.
  - constructor; [assumption|].
    eapply Permutation_Forall; [apply sort_perm | assumption].
Qed.

(** *** The lexical scorer *)

Lemma sumZ_app (l l' : list Z) : sumZ (l ++ l') = sumZ l + sumZ l'.
Proof. induction l; simpl; lia. Qed.

Lemma sumZ_nonneg (l : list Z) : Forall (fun x => 0 <= x) l -> 0 <= sumZ l.
Proof. induction 1; simpl; lia. Qed.

Lemma when_nonneg (b : bool) (w : Z) : 0 <= w -> 0 <= when b w.
Proof. destruct b; simpl; lia. Qed.

Lemma fold_when {A} (f : A -> bool) (w : Z) (l : list A) (score : Z) :
  fold_left (fun score x => if f x then score + w else score) l score =
  score + sumZ (map (fun x => when (f x) w) l).
Proof.
  revert score; induction l as [|x l IH]; intros score; simpl; [lia|].
  rewrite IH. destruct (f x); simpl; lia.
Qed.

Lemma fold_fold_when {A B} (f : A -> B -> bool) (w : Z) (m : list B)
    (l : list A) (score : Z) :
  fold_left (fun score x =>
    fold_left (fun score e => if f x e then score + w else score) m score)
    l score =
  score + sumZ (map (fun x => sumZ (map (fun e => when (f x e) w) m)) l).
Proof.
  revert score; induction l as [|x l IH]; intros score; simpl; [lia|].
  rewrite IH, fold_when. lia.
Qed.

Lemma sumZ_map_add {A} (f g : A -> Z) (l : list A) :
  sumZ (map (fun x => f x + g x) l) = sumZ (map f l) + sumZ (map g l).
Proof. induction l; simpl; lia. Qed.

Lemma localScore_sum (terms : list jsstring) (content : jsstring) :
  localScore terms content =
  score_sum concept_hit localSemanticSearch_semanticMap terms content.
Proof.
  unfold localScore, score_sum.
  generalize localSemanticSearch_semanticMap as m. intros m.
  rewrite (fold_fold_when (fun term e => concept_hit term content e)).
  rewrite (fold_when (fun term => includes content term)).
  rewrite (sumZ_map_add (fun term => when (includes content term) 10)). lia.
Qed.

Lemma pageScore_sum (terms : list jsstring) (content : jsstring) :
  pageScore terms content =
  score_sum concept_hit semanticSearch_semanticMap terms content.
Proof.
  unfold pageScore, score_sum.
  generalize semanticSearch_semanticMap as m. intros m.
  assert (G : forall score,
    fold_left (fun score term =>
      let score := if includes content term then score + 10 else score in
      fold_left (fun score entry =>
        if concept_hit term content entry then score + 5 else score) m score)
      terms score =
    score + sumZ (map (fun term =>
      when (includes content term) 10 +
      sumZ (map (fun entry => when (concept_hit term content entry) 5) m))
      terms)).
  { induction terms as [|t terms IH]; intros score;
      cbn [fold_left map sumZ fold_right]; [lia|].
    rewrite IH, fold_when. destruct (includes content t); cbn [when]; unfold sumZ; lia. }
  now rewrite G.
Qed.

Lemma score_sum_app hit m (ts ts' : list jsstring) (content : jsstring) :
  score_sum hit m (ts ++ ts') content =
  score_sum hit m ts content + score_sum hit m ts' content.
Proof. unfold score_sum. now rewrite map_app, sumZ_app. Qed.

Lemma score_sum_nonneg hit m (ts : list jsstring) (content : jsstring) :
  0 <= score_sum hit m ts content.
Proof.
  unfold score_sum. apply sumZ_nonneg, Forall_forall.
  intros x Hx. apply in_map_iff in Hx as [t [<- _]].
  assert (0 <= sumZ (map (fun entry => when (hit t content entry) 5) m)).
  { apply sumZ_nonneg, Forall_forall. intros y Hy.
    apply in_map_iff in Hy as [e [<- _]]. apply when_nonneg. lia. }
  assert (0 <= when (includes content t) 10) by (apply when_nonneg; lia).
  lia.
Qed.

Lemma concept_hit_spec (term content key : jsstring) (values : list jsstring) :
  concept_hit term content (key, values) = true <->
  substring key term \/ exists v, In v values /\ substring v content.
Proof.
  unfold concept_hit. rewrite orb_true_iff, includes_spec, existsb_exists.
  split; intros [H|[v [Hv H]]]; auto; right; exists v;
    (split; [assumption|]); now apply includes_spec.
Qed.

(** C1, as the code has it: the score of a document is the sum, over the
    query terms, of 10 when the term occurs in the lowercased searchable
    text, plus, over the entries of the semantic map, of 5 when the concept
    key occurs in the term or a related term occurs in the searchable text.
    This holds for the scorer of both page components, each with its own
    map. *)
Theorem lexical_score_contributions (query : jsstring) (d : Podcast) :
  let terms := searchTerms query in
  let content := searchContent d in
  localScore terms content =
    score_sum concept_hit localSemanticSearch_semanticMap terms content /\
  pageScore terms content =
    score_sum concept_hit semanticSearch_semanticMap terms content /\
  (forall term, includes content term = true <-> substring term content) /\
  (forall term key values,
     concept_hit term content (key, values) = true <->
     substring key term \/ exists v, In v values /\ substring v content).
Proof.
  cbv zeta. split; [apply localScore_sum|].
  split; [apply pageScore_sum|].
  split; [intros; apply includes_spec | intros; apply concept_hit_spec].
Qed.

Section Ranking.

Variable score : Podcast -> Z.

Lemma positive_has_score (podcasts : list Podcast) :
  Forall (fun p => relevanceScore p <> None) (positive score podcasts).
Proof.
  apply Forall_forall. intros p Hp. apply filter_In in Hp as [Hp _].
  unfold attach in Hp. apply in_map_iff in Hp as [d [<- _]]. discriminate.
Qed.

Lemma positive_of_score (podcasts : list Podcast) (s : Z) :
  filter (has_score s) (positive score podcasts) =
  if 0 <? s then of_score score s podcasts else [].
Proof.
  unfold positive, attach, of_score.
  induction podcasts as [|d ps IH]; simpl.
  - now destruct (0 <? s).
  - set (v := score d) in *.
    unfold score_above at 1. simpl.
    destruct (v =? s) eqn:Ev.
    + apply Z.eqb_eq in Ev. subst s.
      destruct (0 <? v) eqn:Pv.
      * assert ((v =? 0) = false) as ->
          by (apply Z.eqb_neq; apply Z.ltb_lt in Pv; lia).
        simpl. unfold has_score at 1. simpl. rewrite Z.eqb_refl.
        now rewrite IH.
      * rewrite andb_false_r. exact IH.
    + destruct (negb (v =? 0) && (0 <? v)); [|exact IH].
      simpl. unfold has_score at 1. simpl. rewrite Ev. exact IH.
Qed.

(** What sorting the positively scored documents gives. *)
Lemma ranking_sorted_stable (podcasts : list Podcast) :
  let out := JS.sort by_relevance (positive score podcasts) in
  Forall (fun p => exists s, relevanceScore p = Some s /\ 0 < s) out /\
  StronglySorted desc out /\
  Permutation out (positive score podcasts) /\
  (forall s, filter (has_score s) out =
             if 0 <? s then of_score score s podcasts else []).
Proof.
  cbv zeta. repeat split.
  - apply Forall_forall. intros p Hp. apply sort_In, filter_In in Hp as [_ Hp].
    unfold score_above in Hp.
    destruct (relevanceScore p) as [s|]; [|discriminate].
    exists s. apply andb_true_iff in Hp as [_ Hp]. apply Z.ltb_lt in Hp. auto.
  - apply sort_sorted.
  - symmetry. apply sort_perm.
  - intros s. rewrite sort_stable by apply positive_has_score.
    apply positive_of_score.
Qed.

End Ranking.

(** C7: the output of the lexical scorer holds only documents with a
    positive score, is in descending order of score, and lists the documents
    of any one score in their order in the corpus.  The scorer of the first
    page component does the same unless the query is blank, which it passes
    through. *)
Theorem lexical_output_sorted_stable (query : jsstring)
    (podcasts : list Podcast) :
  let out := localSemanticSearch query podcasts in
  let out' := semanticSearch query podcasts in
  (Forall (fun p => exists s, relevanceScore p = Some s /\ 0 < s) out /\
   StronglySorted desc out /\
   Permutation out (positive (localScoreOf query) podcasts) /\
   (forall s, filter (has_score s) out =
              if 0 <? s then of_score (localScoreOf query) s podcasts
              else [])) /\
  ((truthy (trim query) = false /\ out' = podcasts) \/
   (truthy (trim query) = true /\
    Forall (fun p => exists s, relevanceScore p = Some s /\ 0 < s) out' /\
    StronglySorted desc out' /\
    Permutation out' (positive (pageScoreOf query) podcasts) /\
    (forall s, filter (has_score s) out' =
               if 0 <? s then of_score (pageScoreOf query) s podcasts
               else []))).
Proof.
  cbv zeta. split.
  - apply (ranking_sorted_stable (localScoreOf query)).
  - unfold semanticSearch. destruct (truthy (trim query)); simpl.
    + right. split; [reflexivity|].
      apply (ranking_sorted_stable (pageScoreOf query)).
    + left. auto.
Qed.

Lemma searchTerms_join (q t : jsstring) :
  toLowerCase (q ++ space :: t) = toLowerCase q ++ space :: toLowerCase t ->
  searchTerms (q ++ space :: t) = searchTerms q ++ searchTerms t.
Proof.
  intros H. unfold searchTerms. cbv zeta.
  now rewrite H, split_space_app, filter_app.
Qed.

(** Adding terms to the list of search terms never lowers a score. *)
Lemma localScore_terms_monotone (ts ts' : list jsstring) (content : jsstring) :
  localScore ts content <= localScore (ts ++ ts') content.
Proof.
  rewrite !localScore_sum, score_sum_app.
  pose proof (score_sum_nonneg concept_hit localSemanticSearch_semanticMap
                ts' content). lia.
Qed.

(** C8: the score of a document under the query [q + " " + t] is at least
    its score under [q], whenever lowercasing the joined query lowercases
    its two parts. *)
Theorem lexical_score_monotone (q t : jsstring) (d : Podcast) :
  toLowerCase (q ++ space :: t) = toLowerCase q ++ space :: toLowerCase t ->
  localScore (searchTerms q) (searchContent d) <=
  localScore (searchTerms (q ++ space :: t)) (searchContent d).
Proof.
  intros H. rewrite (searchTerms_join q t H).
  apply localScore_terms_monotone.
Qed.

(** *** Ranking of remote matches *)

Lemma str_eqb_eq (a b : jsstring) : str_eqb a b = true <-> a = b.
Proof.
  revert b; induction a as [|x a IH]; intros [|y b]; simpl;
    try (split; [discriminate | discriminate]); try tauto.
  rewrite andb_true_iff, Z.eqb_eq, IH. split.
  - now intros [-> ->].
  - intros H. injection H as -> ->. auto.
Qed.

Lemma Forall_firstn_of {A} (P : A -> Prop) (n : nat) (l : list A) :
  Forall P l -> Forall P (firstn n l).
Proof.
  intros H. revert n; induction H as [|x l Hx Hl IH]; intros [|n]; simpl;
    constructor; auto.
Qed.

Lemma non_null_In (l : list (option Podcast)) (p : Podcast) :
  In p (non_null l) <-> In (Some p) l.
Proof.
  induction l as [|[q|] l IH]; simpl.
  - tauto.
  - rewrite IH. split; intros [H|H]; auto; left; congruence.
  - rewrite IH. split; [auto | intros [H|H]; [discriminate | assumption]].
Qed.

Lemma non_null_length (l : list (option Podcast)) :
  (List.length (non_null l) <= List.length l)%nat.
Proof. induction l as [|[q|] l IH]; simpl; lia. Qed.

Lemma to_scored_some (podcasts : list Podcast) (m : Match) (p : Podcast) :
  to_scored podcasts m = Some p ->
  exists d, In d podcasts /\ parseInt (match_id m) = Some (id d) /\
            p = with_score d (percentage (match_score m)).
Proof.
  unfold to_scored, JS.find.
  destruct (List.find _ podcasts) as [d|] eqn:F; [|discriminate].
  intros H. injection H as <-. apply find_some in F as [Hd Hid].
  exists d. destruct (parseInt (match_id m)) as [n|]; [|discriminate].
  apply Z.eqb_eq in Hid. subst n. auto.
Qed.

Lemma rank_matches_In (matches : list Match) (podcasts : list Podcast)
    (p : Podcast) :
  In p (rank_matches matches podcasts) ->
  exists m d, In m matches /\ In d podcasts /\
    parseInt (match_id m) = Some (id d) /\
    p = with_score d (percentage (match_score m)) /\
    20 < percentage (match_score m).
Proof.
  unfold rank_matches. rewrite sort_In, non_null_In, filter_In, in_map_iff.
  intros [[m [Hm Hin]] Hp]. apply to_scored_some in Hm as [d [Hd [Hid ->]]].
  exists m, d. repeat split; auto.
  simpl in Hp. unfold score_above in Hp. simpl in Hp.
  apply andb_true_iff in Hp as [_ Hp]. now apply Z.ltb_lt.
Qed.

Lemma rank_matches_length (matches : list Match) (podcasts : list Podcast) :
  (List.length (rank_matches matches podcasts) <= List.length matches)%nat.
Proof.
  unfold rank_matches. rewrite sort_length.
  etransitivity; [apply non_null_length|].
  etransitivity; [apply filter_length_le|]. now rewrite length_map.
Qed.

Lemma percentage_le_100 (s : Q) : (s <= 1)%Q -> percentage s <= 100.
Proof.
  intros H. unfold percentage, Math_round.
  apply Z.le_trans with (Qfloor (201 # 2)); [|vm_compute; discriminate].
  apply Qfloor_resp_le.
  destruct s as [n d]. unfold Qle, Qplus, Qmult in *. cbn [Qnum Qden] in *. lia.
Qed.

Lemma localSemanticSearch_In (query : jsstring) (podcasts : list Podcast)
    (p : Podcast) :
  In p (localSemanticSearch query podcasts) ->
  exists d s, In d podcasts /\ p = with_score d s.
Proof.
  unfold localSemanticSearch. rewrite sort_In, filter_In, in_map_iff.
  intros [[d [<- Hd]] _]. eauto.
Qed.

Lemma localSemanticSearch_length (query : jsstring) (podcasts : list Podcast) :
  List.length (localSemanticSearch query podcasts) =
  List.length (filter (fun d => 0 <? localScoreOf query d) podcasts).
Proof.
  unfold localSemanticSearch, localScoreOf. rewrite sort_length.
  induction podcasts as [|d ps IH]; simpl; [reflexivity|].
  unfold score_above at 1. simpl.
  destruct (0 <? localScore _ _) eqn:E.
  - assert ((localScore (searchTerms query) (searchContent d) =? 0) = false)
      as -> by (apply Z.eqb_neq; apply Z.ltb_lt in E; lia).
    simpl. now rewrite IH.
  - rewrite andb_false_r. exact IH.
Qed.

(** *** The fallback chain *)

Section Chain.

Variable fetch : Endpoint -> SearchRequest -> option Response.

Lemma remote_search_chain (query : jsstring) (podcasts : list Podcast) :
  try_catch (remote_search fetch query podcasts)
    (fun error => ret (localSemanticSearch query podcasts)) =
  let '(calls, (_, result)) := fallback_chain fetch query podcasts in
  (calls, Ok result).
Proof.
  unfold remote_search, fallback_chain, attempt, call_fetch, bind, try_catch,
    response_matches, ret, throw.
  destruct (fetch search_pinecone (search_request query)) as [r1|];
    [|reflexivity].
  destruct (ok r1) eqn:O1; simpl.
  - rewrite O1. simpl. destruct (body r1); reflexivity.
  - destruct (status r1 =? 429); simpl.
    + destruct (fetch search_fallback (search_request query)) as [r2|];
        [|reflexivity].
      destruct (ok r2) eqn:O2; simpl.
      * destruct (body r2); reflexivity.
      * destruct (status r2 =? 429); reflexivity.
    + rewrite O1. reflexivity.
Qed.

Lemma semanticSearchWithPinecone_chain (query : jsstring)
    (podcasts : list Podcast) :
  truthy (trim query) = true ->
  semanticSearchWithPinecone fetch query podcasts =
  let '(calls, (_, result)) := fallback_chain fetch query podcasts in
  (calls, Ok result).
Proof.
  intros H. unfold semanticSearchWithPinecone. rewrite H. simpl.
  apply remote_search_chain.
Qed.

Lemma fallback_chain_calls (query : jsstring) (podcasts : list Podcast) :
  fst (fallback_chain fetch query podcasts) <> [].
Proof.
  unfold fallback_chain.
  destruct (attempt fetch search_pinecone query); simpl; try discriminate.
  destruct (attempt fetch search_fallback query); discriminate.
Qed.

(** [performSearch] either runs the chain on the candidates or shows the
    local result without any call. *)
Lemma performSearch_eq (st : SearchState) :
  performSearch fetch st =
  if remote_eligible st
  then let '(calls, (_, result)) :=
         fallback_chain fetch (searchQuery st) (candidates (selectedCategory st))
       in (calls, Ok result)
  else ([], Ok (local_result st)).
Proof.
  unfold performSearch, remote_eligible, local_result, candidates.
  rewrite truthy_trim.
  destruct st as [q c typing api]; simpl.
  destruct (only_whitespace q) eqn:W; simpl.
  - rewrite !andb_false_r.
    destruct (truthy c) eqn:C; simpl; [|reflexivity].
    destruct ((len q <? 2) || typing); reflexivity.
  - rewrite andb_true_r.
    destruct (len q <? 2) eqn:L; simpl.
    + assert ((2 <=? len q) = false) as ->
        by (apply Z.leb_gt; now apply Z.ltb_lt).
      now rewrite andb_false_r.
    + assert ((2 <=? len q) = true) as ->
        by (apply Z.leb_le; now apply Z.ltb_ge).
      rewrite andb_true_r.
      destruct typing; simpl; [reflexivity|].
      destruct api; simpl; [|reflexivity].
      rewrite semanticSearchWithPinecone_chain
        by (now rewrite truthy_trim, W).
      destruct (fallback_chain fetch q _) as [calls [s result]]. reflexivity.
Qed.

Lemma performSearch_total (st : SearchState) :
  exists calls result, performSearch fetch st = (calls, Ok result).
Proof.
  rewrite performSearch_eq. destruct (remote_eligible st); [|eauto].
  destruct (fallback_chain fetch _ _) as [calls [s result]]. eauto.
Qed.

Lemma fallback_chain_result (query : jsstring) (podcasts : list Podcast)
    (p : Podcast) :
  In p (snd (snd (fallback_chain fetch query podcasts))) ->
  exists d s, In d podcasts /\ p = with_score d s.
Proof.
  assert (R : forall ms, In p (rank_matches ms podcasts) ->
                         exists d s, In d podcasts /\ p = with_score d s).
  { intros ms H. apply rank_matches_In in H as [m [d [_ [Hd [_ [-> _]]]]]].
    eauto. }
  unfold fallback_chain.
  destruct (attempt fetch search_pinecone query); simpl; eauto.
  - destruct (attempt fetch search_fallback query); simpl; eauto;
      apply localSemanticSearch_In.
  - apply localSemanticSearch_In.
Qed.

End Chain.

(** *** Claims on the orchestrator *)

Lemma candidates_category (c : jsstring) (d : Podcast) :
  truthy c = true -> In d (candidates c) -> category d = c.
Proof.
  unfold candidates. intros -> H. apply filter_In in H as [_ H].
  now apply str_eqb_eq.
Qed.

Lemma remote_search_ok fetch (query : jsstring) (podcasts : list Podcast)
    (calls : list Call) (result : list Podcast) :
  remote_search fetch query podcasts = (calls, Ok result) ->
  exists endpoint response matches,
    fetch endpoint (search_request query) = Some response /\
    body response = SearchBody matches /\
    result = rank_matches matches podcasts /\
    Forall (fun c => snd c = search_request query) calls.
Proof.
  unfold remote_search, call_fetch, bind, response_matches, ret, throw.
  destruct (fetch search_pinecone (search_request query)) as [r1|] eqn:F1;
    [|discriminate].
  destruct (ok r1) eqn:O1; simpl.
  - rewrite O1. simpl. destruct (body r1) as [e|ms|] eqn:B1; try discriminate.
    intros H. injection H as <- <-.
    exists search_pinecone, r1, ms. repeat split; auto.
  - destruct (status r1 =? 429); simpl.
    + destruct (fetch search_fallback (search_request query)) as [r2|] eqn:F2;
        [|discriminate].
      destruct (ok r2) eqn:O2; simpl; [|discriminate].
      destruct (body r2) as [e|ms|] eqn:B2; try discriminate.
      intros H. injection H as <- <-.
      exists search_fallback, r2, ms. repeat split; auto.
    + rewrite O1. discriminate.
Qed.

(** C2: in a settled, eligible state the search runs the fallback chain in
    order: the main route first; the fallback route only when the main one
    answers 429; the lexical scorer after any other failure of the first
    attempt or any failure of the second.  In every state the search ends
    with a list and never with an exception. *)
Theorem fallback_chain_in_order fetch (st : SearchState)
    (podcasts : list Podcast) :
  remote_eligible st = true ->
  semanticSearchWithPinecone fetch (searchQuery st) podcasts =
    (let '(calls, (_, result)) :=
       fallback_chain fetch (searchQuery st) podcasts in
     (calls, Ok result)) /\
  performSearch fetch st =
    (let '(calls, (_, result)) :=
       fallback_chain fetch (searchQuery st) (candidates (selectedCategory st))
     in (calls, Ok result)) /\
  (forall st', exists calls result,
     performSearch fetch st' = (calls, Ok result)).
Proof.
  intros E. split; [|split].
  - apply semanticSearchWithPinecone_chain. rewrite truthy_trim.
    unfold remote_eligible in E. now apply andb_true_iff in E as [_ ->].
  - now rewrite performSearch_eq, E.
  - apply performSearch_total.
Qed.

(** C3: with a query that is empty or only white space and no category
    selected, the search shows the corpus itself, in its order, and calls no
    remote service. *)
Theorem blank_query_passthrough fetch (st : SearchState) :
  only_whitespace (searchQuery st) = true ->
  selectedCategory st = [] ->
  performSearch fetch st = ([], Ok podcastData).
Proof.
  intros W C. rewrite performSearch_eq.
  unfold remote_eligible, local_result, candidates.
  now rewrite truthy_trim, W, C, andb_false_r.
Qed.

(** C4: with a category selected, the search ends with a list, and every
    document of that list has the selected category, whichever strategy
    produced it: it is one of the candidates filtered by category before any
    scoring, as it is or with a score attached. *)
Theorem category_filter_respected fetch (st : SearchState) :
  truthy (selectedCategory st) = true ->
  exists calls result,
    performSearch fetch st = (calls, Ok result) /\
    Forall (fun p =>
              category p = selectedCategory st /\
              exists d, In d (candidates (selectedCategory st)) /\
                        category d = selectedCategory st /\
                        (p = d \/ exists s, p = with_score d s)) result.
Proof.
  intros C. rewrite performSearch_eq.
  assert (K : forall p d s, In d (candidates (selectedCategory st)) ->
                            p = with_score d s ->
              category p = selectedCategory st /\
              exists d, In d (candidates (selectedCategory st)) /\
                        category d = selectedCategory st /\
                        (p = d \/ exists s, p = with_score d s)).
  { intros p d s Hd ->.
    pose proof (candidates_category _ _ C Hd) as E.
    split; [exact E|]. exists d. eauto. }
  destruct (remote_eligible st).
  - pose proof (fallback_chain_result fetch (searchQuery st)
                  (candidates (selectedCategory st))) as R.
    destruct (fallback_chain fetch _ _) as [calls [s result]].
    exists calls, result. split; [reflexivity|].
    apply Forall_forall. intros p Hp.
    destruct (R p Hp) as [d [s' [Hd Hs]]]. eauto.
  - exists [], (local_result st). split; [reflexivity|].
    apply Forall_forall. intros p Hp. unfold local_result in Hp.
    destruct (truthy (trim (searchQuery st))).
    + apply localSemanticSearch_In in Hp as [d [s [Hd Hs]]]. eauto.
    + pose proof (candidates_category _ _ C Hp) as E.
      split; [exact E|]. exists p. auto.
Qed.

Lemma remote_eligible_after_input (v : jsstring) (st : SearchState) :
  remote_eligible (typingTimer (handleSearchInput v st)) = true <->
  2 <= len v /\ only_whitespace v = false /\ endsWith_space v = false.
Proof.
  unfold remote_eligible, typingTimer, handleSearchInput. simpl.
  rewrite !andb_true_iff, !negb_true_iff, Z.leb_le. tauto.
Qed.

(** C9, as the code has it, for one run of [performSearch] and the state
    [st] that the run captured when the search timer fired: the run reaches
    the remote chain exactly when that state is not typing, has the API flag
    set, and holds a query of at least 2 code units that is not only white
    space; for every other captured state the run makes no remote call and
    shows the local result.  A run that captured the state left by a
    keystroke makes no call, and a run that captured the state left by the
    typing timer after that keystroke reaches the chain exactly when the
    typed value has at least 2 code units, is not only white space and does
    not end with a space.  The statement is about the state a run captured;
    what the page state has become by the time the run issues its calls is
    not part of it. *)
Theorem remote_chain_selection fetch (st : SearchState) (v : jsstring) :
  (fst (performSearch fetch st) <> [] <-> remote_eligible st = true) /\
  performSearch fetch st =
    (if remote_eligible st
     then let '(calls, (_, result)) :=
            fallback_chain fetch (searchQuery st)
              (candidates (selectedCategory st)) in
          (calls, Ok result)
     else ([], Ok (local_result st))) /\
  fst (performSearch fetch (handleSearchInput v st)) = [] /\
  (fst (performSearch fetch (typingTimer (handleSearchInput v st))) <> [] <->
   2 <= len v /\ only_whitespace v = false /\ endsWith_space v = false).
Proof.
  assert (A : forall s, fst (performSearch fetch s) <> [] <->
                        remote_eligible s = true).
  { intros s. rewrite performSearch_eq. destruct (remote_eligible s).
    - pose proof (fallback_chain_calls fetch (searchQuery s)
                    (candidates (selectedCategory s))) as N.
      destruct (fallback_chain fetch _ _) as [calls [x result]].
      simpl in *. tauto.
    - simpl. split; [congruence | discriminate]. }
  split; [apply A|]. split; [apply performSearch_eq|]. split.
  - rewrite performSearch_eq. reflexivity.
  - rewrite A. apply remote_eligible_after_input.
Qed.

(** Every branch of [error_response] answers with an error body. *)
Ltac error_body :=
  unfold error_response;
  repeat match goal with
         | |- context [if ?b then _ else _] => destruct b
         end;
  discriminate.

Lemma served_honours_topK (svc : Services) :
  (forall vector k md ms,
     index_query svc vector k md = inl (Some ms) ->
     (List.length ms <= Z.to_nat k)%nat) ->
  honours_topK (served svc).
Proof.
  intros I [|] request response matches H B; simpl in H;
    injection H as <-; revert B.
  - unfold POST_search_pinecone.
    destruct (missing_query _); [discriminate|].
    destruct (negb _); [discriminate|].
    destruct (embeddings_create _ _) as [e|msg].
    + destruct (index_query svc e _ _) as [[ms|]|msg] eqn:Q; simpl.
      * intros B. injection B as <-. rewrite length_map. eapply I, Q.
      * intros B. injection B as <-. simpl. lia.
      * error_body.
    + error_body.
  - unfold POST_search_fallback.
    destruct (missing_query _); [discriminate|].
    destruct (index_query svc _ _ _) as [[ms|]|msg] eqn:Q; simpl.
    + intros B. injection B as <-. rewrite length_map. eapply I, Q.
    + intros B. injection B as <-. simpl. lia.
    + discriminate.
Qed.

Lemma served_unit_scores (svc : Services) :
  (forall vector k md ms,
     index_query svc vector k md = inl (Some ms) ->
     Forall (fun m => (0 <= score_or_zero (index_score m) /\
                       score_or_zero (index_score m) <= 1)%Q) ms) ->
  forall endpoint request response matches,
    served svc endpoint request = Some response ->
    body response = SearchBody matches -> Forall unit_score matches.
Proof.
  intros I [|] request response matches H B; simpl in H;
    injection H as <-; revert B.
  - unfold POST_search_pinecone.
    destruct (missing_query _); [discriminate|].
    destruct (negb _); [discriminate|].
    destruct (embeddings_create _ _) as [e|msg].
    + destruct (index_query svc e _ _) as [[ms|]|msg] eqn:Q; simpl.
      * intros B. injection B as <-. apply Forall_map.
        eapply Forall_impl; [|exact (I _ _ _ _ Q)].
        intros m Hm. exact Hm.
      * intros B. injection B as <-. constructor.
      * error_body.
    + error_body.
  - unfold POST_search_fallback.
    destruct (missing_query _); [discriminate|].
    destruct (index_query svc _ _ _) as [[ms|]|msg] eqn:Q; simpl.
    + intros B. injection B as <-. apply Forall_map.
      eapply Forall_impl; [|exact (I _ _ _ _ Q)].
      intros m [Lo Hi]. unfold unit_score. simpl.
      destruct (score_or_zero (index_score m)) as [n d].
      unfold Qle, Qmult in *. cbn [Qnum Qden] in *. lia.
    + intros B. injection B as <-. constructor.
    + discriminate.
Qed.

(** The fallback route asks the index with the local embedding of the
    query and with nothing else. *)
Lemma fallback_route_embeds_locally (svc : Services) (request : SearchRequest) :
  missing_query (query request) = false ->
  POST_search_fallback svc request =
  match index_query svc (createLocalEmbedding (query request) 1536)
          (default 10 (topK request)) (default true (includeMetadata request))
  with
  | inr _ => {| status := 500; body := ErrorBody (lit "Fallback search failed") |}
  | inl searchResponse =>
    {| status := 200;
       body := SearchBody
         (map (fun m => {| match_id := index_id m;
                           match_score :=
                             (score_or_zero (index_score m) * (8 # 10))%Q |})
              (default [] searchResponse)) |}
  end.
Proof.
  intros H. unfold POST_search_fallback. rewrite H.
  destruct (index_query svc _ _ _) as [[ms|]|msg]; reflexivity.
Qed.

(** The main route answers 429 when the embedding service fails with a
    quota or rate-limit message. *)
Lemma main_route_quota (svc : Services) (request : SearchRequest)
    (message : jsstring) :
  missing_query (query request) = false ->
  OPENAI_API_KEY svc = true ->
  embeddings_create svc (query request) = inr message ->
  includes message (lit "quota") || includes message (lit "429") = true ->
  status (POST_search_pinecone svc request) = 429.
Proof.
  intros Q K E M. unfold POST_search_pinecone, error_response.
  now rewrite Q, K, E, M.
Qed.

(** C10: when a remote strategy answers and the routes return no more
    matches than the [topK] they are asked for, the result holds at most 10
    documents, every request having been sent with [topK] 10; the lexical
    scorer returns as many documents as score above zero. *)
Theorem remote_results_capped fetch (query : jsstring)
    (podcasts : list Podcast) (calls : list Call) (result : list Podcast) :
  honours_topK fetch ->
  remote_search fetch query podcasts = (calls, Ok result) ->
  (List.length result <= 10)%nat /\
  Forall (fun c => topK (snd c) = Some 10) calls /\
  (forall q ps,
     List.length (localSemanticSearch q ps) =
     List.length (filter (fun d => 0 <? localScoreOf q d) ps)).
Proof.
  intros T H. apply remote_search_ok in H as [ep [r [ms [F [B [-> C]]]]]].
  split; [|split].
  - etransitivity; [apply rank_matches_length|]. apply (T _ _ _ _ F B).
  - eapply Forall_impl; [|exact C]. intros c ->. reflexivity.
  - apply localSemanticSearch_length.
Qed.

(** *** The local embedding *)

Section Embedding.

Local Open Scope R_scope.

Lemma add_at_length (pos : nat) (w : R) (l : list R) :
  List.length (add_at pos w l) = List.length l.
Proof.
  revert pos; induction l as [|x l IH]; intros [|n]; simpl; auto.
Qed.

Lemma addWord_length (dimension : Z) (l : list R) (word : jsstring) :
  List.length (addWord dimension l word) = List.length l.
Proof. unfold addWord. now rewrite !add_at_length. Qed.

Lemma addFeature_length (dimension : Z) (text : jsstring) (l : list R)
    (feature : jsstring * list Z) :
  List.length (addFeature dimension text l feature) = List.length l.
Proof.
  destruct feature as [keyword positions]. unfold addFeature.
  destruct (includes text keyword); [|reflexivity].
  revert l; induction positions as [|p ps IH]; intros l; simpl; [reflexivity|].
  rewrite IH. destruct (p <? dimension)%Z; [apply add_at_length | reflexivity].
Qed.

Lemma fold_left_length {A} (f : list R -> A -> list R) (xs : list A) :
  (forall l x, List.length (f l x) = List.length l) ->
  forall l, List.length (fold_left f xs l) = List.length l.
Proof.
  intros F. induction xs as [|x xs IH]; intros l; simpl; [reflexivity|].
  now rewrite IH, F.
Qed.

Lemma accumulate_length (text : jsstring) (dimension : Z) :
  List.length (accumulate text dimension) = Z.to_nat dimension.
Proof.
  unfold accumulate.
  rewrite (fold_left_length _ _ (addFeature_length _ _)).
  rewrite (fold_left_length _ _ (addWord_length _)).
  apply repeat_length.
Qed.

Lemma sumsq_acc (l : list R) (a : R) :
  fold_left (fun sum val => sum + val * val) l a = a + sumsq l.
Proof.
  unfold sumsq. revert a; induction l as [|x l IH]; intros a; simpl.
  - lra.
  - rewrite (IH (a + x * x)), (IH (0 + x * x)). lra.
Qed.

Lemma sumsq_cons (x : R) (l : list R) : sumsq (x :: l) = x * x + sumsq l.
Proof. unfold sumsq at 1. simpl. rewrite sumsq_acc. lra. Qed.

Lemma sumsq_nonneg (l : list R) : 0 <= sumsq l.
Proof.
  induction l as [|x l IH]; [unfold sumsq; simpl; lra|].
  rewrite sumsq_cons. pose proof (Rle_0_sqr x) as S. unfold Rsqr in S. lra.
Qed.

Lemma sumsq_scaled (m : R) (l : list R) :
  m <> 0 -> sumsq (map (fun x => x / m) l) = sumsq l / (m * m).
Proof.
  intros M. induction l as [|x l IH]; simpl.
  - unfold sumsq. simpl. field. exact M.
  - rewrite !sumsq_cons, IH. field. exact M.
Qed.

Lemma sumsq_zero (l : list R) : sumsq l = 0 -> l = zeros (List.length l).
Proof.
  induction l as [|x l IH]; [reflexivity|].
  rewrite sumsq_cons. intros H.
  pose proof (sumsq_nonneg l) as N.
  pose proof (Rle_0_sqr x) as S. unfold Rsqr in S.
  assert (X : x * x = 0) by lra.
  assert (L : sumsq l = 0) by lra.
  apply Rmult_integral in X. unfold zeros in *. simpl.
  f_equal; [destruct X; assumption | exact (IH L)].
Qed.

Lemma magnitude_sumsq (l : list R) : magnitude l = sqrt (sumsq l).
Proof. reflexivity. Qed.

Lemma magnitude_nonneg (l : list R) : 0 <= magnitude l.
Proof. apply sqrt_pos. Qed.

Lemma normalised_magnitude (l : list R) :
  0 < magnitude l -> magnitude (map (fun x => x / magnitude l) l) = 1.
Proof.
  intros P. rewrite (magnitude_sumsq (map _ l)), sumsq_scaled by lra.
  rewrite magnitude_sumsq at 1 2. rewrite sqrt_sqrt by apply sumsq_nonneg.
  assert (Z : sumsq l <> 0).
  { intros Z. rewrite magnitude_sumsq, Z, sqrt_0 in P. lra. }
  replace (sumsq l / sumsq l) with 1 by (field; exact Z).
  apply sqrt_1.
Qed.

Lemma add_at_nonneg (pos : nat) (w : R) (l : list R) :
  0 <= w -> Forall (Rle 0) l -> Forall (Rle 0) (add_at pos w l).
Proof.
  intros W H. revert pos; induction H as [|x l Hx Hl IH]; intros [|n]; simpl;
    constructor; auto. lra.
Qed.

Lemma add_at_total_ge (pos : nat) (w : R) (l : list R) :
  0 <= w -> total l <= total (add_at pos w l).
Proof.
  intros W. revert pos; induction l as [|x l IH]; intros [|n]; simpl;
    try lra. specialize (IH n). lra.
Qed.

Lemma add_at_total (pos : nat) (w : R) (l : list R) :
  (pos < List.length l)%nat -> total (add_at pos w l) = total l + w.
Proof.
  revert pos; induction l as [|x l IH]; intros [|n] H; simpl in *;
    try lia; try lra. rewrite IH by lia. lra.
Qed.

Lemma wordWeight_pos (word : jsstring) : word <> [] -> 0 < wordWeight word.
Proof.
  intros N. unfold wordWeight.
  assert (L : (2 <= len word + 1)%Z).
  { unfold len. destruct word; [contradiction|]. simpl List.length. lia. }
  apply IZR_le in L.
  assert (0 < ln (IZR (len word + 1))).
  { rewrite <- ln_1. apply ln_increasing; lra. }
  apply Rmin_glb_lt; lra.
Qed.

Lemma wordWeight_nonneg (word : jsstring) : 0 <= wordWeight word.
Proof.
  destruct word as [|c word].
  - unfold wordWeight, len. simpl. rewrite ln_1. apply Rmin_glb; lra.
  - apply Rlt_le, wordWeight_pos. discriminate.
Qed.

Lemma addWord_nonneg (dimension : Z) (l : list R) (word : jsstring) :
  Forall (Rle 0) l -> Forall (Rle 0) (addWord dimension l word).
Proof.
  intros H. pose proof (wordWeight_nonneg word) as W. unfold addWord.
  repeat apply add_at_nonneg; auto; lra.
Qed.

Lemma addWord_total_ge (dimension : Z) (l : list R) (word : jsstring) :
  total l <= total (addWord dimension l word).
Proof.
  pose proof (wordWeight_nonneg word) as W. unfold addWord.
  etransitivity; [|apply add_at_total_ge; lra].
  etransitivity; [|apply add_at_total_ge; lra].
  apply add_at_total_ge; lra.
Qed.

Lemma addWord_total (dimension : Z) (l : list R) (word : jsstring) :
  (0 < dimension)%Z -> List.length l = Z.to_nat dimension ->
  total l + wordWeight word <= total (addWord dimension l word).
Proof.
  intros D L. pose proof (wordWeight_nonneg word) as W. unfold addWord.
  etransitivity; [|apply add_at_total_ge; lra].
  etransitivity; [|apply add_at_total_ge; lra].
  rewrite add_at_total; [lra|].
  rewrite L. apply Z2Nat.inj_lt; try lia; apply Z.mod_pos_bound; lia.
Qed.

Lemma addFeature_nonneg (dimension : Z) (text : jsstring) (l : list R)
    (feature : jsstring * list Z) :
  Forall (Rle 0) l -> Forall (Rle 0) (addFeature dimension text l feature).
Proof.
  destruct feature as [keyword positions]. unfold addFeature.
  destruct (includes text keyword); [|auto].
  revert l; induction positions as [|p ps IH]; intros l H; simpl; [auto|].
  apply IH. destruct (p <? dimension)%Z; [|auto].
  apply add_at_nonneg; [lra | auto].
Qed.

Lemma addFeature_total_ge (dimension : Z) (text : jsstring) (l : list R)
    (feature : jsstring * list Z) :
  total l <= total (addFeature dimension text l feature).
Proof.
  destruct feature as [keyword positions]. unfold addFeature.
  destruct (includes text keyword); [|lra].
  revert l; induction positions as [|p ps IH]; intros l; simpl; [lra|].
  etransitivity; [|apply IH]. destruct (p <? dimension)%Z; [|lra].
  apply add_at_total_ge; lra.
Qed.

Lemma fold_left_invariant {A} (P : list R -> Prop)
    (f : list R -> A -> list R) (xs : list A) :
  (forall l x, P l -> P (f l x)) -> forall l, P l -> P (fold_left f xs l).
Proof.
  intros F. induction xs as [|x xs IH]; intros l H; simpl; auto.
Qed.

Lemma fold_left_total_ge {A} (f : list R -> A -> list R) (xs : list A) :
  (forall l x, total l <= total (f l x)) ->
  forall l, total l <= total (fold_left f xs l).
Proof.
  intros F. induction xs as [|x xs IH]; intros l; simpl; [lra|].
  etransitivity; [apply (F l x) | apply IH].
Qed.

Lemma zeros_nonneg (n : nat) : Forall (Rle 0) (zeros n).
Proof. induction n; simpl; constructor; [lra | assumption]. Qed.

Lemma zeros_total (n : nat) : total (zeros n) = 0.
Proof. unfold total, zeros. induction n; simpl; lra. Qed.

Lemma sumsq_zeros (n : nat) : sumsq (zeros n) = 0.
Proof.
  induction n; [reflexivity|]. unfold zeros in *. simpl repeat.
  rewrite sumsq_cons, IHn. lra.
Qed.

Lemma sumsq_pos (l : list R) :
  Forall (Rle 0) l -> 0 < total l -> 0 < sumsq l.
Proof.
  induction 1 as [|x l Hx Hl IH]; simpl; [lra|].
  intros T. rewrite sumsq_cons. pose proof (sumsq_nonneg l) as N.
  destruct (Rle_lt_or_eq_dec 0 x Hx) as [P|<-].
  - pose proof (Rmult_lt_0_compat x x P P). lra.
  - assert (0 < sumsq l) by (apply IH; lra). lra.
Qed.

Lemma wordsOf_nil (s : jsstring) :
  wordsOf s = [] -> Forall (fun c => c = space) s.
Proof.
  unfold wordsOf. induction s as [|c s IH]; simpl; [constructor|].
  destruct (c =? space)%Z eqn:E.
  - simpl. intros H. constructor; [now apply Z.eqb_eq | auto].
  - destruct (split_space s); simpl; discriminate.
Qed.

Lemma includes_spaces (s keyword rest : jsstring) (c : code_unit) :
  Forall (fun c => c = space) s -> keyword = c :: rest -> c <> space ->
  includes s keyword = false.
Proof.
  intros S -> N. destruct (includes s (c :: rest)) eqn:I; [|reflexivity].
  apply includes_spec in I as [pre [post E]].
  rewrite Forall_forall in S. exfalso. apply N, S. rewrite E.
  apply in_or_app. right. now left.
Qed.

Lemma no_feature_in_spaces (s : jsstring) :
  Forall (fun c => c = space) s ->
  Forall (fun feature => includes s (fst feature) = false) semanticFeatures.
Proof.
  intros S. unfold semanticFeatures.
  repeat constructor; simpl fst;
    eapply (includes_spaces s); try exact S; try reflexivity; discriminate.
Qed.

Lemma fold_addFeature_none (dimension : Z) (text : jsstring)
    (features : list (jsstring * list Z)) (l : list R) :
  Forall (fun feature => includes text (fst feature) = false) features ->
  fold_left (addFeature dimension text) features l = l.
Proof.
  induction 1 as [|[keyword positions] fs Hf Hfs IH]; simpl; [reflexivity|].
  simpl in Hf. rewrite Hf. exact IH.
Qed.

(** The accumulated vector has norm zero exactly when the normalised text
    holds no word. *)
Lemma accumulate_zero_iff (text : jsstring) :
  magnitude (accumulate text 1536) = 0 <->
  wordsOf (normalizeText text) = [].
Proof.
  unfold accumulate. cbv zeta. fold (zeros (Z.to_nat 1536)). split.
  - intros M. destruct (wordsOf (normalizeText text)) as [|w ws] eqn:W;
      [reflexivity|]. exfalso.
    assert (Nw : w <> []).
    { assert (I : In w (wordsOf (normalizeText text)))
        by (rewrite W; now left).
      apply filter_In in I as [_ I]. intros ->. discriminate. }
    revert M. generalize semanticFeatures as features. intros features M.
    change (fold_left (addWord 1536) (w :: ws) (zeros (Z.to_nat 1536)))
      with (fold_left (addWord 1536) ws
              (addWord 1536 (zeros (Z.to_nat 1536)) w)) in M.
    set (start := addWord 1536 (zeros (Z.to_nat 1536)) w) in M.
    assert (S1 : Forall (Rle 0) start)
      by (apply addWord_nonneg, zeros_nonneg).
    assert (S2 : 0 < total start).
    { pose proof (addWord_total 1536 (zeros (Z.to_nat 1536)) w) as T.
      rewrite zeros_total in T. pose proof (wordWeight_pos w Nw).
      unfold start. apply Rlt_le_trans with (0 + wordWeight w); [lra|].
      apply T; [lia | apply repeat_length]. }
    set (words := fold_left (addWord 1536) ws start) in M.
    assert (W1 : Forall (Rle 0) words).
    { apply fold_left_invariant; [apply addWord_nonneg | exact S1]. }
    assert (W2 : total start <= total words).
    { apply fold_left_total_ge. apply addWord_total_ge. }
    set (final := fold_left _ features words) in M.
    assert (F1 : Forall (Rle 0) final).
    { apply fold_left_invariant; [apply addFeature_nonneg | exact W1]. }
    assert (F2 : total words <= total final).
    { apply fold_left_total_ge. apply addFeature_total_ge. }
    assert (P : 0 < sumsq final) by (apply sumsq_pos; [exact F1 | lra]).
    rewrite magnitude_sumsq in M. apply sqrt_lt_R0 in P. lra.
  - intros W. rewrite W.
    change (fold_left (addWord 1536) [] (zeros (Z.to_nat 1536)))
      with (zeros (Z.to_nat 1536)).
    rewrite fold_addFeature_none
      by (apply no_feature_in_spaces, wordsOf_nil, W).
    rewrite magnitude_sumsq, sumsq_zeros. apply sqrt_0.
Qed.

(** *** The normalisation with rounded arithmetic *)

(** The error of the normalisation when every operation is followed by a
    rounding [rnd] that obeys the standard model.  [u] is the unit
    roundoff; [lo] and [hi] bound the magnitudes on which the model is asked
    to hold, [wlo] and [whi] the accumulated weights.  The sum of the
    squares of [n] components is rounded [n + 1] times in a row, so it lies
    within the factors [(1 - u) ^ (n + 1)] and [(1 + u) ^ (n + 1)] of the
    exact sum; the square root and the divisions add a rounding each. *)
Section RoundingError.

Variable rnd : R -> R.
Hypothesis model : standard_model rnd.

Let u := unit_roundoff.
Let lo := / 10 ^ 300.
Let hi := 10 ^ 300.
Let wlo := / 10 ^ 100.
Let whi := 10 ^ 100.

Lemma roundoff_small : 0 < u /\ 1541 * u <= / 10 ^ 10.
Proof. unfold u, unit_roundoff. split; lra. Qed.

Lemma range_facts :
  0 < wlo /\ wlo <= whi /\ 0 < lo /\
  lo <= wlo * wlo / 2 /\ 2 * (1541 * (whi * whi)) <= hi /\
  lo <= wlo * / (200 * whi) /\ whi * / (wlo / 4) <= hi.
Proof. unfold lo, hi, wlo, whi. repeat split; lra. Qed.

Lemma Rabs_bounds (a b : R) : Rabs a <= b -> - b <= a <= b.
Proof.
  intros H. pose proof (Rle_abs a) as P. pose proof (Rle_abs (- a)) as N.
  rewrite Rabs_Ropp in N. lra.
Qed.

Lemma in_range_pos (x : R) : lo <= x <= hi -> in_range x.
Proof.
  intros [L H]. right. destruct range_facts as [_ [_ [P _]]].
  rewrite Rabs_pos_eq by lra. fold lo hi. lra.
Qed.

Lemma rnd_zero : rnd 0 = 0.
Proof.
  pose proof (model 0 (or_introl eq_refl)) as M.
  rewrite Rabs_R0, Rmult_0_r, Rminus_0_r in M.
  pose proof (Rabs_pos (rnd 0)) as P.
  destruct (Req_dec (rnd 0) 0) as [E|N]; [exact E|].
  apply Rabs_pos_lt in N. lra.
Qed.

Lemma rnd_nonneg (x : R) :
  0 <= x -> in_range x -> (1 - u) * x <= rnd x <= (1 + u) * x.
Proof.
  intros P I. pose proof (model x I) as M. fold u in M.
  rewrite (Rabs_pos_eq x P) in M.
  apply Rabs_bounds in M. lra.
Qed.

Lemma rnd_square (x : R) :
  in_range x ->
  (1 - u) * (1 - u) * (x * x) <= rnd x * rnd x <= (1 + u) * (1 + u) * (x * x).
Proof.
  intros I. destruct roundoff_small as [U0 U1].
  assert (U2 : u <= 1) by lra.
  pose proof (model x I) as M. fold u in M. apply Rabs_bounds in M.
  destruct (Rle_lt_dec 0 x) as [P|N].
  - rewrite (Rabs_pos_eq x P) in M.
    assert (A : 0 <= (1 - u) * x) by nra.
    assert (B : (1 - u) * x <= rnd x) by lra.
    assert (C : rnd x <= (1 + u) * x) by lra.
    split; nra.
  - rewrite (Rabs_left x N) in M.
    assert (A : 0 <= (1 - u) * (- x)) by nra.
    assert (B : (1 - u) * (- x) <= - rnd x) by lra.
    assert (C : - rnd x <= (1 + u) * (- x)) by lra.
    split; nra.
Qed.

Lemma pow_below (k : nat) : (1 <= k)%nat -> 0 <= (1 - u) ^ k <= 1 - u.
Proof.
  destruct roundoff_small as [U0 U1].
  induction k as [|k IH]; [lia|]. intros _.
  destruct k as [|k].
  - simpl. lra.
  - assert (H : 0 <= (1 - u) ^ S k <= 1 - u) by (apply IH; lia).
    change ((1 - u) ^ S (S k)) with ((1 - u) * (1 - u) ^ S k). nra.
Qed.

Lemma pow_above (k : nat) : (1 <= k)%nat -> 1 + u <= (1 + u) ^ k.
Proof.
  destruct roundoff_small as [U0 U1].
  induction k as [|k IH]; [lia|]. intros _.
  destruct k as [|k].
  - simpl. lra.
  - assert (H : 1 + u <= (1 + u) ^ S k) by (apply IH; lia).
    change ((1 + u) ^ S (S k)) with ((1 + u) * (1 + u) ^ S k). nra.
Qed.

Lemma bernoulli (k : nat) : 1 - INR k * u <= (1 - u) ^ k.
Proof.
  destruct roundoff_small as [U0 U1].
  induction k as [|k IH].
  - simpl. lra.
  - rewrite S_INR. change ((1 - u) ^ S k) with ((1 - u) * (1 - u) ^ k).
    pose proof (pos_INR k) as K.
    assert (P : 0 <= (1 - u) ^ k) by (apply pow_le; lra).
    nra.
Qed.

Lemma pow_product (k : nat) :
  0 < (1 - u) ^ k /\ (1 - u) ^ k * (1 + u) ^ k <= 1.
Proof.
  destruct roundoff_small as [U0 U1].
  split; [apply pow_lt; lra|].
  rewrite <- Rpow_mult_distr.
  replace 1 with (1 ^ k) at 3 by apply pow1.
  apply pow_incr. nra.
Qed.

(** Up to 1541 roundings lose less than half and gain less than double. *)
Lemma pow_half_double (k : nat) :
  (k <= 1541)%nat -> / 2 <= (1 - u) ^ k /\ (1 + u) ^ k <= 2.
Proof.
  intros K. destruct roundoff_small as [U0 U1].
  pose proof (bernoulli k) as B. destruct (pow_product k) as [P Q].
  apply le_INR in K. replace (INR 1541) with 1541 in K by (simpl; lra).
  assert (I : INR k * u <= / 10 ^ 10) by nra.
  assert (D : / 10 ^ 10 <= / 2) by lra.
  split; [lra|].
  assert (G : 0 < (1 + u) ^ k) by (apply pow_lt; lra).
  set (a := (1 - u) ^ k) in *. set (b := (1 + u) ^ k) in *.
  destruct (Rle_lt_dec b 2) as [L|L]; [exact L|]. exfalso.
  assert (a * 2 < a * b) by (apply Rmult_lt_compat_l; lra). lra.
Qed.

Lemma scaled_in_range (a b s A : R) :
  / 2 <= a -> b <= 2 -> (A = 0 \/ wlo * wlo <= A) ->
  A <= 1541 * (whi * whi) -> a * A <= s <= b * A ->
  0 <= s /\ in_range s.
Proof.
  intros Ha Hb [->|L] H [S1 S2].
  - rewrite Rmult_0_r in *. assert (s = 0) by lra. subst s.
    split; [lra | now left].
  - destruct range_facts as [W0 [_ [L0 [L1 [H1 _]]]]].
    assert (P : 0 < A) by nra.
    assert (X1 : / 2 * A <= a * A) by (apply Rmult_le_compat_r; lra).
    assert (X2 : b * A <= 2 * A) by (apply Rmult_le_compat_r; lra).
    split; [lra|]. apply in_range_pos. lra.
Qed.

(** The rounded sum of squares, started from an accumulator [acc] that
    stands for the exact sum [A] after [k - 1] components. *)
Lemma sumsq_rnd_bounds (v : list R) (acc A : R) (k : nat) :
  (1 <= k)%nat -> (k + List.length v <= 1541)%nat ->
  Forall weight_range v ->
  (A = 0 \/ wlo * wlo <= A) -> A <= INR k * (whi * whi) ->
  (1 - u) ^ k * A <= acc <= (1 + u) ^ k * A ->
  (1 - u) ^ (k + List.length v) * (A + sumsq v) <=
    fold_left (fun sum val => rnd (sum + rnd (val * val))) v acc <=
  (1 + u) ^ (k + List.length v) * (A + sumsq v).
Proof.
  destruct roundoff_small as [U0 U1].
  destruct range_facts as [W0 [W1 [L0 [L1 [H1 _]]]]].
  intros K N V. revert acc A k K N.
  induction V as [|x v Hx Hv IH]; intros acc A k K N A0 A1 H.
  - simpl. rewrite Nat.add_0_r. unfold sumsq. simpl. rewrite Rplus_0_r.
    exact H.
  - cbn [fold_left List.length] in *. rewrite sumsq_cons.
    replace (k + S (List.length v))%nat with (S k + List.length v)%nat
      by lia.
    replace (A + (x * x + sumsq v)) with ((A + x * x) + sumsq v) by lra.
    set (y := x * x).
    assert (WW : 0 < wlo * wlo) by (apply Rmult_lt_0_compat; exact W0).
    assert (Y : (y = 0 \/ wlo * wlo <= y) /\ 0 <= y <= whi * whi).
    { unfold y. destruct Hx as [->|[X1 X2]].
      - rewrite Rmult_0_l. split; [now left | nra].
      - change (wlo <= x) in X1. change (x <= whi) in X2.
        split; [right|split].
        + apply Rmult_le_compat; lra.
        + apply Rmult_le_pos; lra.
        + apply Rmult_le_compat; lra. }
    destruct Y as [Y0 [Y1 Y2]].
    assert (A2 : 0 <= A) by (destruct A0; lra).
    assert (RY : (1 - u) * y <= rnd y <= (1 + u) * y).
    { destruct Y0 as [E|L].
      - rewrite E, rnd_zero. lra.
      - apply rnd_nonneg; [exact Y1|]. apply in_range_pos. lra. }
    pose proof (pow_below k K) as [B0 B1].
    pose proof (pow_above k K) as G1.
    assert (KK : (k <= 1541)%nat) by lia.
    destruct (pow_half_double k KK) as [HB HG].
    set (a := (1 - u) ^ k) in *. set (b := (1 + u) ^ k) in *.
    assert (A3 : A + y = 0 \/ wlo * wlo <= A + y).
    { destruct A0 as [->|L]; [|right; lra].
      destruct Y0 as [->|L]; [left; lra | right; lra]. }
    assert (IK : INR (S k) <= 1541).
    { replace 1541 with (INR 1541) by (simpl; lra). apply le_INR. lia. }
    assert (A4 : A + y <= INR (S k) * (whi * whi)).
    { rewrite S_INR. lra. }
    assert (A5 : A + y <= 1541 * (whi * whi)).
    { apply Rle_trans with (INR (S k) * (whi * whi)); [exact A4|].
      apply Rmult_le_compat_r; [nra | exact IK]. }
    assert (S1 : a * (A + y) <= acc + rnd y <= b * (A + y)).
    { assert (a * y <= (1 - u) * y) by (apply Rmult_le_compat_r; lra).
      assert ((1 + u) * y <= b * y) by (apply Rmult_le_compat_r; lra).
      lra. }
    destruct (scaled_in_range a b (acc + rnd y) (A + y) HB HG A3 A5 S1)
      as [SP SI].
    pose proof (rnd_nonneg _ SP SI) as [T1 T2].
    apply IH; [lia | lia | exact A3 | exact A4 |].
    change ((1 - u) ^ S k) with ((1 - u) * a).
    change ((1 + u) ^ S k) with ((1 + u) * b).
    split.
    + apply Rle_trans with ((1 - u) * (acc + rnd y)); [|exact T1].
      rewrite Rmult_assoc. apply Rmult_le_compat_l; lra.
    + apply Rle_trans with ((1 + u) * (acc + rnd y)); [exact T2|].
      rewrite Rmult_assoc. apply Rmult_le_compat_l; lra.
Qed.

Lemma sumsq_map_rnd (m : R) (v : list R) :
  m <> 0 -> Forall (fun x => in_range (x / m)) v ->
  (1 - u) * (1 - u) * sumsq v <=
    sumsq (map (fun x => rnd (x / m)) v) * (m * m) <=
  (1 + u) * (1 + u) * sumsq v.
Proof.
  intros N V. induction V as [|x v Hx Hv IH].
  - unfold sumsq. simpl. lra.
  - cbn [map]. rewrite !sumsq_cons.
    pose proof (rnd_square (x / m) Hx) as [A B].
    assert (E : x / m * (x / m) * (m * m) = x * x) by (field; exact N).
    assert (M : 0 <= m * m) by nra.
    apply (Rmult_le_compat_r _ _ _ M) in A, B.
    replace ((1 - u) * (1 - u) * (x / m * (x / m)) * (m * m))
      with ((1 - u) * (1 - u) * (x * x)) in A by (rewrite <- E; ring).
    replace ((1 + u) * (1 + u) * (x / m * (x / m)) * (m * m))
      with ((1 + u) * (1 + u) * (x * x)) in B by (rewrite <- E; ring).
    lra.
Qed.

Lemma sumsq_range (v : list R) :
  Forall weight_range v ->
  (sumsq v = 0 \/ wlo * wlo <= sumsq v) /\
  sumsq v <= INR (List.length v) * (whi * whi).
Proof.
  destruct range_facts as [W0 [W1 _]].
  induction 1 as [|x v Hx Hv [IH1 IH2]].
  - unfold sumsq. simpl. split; [now left | lra].
  - rewrite sumsq_cons. cbn [List.length]. rewrite S_INR.
    pose proof (sumsq_nonneg v) as P.
    destruct Hx as [->|[X1 X2]].
    + rewrite Rmult_0_l, Rplus_0_l.
      assert (0 <= whi * whi) by (apply Rmult_le_pos; lra).
      split; [exact IH1 | lra].
    + change (wlo <= x) in X1. change (x <= whi) in X2.
      assert (wlo * wlo <= x * x) by (apply Rmult_le_compat; lra).
      assert (x * x <= whi * whi) by (apply Rmult_le_compat; lra).
      split; [right; lra | lra].
Qed.

(** The norm of the normalised vector is within 1e-9 of 1. *)
Lemma normalize_rnd_norm (v : list R) :
  (List.length v <= 1536)%nat -> Forall weight_range v -> 0 < sumsq v ->
  0 < magnitude_rnd rnd v /\
  Rabs (magnitude (normalize_rnd rnd v) - 1) <= / 10 ^ 9.
Proof.
  intros L V P. destruct roundoff_small as [U0 U1].
  destruct range_facts as [W0 [W1 [L0 [L1 [H1 [L2 H2]]]]]].
  assert (WW : 0 < wlo * wlo) by (apply Rmult_lt_0_compat; exact W0).
  assert (HH : 0 < whi * whi) by (apply Rmult_lt_0_compat; lra).
  set (k := S (List.length v)).
  assert (KK : (k <= 1541)%nat) by (unfold k; lia).
  destruct (pow_product k) as [A0 AB].
  destruct (pow_half_double k KK) as [HB HG].
  pose proof (bernoulli k) as BA.
  assert (B0 : 0 < (1 + u) ^ k) by (apply pow_lt; lra).
  assert (K : INR k <= 1537).
  { replace 1537 with (INR 1537) by (simpl; lra). apply le_INR.
    unfold k. lia. }
  destruct (sumsq_range v V) as [Q0 Q1].
  assert (Q2 : sumsq v <= 1541 * (whi * whi)).
  { apply Rle_trans with (INR (List.length v) * (whi * whi)); [exact Q1|].
    apply Rmult_le_compat_r; [lra|].
    replace 1541 with (INR 1541) by (simpl; lra). apply le_INR. lia. }
  assert (F : (1 - u) ^ k * sumsq v <= sumsq_rnd rnd v
              <= (1 + u) ^ k * sumsq v).
  { pose proof (sumsq_rnd_bounds v 0 0 1 (le_n 1)) as F.
    rewrite !Rmult_0_r, !Rplus_0_l in F. apply F.
    - lia.
    - exact V.
    - now left.
    - simpl. lra.
    - lra. }
  set (a := (1 - u) ^ k) in *. set (b := (1 + u) ^ k) in *.
  set (q := sumsq v) in *. set (s := sumsq_rnd rnd v) in *.
  destruct (scaled_in_range a b s q HB HG Q0 Q2 F) as [_ SI].
  assert (Q3 : wlo * wlo <= q) by (destruct Q0; lra).
  assert (S1 : / 2 * q <= s) by
    (apply Rle_trans with (a * q); [apply Rmult_le_compat_r; lra | tauto]).
  assert (S2 : s <= 2 * q) by
    (apply Rle_trans with (b * q); [tauto | apply Rmult_le_compat_r; lra]).
  assert (S0 : 0 < s) by lra.
  pose proof (sqrt_lt_R0 s S0) as R0.
  pose proof (sqrt_sqrt s (Rlt_le _ _ S0)) as RR.
  set (r := sqrt s) in *.
  assert (R1 : wlo / 2 <= r).
  { destruct (Rle_lt_dec (wlo / 2) r) as [G|G]; [exact G|]. exfalso.
    assert (r * r <= wlo / 2 * (wlo / 2)) by (apply Rmult_le_compat; lra).
    lra. }
  assert (R2 : r <= 100 * whi).
  { destruct (Rle_lt_dec r (100 * whi)) as [G|G]; [exact G|]. exfalso.
    assert (100 * whi * (100 * whi) <= r * r)
      by (apply Rmult_le_compat; lra).
    lra. }
  assert (RI : in_range r).
  { apply in_range_pos. unfold lo, hi, wlo, whi in *. lra. }
  pose proof (rnd_nonneg r (Rlt_le _ _ R0) RI) as [M1 M2].
  unfold normalize_rnd. cbv zeta. unfold magnitude_rnd. fold s. fold r.
  set (m := rnd r) in *.
  assert (U2 : u <= / 10 ^ 10) by lra.
  assert (M3 : wlo / 4 <= m).
  { apply Rle_trans with ((1 - u) * r); [|exact M1].
    apply Rle_trans with (/ 2 * r); [lra|].
    apply Rmult_le_compat_r; lra. }
  assert (M4 : m <= 200 * whi).
  { apply Rle_trans with ((1 + u) * r); [exact M2|].
    apply Rle_trans with (2 * r); [|lra].
    apply Rmult_le_compat_r; lra. }
  assert (M0 : 0 < m) by lra.
  split; [exact M0|].
  destruct (Rlt_dec 0 m) as [_|N]; [|contradiction].
  assert (VI : Forall (fun x => in_range (x / m)) v).
  { eapply Forall_impl; [|exact V]. intros x [->|[X1 X2]].
    - left. unfold Rdiv. apply Rmult_0_l.
    - change (wlo <= x) in X1. change (x <= whi) in X2.
      assert (I1 : / (200 * whi) <= / m)
        by (apply Rinv_le_contravar; lra).
      assert (I2 : / m <= / (wlo / 4))
        by (apply Rinv_le_contravar; lra).
      assert (I0 : 0 < / (200 * whi)) by (apply Rinv_0_lt_compat; lra).
      apply in_range_pos. unfold Rdiv. split.
      + apply Rle_trans with (wlo * / (200 * whi)); [exact L2|].
        apply Rmult_le_compat; lra.
      + apply Rle_trans with (whi * / (wlo / 4)); [|exact H2].
        apply Rmult_le_compat; lra. }
  pose proof (sumsq_map_rnd m v (Rgt_not_eq _ _ M0) VI) as [T1 T2].
  fold q in T1, T2.
  set (o := map (fun x => rnd (x / m)) v) in *.
  pose proof (sumsq_nonneg o) as T0.
  rewrite magnitude_sumsq.
  set (t := sumsq o) in *.
  assert (ML : (1 - u) * (1 - u) * s <= m * m).
  { assert (0 <= (1 - u) * r) by (apply Rmult_le_pos; lra).
    replace ((1 - u) * (1 - u) * s)
      with ((1 - u) * r * ((1 - u) * r)) by (rewrite <- RR; ring).
    apply Rmult_le_compat; lra. }
  assert (MH : m * m <= (1 + u) * (1 + u) * s).
  { replace ((1 + u) * (1 + u) * s)
      with ((1 + u) * r * ((1 + u) * r)) by (rewrite <- RR; ring).
    apply Rmult_le_compat; lra. }
  set (c := (1 - u) * (1 - u) * ((1 - u) * (1 - u)) * a).
  assert (UU : 0 <= u * u <= u) by (split; nra).
  assert (E4 : 1 - 4 * u <= (1 - u) * (1 - u) * ((1 - u) * (1 - u))).
  { assert (1 - 2 * u <= (1 - u) * (1 - u)) by nra.
    assert (0 <= 1 - 2 * u) by lra.
    assert ((1 - 2 * u) * (1 - 2 * u) <=
            (1 - u) * (1 - u) * ((1 - u) * (1 - u)))
      by (apply Rmult_le_compat; lra).
    nra. }
  assert (C1 : 1 - / 10 ^ 10 <= c).
  { assert (0 <= 1 - INR k * u) by nra.
    assert ((1 - 4 * u) * (1 - INR k * u) <= c).
    { unfold c. apply Rmult_le_compat; lra. }
    assert (0 <= INR k) by apply pos_INR.
    assert (1 - (4 + INR k) * u <= (1 - 4 * u) * (1 - INR k * u)) by nra.
    assert ((4 + INR k) * u <= 1541 * u)
      by (apply Rmult_le_compat_r; lra).
    lra. }
  assert (X : 0 <= (1 + u) * (1 - u) <= 1).
  { replace ((1 + u) * (1 - u)) with (1 - u * u) by ring. lra. }
  assert (W : (1 + u) * (1 - u) * ((1 + u) * (1 - u)) <= 1).
  { set (y := (1 + u) * (1 - u)) in *.
    replace 1 with (1 * 1) by ring. apply Rmult_le_compat; lra. }
  assert (C2 : c <= t).
  { assert (E1 : (1 - u) * (1 - u) * q <= t * ((1 + u) * (1 + u) * (b * q))).
    { apply Rle_trans with (t * (m * m)); [exact T1|].
      apply Rmult_le_compat_l; [exact T0|].
      apply Rle_trans with ((1 + u) * (1 + u) * s); [exact MH|].
      apply Rmult_le_compat_l; [nra | tauto]. }
    assert (E2 : (1 - u) * (1 - u) <= t * ((1 + u) * (1 + u) * b)).
    { apply Rmult_le_reg_r with q; [exact P|]. lra. }
    assert (E3 : c <= t * ((1 + u) * (1 - u) * ((1 + u) * (1 - u)) * (a * b))).
    { unfold c.
      replace (t * ((1 + u) * (1 - u) * ((1 + u) * (1 - u)) * (a * b)))
        with (t * ((1 + u) * (1 + u) * b) * ((1 - u) * (1 - u) * a)) by ring.
      replace ((1 - u) * (1 - u) * ((1 - u) * (1 - u)) * a)
        with ((1 - u) * (1 - u) * ((1 - u) * (1 - u) * a)) by ring.
      apply Rmult_le_compat_r; [|exact E2].
      apply Rmult_le_pos; [nra | lra]. }
    apply Rle_trans with
      (t * ((1 + u) * (1 - u) * ((1 + u) * (1 - u)) * (a * b))); [exact E3|].
    rewrite <- (Rmult_1_r t) at 2. apply Rmult_le_compat_l; [exact T0|].
    assert (0 <= a * b) by (apply Rmult_le_pos; lra).
    replace 1 with (1 * 1) by ring. apply Rmult_le_compat; try lra.
    set (y := (1 + u) * (1 - u)) in *. apply Rmult_le_pos; lra. }
  assert (C3 : t * c <= 1).
  { assert (E1 : t * ((1 - u) * (1 - u) * (a * q)) <= (1 + u) * (1 + u) * q).
    { apply Rle_trans with (t * (m * m)); [|exact T2].
      apply Rmult_le_compat_l; [exact T0|].
      apply Rle_trans with ((1 - u) * (1 - u) * s); [|exact ML].
      apply Rmult_le_compat_l; [nra | tauto]. }
    assert (E2 : t * ((1 - u) * (1 - u) * a) <= (1 + u) * (1 + u)).
    { apply Rmult_le_reg_r with q; [exact P|]. lra. }
    assert (E3 : t * c <= (1 + u) * (1 - u) * ((1 + u) * (1 - u))).
    { unfold c.
      replace (t * ((1 - u) * (1 - u) * ((1 - u) * (1 - u)) * a))
        with (t * ((1 - u) * (1 - u) * a) * ((1 - u) * (1 - u))) by ring.
      replace ((1 + u) * (1 - u) * ((1 + u) * (1 - u)))
        with ((1 + u) * (1 + u) * ((1 - u) * (1 - u))) by ring.
      apply Rmult_le_compat_r; [nra | exact E2]. }
    lra. }
  pose proof (sqrt_pos t) as N0.
  pose proof (sqrt_sqrt t T0) as NN.
  set (n := sqrt t) in *.
  assert (D0 : 0 < / 10 ^ 10) by lra.
  assert (D2 : / 10 ^ 10 <= / 10 ^ 9 / 2) by lra.
  assert (D1 : / 10 ^ 10 <= / 4) by lra.
  set (d := / 10 ^ 10) in *.
  apply Rabs_le. split.
  - destruct (Rle_lt_dec (1 - d) n) as [G|G]; [lra|]. exfalso.
    assert (n * n <= (1 - d) * (1 - d))
      by (apply Rmult_le_compat; lra).
    assert ((1 - d) * (1 - d) < 1 - d).
    { replace ((1 - d) * (1 - d)) with (1 - d - d * (1 - d)) by ring.
      assert (0 < d * (1 - d)); [|lra].
      apply Rmult_lt_0_compat; lra. }
    lra.
  - destruct (Rle_lt_dec n (1 + 2 * d)) as [G|G]; [lra|]. exfalso.
    assert (G2 : (1 + 2 * d) * (1 + 2 * d) <= n * n)
      by (apply Rmult_le_compat; lra).
    assert (G3 : (1 + 2 * d) * (1 + 2 * d) * (1 - d) <= t * c).
    { rewrite <- NN. apply Rmult_le_compat; try lra.
      apply Rmult_le_pos; lra. }
    assert (G4 : 1 < (1 + 2 * d) * (1 + 2 * d) * (1 - d)).
    { replace ((1 + 2 * d) * (1 + 2 * d) * (1 - d))
        with (1 + d * (3 - 4 * d * d)) by ring.
      assert (0 < d * (3 - 4 * d * d)); [|lra].
      apply Rmult_lt_0_compat; [exact D0|].
      assert (d * d <= / 4 * / 4) by (apply Rmult_le_compat; lra). lra. }
    lra.
Qed.

End RoundingError.

Lemma normalize_rnd_zero (rnd : R -> R) (v : list R) :
  standard_model rnd -> (List.length v <= 1536)%nat ->
  Forall weight_range v -> sumsq v = 0 -> normalize_rnd rnd v = v.
Proof.
  intros M L V Z.
  pose proof (sumsq_rnd_bounds rnd M v 0 0 1 (le_n 1)) as F.
  rewrite !Rmult_0_r, !Rplus_0_l, Z, !Rmult_0_r in F.
  assert (S : sumsq_rnd rnd v = 0).
  { unfold sumsq_rnd.
    assert (0 <= fold_left (fun sum val => rnd (sum + rnd (val * val))) v 0
            <= 0); [|lra].
    apply F; [lia | exact V | now left | simpl; lra | lra]. }
  unfold normalize_rnd, magnitude_rnd. cbv zeta.
  rewrite S, sqrt_0, (rnd_zero rnd M).
  destruct (Rlt_dec 0 0) as [A|_]; [lra | reflexivity].
Qed.

Lemma nearest_close (y : R) : Rabs (IZR (nearest y) - y) <= / 2.
Proof.
  unfold nearest. cbv zeta. destruct (base_Int_part y) as [A B].
  destruct (Rlt_dec (y - IZR (Int_part y)) (/ 2)) as [L|L].
  - apply Rabs_le. lra.
  - assert (U : Rabs (IZR (Int_part y + 1) - y) <= / 2)
      by (rewrite plus_IZR; apply Rabs_le; lra).
    destruct (Rlt_dec (/ 2) (y - IZR (Int_part y))) as [G|G];
      [exact U|].
    destruct (Z.even (Int_part y)); [|exact U].
    apply Rabs_le. lra.
Qed.

Lemma exponent_le (x : R) : x <> 0 -> powerRZ 2 (exponent x) <= Rabs x.
Proof.
  intros N. unfold exponent.
  assert (P : 0 < Rabs x) by now apply Rabs_pos_lt.
  assert (L2 : 0 < ln 2) by (rewrite <- ln_1; apply ln_increasing; lra).
  set (l := ln (Rabs x) / ln 2).
  assert (E : l * ln 2 = ln (Rabs x)).
  { unfold l, Rdiv. rewrite Rmult_assoc, Rinv_l by lra. ring. }
  destruct (base_Int_part l) as [I _].
  rewrite powerRZ_Rpower by lra. unfold Rpower.
  apply Rle_trans with (exp (ln (Rabs x))); [|rewrite exp_ln; lra].
  rewrite <- E.
  destruct (Rle_lt_or_eq_dec _ _ I) as [S|Q].
  - apply Rlt_le, exp_increasing. apply Rmult_lt_compat_r; lra.
  - rewrite Q. lra.
Qed.

Lemma round53_error (x : R) :
  Rabs (round53 x - x) <= unit_roundoff * Rabs x.
Proof.
  unfold round53. destruct (Req_dec_T x 0) as [->|N].
  - rewrite Rminus_0_r, Rabs_R0. lra.
  - pose proof (exponent_le x N) as E.
    set (e := exponent x) in *.
    assert (P1 : 0 < powerRZ 2 (e - 52)) by (apply powerRZ_lt; lra).
    assert (P2 : powerRZ 2 (52 - e) * powerRZ 2 (e - 52) = 1).
    { rewrite <- powerRZ_add by lra.
      replace (52 - e + (e - 52))%Z with 0%Z by lia. reflexivity. }
    assert (P3 : powerRZ 2 (e - 52) = powerRZ 2 e * / 2 ^ 52).
    { unfold Z.sub. rewrite powerRZ_add by lra. reflexivity. }
    set (p := powerRZ 2 (e - 52)) in *.
    set (y := x * powerRZ 2 (52 - e)).
    assert (X : y * p = x).
    { unfold y. rewrite Rmult_assoc, P2. ring. }
    replace (IZR (nearest y) * p - x) with ((IZR (nearest y) - y) * p)
      by (rewrite <- X; ring).
    rewrite Rabs_mult, (Rabs_pos_eq p) by lra.
    pose proof (nearest_close y) as C.
    apply Rle_trans with (/ 2 * p).
    + apply Rmult_le_compat_r; lra.
    + rewrite P3. unfold unit_roundoff.
      assert (0 < powerRZ 2 e) by (apply powerRZ_lt; lra).
      apply Rle_trans with (/ 2 ^ 53 * powerRZ 2 e); [lra|].
      apply Rmult_le_compat_l; [lra | exact E].
Qed.

(** Rounding to 53 significant bits obeys the standard model, on every
    real number. *)
Lemma round53_standard : standard_model round53.
Proof. intros x _. apply round53_error. Qed.

Lemma createLocalEmbedding_exact (text : jsstring) (dimension : Z) :
  createLocalEmbedding text dimension =
  normalize_rnd (fun x => x) (accumulate text dimension).
Proof. reflexivity. Qed.

Lemma accumulate_normalizeText (text text' : jsstring) (dimension : Z) :
  normalizeText text' = normalizeText text ->
  accumulate text' dimension = accumulate text dimension.
Proof. intros E. unfold accumulate. now rewrite E. Qed.

(** C6, as the code has it.  The local embedding of a text is a function of
    the normalised text alone and has 1536 components.  When the normalised
    text holds no word, the accumulated vector and the embedding are the
    all-zero vector and nothing is divided.  Otherwise the accumulated
    vector has a norm above zero and the embedding is that vector divided,
    component by component, by that norm: its own norm is 1 up to the
    rounding of the arithmetic, within 1e-9.  The last part states this of
    the normalisation itself, run with any rounding that obeys the standard
    model of floating-point arithmetic on any vector of 1536 accumulated
    weights; without rounding it is [createLocalEmbedding]. *)
Theorem local_embedding_normalised (text : jsstring) :
  let accumulated := accumulate text 1536 in
  let embedding := createLocalEmbedding text 1536 in
  List.length embedding = 1536%nat /\
  (forall text', normalizeText text' = normalizeText text ->
                 createLocalEmbedding text' 1536 = embedding) /\
  (wordsOf (normalizeText text) = [] ->
   accumulated = zeros 1536 /\ embedding = zeros 1536) /\
  (wordsOf (normalizeText text) <> [] ->
   0 < magnitude accumulated /\
   embedding = map (fun x => x / magnitude accumulated) accumulated /\
   Rabs (magnitude embedding - 1) <= / 10 ^ 9) /\
  embedding = normalize_rnd (fun x => x) accumulated /\
  (forall (rnd : R -> R) (v : list R),
     standard_model rnd -> List.length v = 1536%nat ->
     Forall weight_range v ->
     List.length (normalize_rnd rnd v) = 1536%nat /\
     (sumsq v = 0 -> normalize_rnd rnd v = v) /\
     (0 < sumsq v ->
      0 < magnitude_rnd rnd v /\
      Rabs (magnitude (normalize_rnd rnd v) - 1) <= / 10 ^ 9)).
Proof.
  cbv zeta.
  pose proof (accumulate_length text 1536) as L.
  change (Z.to_nat 1536) with 1536%nat in L.
  pose proof (accumulate_zero_iff text) as Z.
  split; [|split; [|split; [|split; [|split]]]].
  - unfold createLocalEmbedding. cbv zeta.
    destruct (Rlt_dec 0 (magnitude (accumulate text 1536)));
      [now rewrite length_map | exact L].
  - intros text' E. unfold createLocalEmbedding.
    now rewrite (accumulate_normalizeText text text' 1536 E).
  - intros W. apply Z in W.
    assert (A : accumulate text 1536 = zeros 1536).
    { rewrite <- L. apply sumsq_zero.
      apply sqrt_eq_0; [apply sumsq_nonneg|].
      now rewrite <- magnitude_sumsq. }
    split; [exact A|]. unfold createLocalEmbedding. cbv zeta.
    destruct (Rlt_dec 0 (magnitude (accumulate text 1536))) as [P|_];
      [lra | exact A].
  - intros W.
    assert (P : 0 < magnitude (accumulate text 1536)).
    { pose proof (magnitude_nonneg (accumulate text 1536)) as N.
      destruct (Rle_lt_or_eq_dec _ _ N) as [P|E]; [exact P|].
      symmetry in E. apply Z in E. contradiction. }
    split; [exact P|]. unfold createLocalEmbedding. cbv zeta.
    destruct (Rlt_dec 0 (magnitude (accumulate text 1536))) as [_|N];
      [|contradiction].
    split; [reflexivity|].
    rewrite (normalised_magnitude _ P).
    rewrite Rminus_diag, Rabs_R0. lra.
  - apply createLocalEmbedding_exact.
  - intros rnd v M Lv V. split; [|split].
    + unfold normalize_rnd. cbv zeta.
      destruct (Rlt_dec 0 (magnitude_rnd rnd v));
        [now rewrite length_map | exact Lv].
    + apply normalize_rnd_zero; [exact M | lia | exact V].
    + apply normalize_rnd_norm; [exact M | lia | exact V].
Qed.

End Embedding.

(** ** Further properties *)

(** *** The lexical scorer *)

Lemma with_score_in_category (c : jsstring) (p : Podcast) (s : Z) :
  in_category c (with_score p s) = in_category c p.
Proof. reflexivity. Qed.

Lemma filter_attach (score : Podcast -> Z) (c : jsstring)
    (podcasts : list Podcast) :
  filter (in_category c) (attach score podcasts) =
  attach (fun d => score d) (filter (in_category c) podcasts).
Proof.
  unfold attach. induction podcasts as [|d ps IH]; simpl; [reflexivity|].
  rewrite with_score_in_category. destruct (in_category c d); simpl;
    now rewrite IH.
Qed.

Lemma filter_swap {A} (f g : A -> bool) (l : list A) :
  filter f (filter g l) = filter g (filter f l).
Proof.
  induction l as [|x l IH]; simpl; [reflexivity|].
  destruct (f x) eqn:F, (g x) eqn:G; simpl; rewrite ?F, ?G, IH; reflexivity.
Qed.

Lemma Forall_desc_filter (f : Podcast -> bool) (x : Podcast)
    (l : list Podcast) :
  Forall (desc x) l -> Forall (desc x) (filter f l).
Proof.
  intros H. apply Forall_forall. intros y Hy. apply filter_In in Hy as [Hy _].
  rewrite Forall_forall in H. auto.
Qed.

Lemma insert_head (x : Podcast) (l : list Podcast) :
  Forall (desc x) l -> sort_insert by_relevance x l = x :: l.
Proof.
  intros H. destruct l as [|y l]; [reflexivity|]. simpl.
  inversion_clear H as [|? ? Hy _]. unfold desc in Hy. unfold by_relevance.
  assert ((0 <? or_zero (relevanceScore y) - or_zero (relevanceScore x))
          = false) as -> by (apply Z.ltb_ge; lia).
  reflexivity.
Qed.

Lemma insert_filter (f : Podcast -> bool) (x : Podcast) (l : list Podcast) :
  StronglySorted desc l ->
  filter f (sort_insert by_relevance x l) =
  if f x then sort_insert by_relevance x (filter f l) else filter f l.
Proof.
  induction 1 as [|y l Hl IH Hy]; simpl.
  - destruct (f x); reflexivity.
  - destruct (0 <? by_relevance x y) eqn:E; simpl.
    + rewrite IH. destruct (f y) eqn:Fy, (f x) eqn:Fx; simpl;
        rewrite ?E; reflexivity.
    + destruct (f x) eqn:Fx; [|reflexivity].
      apply Z.ltb_ge in E. unfold by_relevance in E.
      assert (D : Forall (desc x) (y :: l)).
      { constructor; [unfold desc; lia|].
        eapply Forall_impl; [|exact Hy]. unfold desc. intros; lia. }
      destruct (f y) eqn:Fy.
      * symmetry. apply insert_head. constructor.
        -- now inversion D.
        -- apply Forall_desc_filter. now inversion D.
      * symmetry. apply insert_head, Forall_desc_filter. now inversion D.
Qed.

Lemma sort_filter (f : Podcast -> bool) (l : list Podcast) :
  filter f (JS.sort by_relevance l) = JS.sort by_relevance (filter f l).
Proof.
  induction l as [|x l IH]; simpl; [reflexivity|].
  rewrite insert_filter by apply sort_sorted.
  rewrite IH. destruct (f x); reflexivity.
Qed.

Lemma ranking_filter (score : Podcast -> Z) (c : jsstring)
    (podcasts : list Podcast) :
  JS.sort by_relevance (positive score (filter (in_category c) podcasts)) =
  filter (in_category c) (JS.sort by_relevance (positive score podcasts)).
Proof.
  unfold positive. now rewrite sort_filter, filter_swap, filter_attach.
Qed.

Lemma semanticSearch_filter (query c : jsstring) (podcasts : list Podcast) :
  semanticSearch query (filter (in_category c) podcasts) =
  filter (in_category c) (semanticSearch query podcasts).
Proof.
  unfold semanticSearch. destruct (truthy (trim query)); simpl.
  - apply (ranking_filter (pageScoreOf query)).
  - reflexivity.
Qed.

(** X1: restricting the corpus to a category and then scoring gives the
    same list as scoring the whole corpus and then keeping the documents of
    that category, for the scorers of both page components. *)
Theorem category_filter_commutes (query c : jsstring)
    (podcasts : list Podcast) :
  localSemanticSearch query (filter (in_category c) podcasts) =
    filter (in_category c) (localSemanticSearch query podcasts) /\
  semanticSearch query (filter (in_category c) podcasts) =
    filter (in_category c) (semanticSearch query podcasts).
Proof.
  split.
  - apply (ranking_filter (localScoreOf query)).
  - apply semanticSearch_filter.
Qed.

Lemma sumZ_cons (x : Z) (l : list Z) : sumZ (x :: l) = x + sumZ l.
Proof. reflexivity. Qed.

Lemma sum_when_hit {A} (f : A -> bool) (m : list A) (e : A) :
  In e m -> f e = true -> 5 <= sumZ (map (fun e => when (f e) 5) m).
Proof.
  induction m as [|x m IH]; [contradiction|].
  cbn [map]. rewrite sumZ_cons.
  assert (N : 0 <= sumZ (map (fun e => when (f e) 5) m)).
  { apply sumZ_nonneg, Forall_forall. intros y Hy.
    apply in_map_iff in Hy as [z [<- _]]. apply when_nonneg. lia. }
  intros [->|H] F.
  - rewrite F. cbn [when]. lia.
  - specialize (IH H F). pose proof (when_nonneg (f x) 5). lia.
Qed.

Lemma score_sum_related (m : list (jsstring * list jsstring))
    (terms : list jsstring) (content key v : jsstring)
    (values : list jsstring) :
  In (key, values) m -> In v values -> includes content v = true ->
  5 * Z.of_nat (List.length terms) <= score_sum concept_hit m terms content.
Proof.
  intros Hm Hv Hi. unfold score_sum.
  induction terms as [|t ts IH]; [simpl; lia|].
  cbn [List.length map]. rewrite sumZ_cons.
  assert (5 <= sumZ (map (fun entry =>
                            when (concept_hit t content entry) 5) m)).
  { apply (sum_when_hit (concept_hit t content) m (key, values) Hm).
    apply concept_hit_spec. right. exists v. split; [exact Hv|].
    now apply includes_spec. }
  pose proof (when_nonneg (includes content t) 10). lia.
Qed.

Lemma positive_In (score : Podcast -> Z) (podcasts : list Podcast)
    (d : Podcast) :
  In d podcasts -> 0 < score d ->
  In (with_score d (score d)) (JS.sort by_relevance (positive score podcasts)).
Proof.
  intros Hd Hs. apply sort_In, filter_In. split.
  - unfold attach. apply in_map_iff. eauto.
  - unfold score_above. simpl.
    assert ((score d =? 0) = false) as -> by (apply Z.eqb_neq; lia).
    apply Z.ltb_lt. exact Hs.
Qed.

(** X2: the credit of a concept for its related terms does not depend on
    the query: a document whose text holds a related term of some concept is
    returned for every query with at least one term, with a score of at
    least 5 per term. *)
Theorem related_terms_match_any_query (query : jsstring)
    (podcasts : list Podcast) (d : Podcast) (key v : jsstring)
    (values : list jsstring) :
  In d podcasts ->
  In (key, values) localSemanticSearch_semanticMap ->
  In v values ->
  includes (searchContent d) v = true ->
  0 < termCount query ->
  5 * termCount query <= localScoreOf query d /\
  In (with_score d (localScoreOf query d)) (localSemanticSearch query podcasts).
Proof.
  intros Hd Hm Hv Hi Hn.
  assert (B : 5 * termCount query <= localScoreOf query d).
  { unfold localScoreOf, termCount. rewrite localScore_sum.
    eapply score_sum_related; eauto. }
  split; [exact B|].
  apply (positive_In (localScoreOf query)); [exact Hd | lia].
Qed.

Lemma sumZ_bound (k : Z) (l : list Z) :
  Forall (fun x => 0 <= x <= k /\ (5 | x)) l ->
  0 <= sumZ l <= k * Z.of_nat (List.length l) /\ (5 | sumZ l).
Proof.
  induction 1 as [|x l [Hx Dx] Hl [IH DH]].
  - simpl. split; [lia | apply Z.divide_0_r].
  - rewrite sumZ_cons. cbn [List.length].
    split; [lia | now apply Z.divide_add_r].
Qed.

Lemma score_sum_bounds (hit : jsstring -> jsstring ->
                              jsstring * list jsstring -> bool)
    (m : list (jsstring * list jsstring)) (terms : list jsstring)
    (content : jsstring) :
  0 <= score_sum hit m terms content <=
    (10 + 5 * Z.of_nat (List.length m)) * Z.of_nat (List.length terms) /\
  (5 | score_sum hit m terms content).
Proof.
  unfold score_sum.
  rewrite <- (length_map (fun term =>
    when (includes content term) 10 +
    sumZ (map (fun entry => when (hit term content entry) 5) m)) terms).
  apply sumZ_bound, Forall_forall. intros x Hx.
  apply in_map_iff in Hx as [t [<- _]].
  assert (E : 0 <= sumZ (map (fun entry => when (hit t content entry) 5) m)
              <= 5 * Z.of_nat (List.length m) /\
              (5 | sumZ (map (fun entry => when (hit t content entry) 5) m))).
  { rewrite <- (length_map (fun entry => when (hit t content entry) 5) m).
    apply sumZ_bound, Forall_forall. intros y Hy.
    apply in_map_iff in Hy as [e [<- _]].
    destruct (hit t content e); cbn [when]; split; try lia.
    - apply Z.divide_refl.
    - apply Z.divide_0_r. }
  destruct E as [E D].
  destruct (includes content t); cbn [when].
  - split; [lia|]. apply Z.divide_add_r; [now exists 2 | exact D].
  - split; [lia | exact D].
Qed.

(** X3: a lexical score is a multiple of 5 between 0 and 55 times the
    number of query terms (50 times for the scorer of the first page
    component, whose map has one concept less). *)
Theorem lexical_score_bounds (query : jsstring) (d : Podcast) :
  (0 <= localScoreOf query d <= 55 * termCount query /\
   (5 | localScoreOf query d)) /\
  (0 <= pageScoreOf query d <= 50 * termCount query /\
   (5 | pageScoreOf query d)).
Proof.
  unfold localScoreOf, pageScoreOf, termCount.
  rewrite localScore_sum, pageScore_sum. split.
  - apply (score_sum_bounds concept_hit localSemanticSearch_semanticMap).
  - apply (score_sum_bounds concept_hit semanticSearch_semanticMap).
Qed.

(** X4: scores add up over the terms of a query: under [q + " " + t] a
    document scores the sum of its scores under [q] and under [t], so that
    repeating a query doubles every score. *)
Theorem lexical_score_additive (q t : jsstring) (d : Podcast) :
  toLowerCase (q ++ space :: t) = toLowerCase q ++ space :: toLowerCase t ->
  localScoreOf (q ++ space :: t) d = localScoreOf q d + localScoreOf t d.
Proof.
  intros H. unfold localScoreOf. rewrite (searchTerms_join q t H).
  rewrite !localScore_sum. apply score_sum_app.
Qed.

Lemma includes_In (s t : jsstring) (c : code_unit) :
  includes s t = true -> In c t -> In c s.
Proof.
  intros H Hc. apply includes_spec in H as [pre [post ->]].
  apply in_or_app. right. apply in_or_app. now left.
Qed.

Lemma includes_no_upper (content v : jsstring) :
  forallb (fun c => negb (is_upper c)) content = true ->
  has_upper v = true -> includes content v = false.
Proof.
  intros L U. destruct (includes content v) eqn:I; [|reflexivity].
  unfold has_upper in U. apply existsb_exists in U as [c [Hc Uc]].
  rewrite forallb_forall in L.
  specialize (L c (includes_In content v c I Hc)). now rewrite Uc in L.
Qed.

Lemma existsb_without_upper (content : jsstring) (values : list jsstring) :
  forallb (fun c => negb (is_upper c)) content = true ->
  existsb (fun v => includes content v)
          (filter (fun v => negb (has_upper v)) values) =
  existsb (fun v => includes content v) values.
Proof.
  intros L. induction values as [|v vs IH]; simpl; [reflexivity|].
  destruct (has_upper v) eqn:U; simpl.
  - now rewrite (includes_no_upper content v L U).
  - now rewrite IH.
Qed.

Lemma score_sum_without_upper (m : list (jsstring * list jsstring))
    (terms : list jsstring) (content : jsstring) :
  forallb (fun c => negb (is_upper c)) content = true ->
  score_sum concept_hit (without_upper m) terms content =
  score_sum concept_hit m terms content.
Proof.
  intros L. unfold score_sum. f_equal. apply map_ext. intros t. f_equal.
  f_equal. unfold without_upper. rewrite map_map. apply map_ext.
  intros [key values]. unfold concept_hit.
  now rewrite (existsb_without_upper content values L).
Qed.

(** X5: the text searched is lowercased but the related terms are not, so a
    related term with a capital letter in it never matches: on every text
    without ASCII capitals the score is the one of the map with those terms
    (AI, Netflix) taken out. *)
Theorem uppercase_related_terms_never_match (query : jsstring) (d : Podcast) :
  forallb (fun c => negb (is_upper c)) (searchContent d) = true ->
  localScoreOf query d =
    score_sum concept_hit (without_upper localSemanticSearch_semanticMap)
      (searchTerms query) (searchContent d) /\
  Forall (fun entry =>
            Forall (fun v => has_upper v = true ->
                             includes (searchContent d) v = false)
                   (snd entry))
         localSemanticSearch_semanticMap.
Proof.
  intros L. split.
  - unfold localScoreOf.
    now rewrite localScore_sum, (score_sum_without_upper _ _ _ L).
  - apply Forall_forall. intros entry _. apply Forall_forall.
    intros v _ U. now apply includes_no_upper.
Qed.

Lemma NoDup_map_filter {A B} (f : A -> B) (g : A -> bool) (l : list A) :
  NoDup (map f l) -> NoDup (map f (filter g l)).
Proof.
  induction l as [|x l IH]; simpl; [auto|].
  intros H. inversion_clear H as [|? ? Hx Hl].
  destruct (g x); simpl; [|auto]. constructor; [|auto].
  intros I. apply Hx. apply in_map_iff in I as [y [E Hy]].
  apply filter_In in Hy as [Hy _]. apply in_map_iff. eauto.
Qed.

(** X6: the lexical scorer returns no more documents than it is given, and
    no document twice when the ids of the documents are distinct. *)
Theorem lexical_result_distinct (query : jsstring) (podcasts : list Podcast) :
  NoDup (map id podcasts) ->
  NoDup (map id (localSemanticSearch query podcasts)) /\
  (List.length (localSemanticSearch query podcasts)
   <= List.length podcasts)%nat.
Proof.
  intros N. unfold localSemanticSearch. split.
  - eapply Permutation_NoDup.
    + apply Permutation_map, sort_perm.
    + apply NoDup_map_filter. rewrite map_map. exact N.
  - rewrite sort_length. etransitivity; [apply filter_length_le|].
    now rewrite length_map.
Qed.

Lemma sort_of_sorted (l : list Podcast) :
  StronglySorted desc l -> JS.sort by_relevance l = l.
Proof.
  induction 1 as [|x l Hl IH Hx]; simpl; [reflexivity|].
  rewrite IH. apply insert_head. exact Hx.
Qed.

Lemma filter_all {A} (f : A -> bool) (l : list A) :
  Forall (fun x => f x = true) l -> filter f l = l.
Proof.
  induction 1 as [|x l Hx Hl IH]; simpl; [reflexivity|]. now rewrite Hx, IH.
Qed.

Lemma ranking_idempotent (score : Podcast -> Z) (podcasts : list Podcast) :
  (forall d s, score (with_score d s) = score d) ->
  let out := JS.sort by_relevance (positive score podcasts) in
  JS.sort by_relevance (positive score out) = out.
Proof.
  intros S out.
  assert (A : attach score out = out).
  { unfold attach. rewrite <- (map_id out) at 2. apply map_ext_in.
    intros p Hp. apply sort_In, filter_In in Hp as [Hp _].
    unfold attach in Hp. apply in_map_iff in Hp as [d [<- _]].
    now rewrite S. }
  assert (P : positive score out = out).
  { unfold positive. rewrite A. apply filter_all, Forall_forall.
    intros p Hp. now apply sort_In, filter_In in Hp as [_ Hp]. }
  rewrite P. apply sort_of_sorted, sort_sorted.
Qed.

(** X7: searching the results of a lexical search again with the same
    query changes nothing. *)
Theorem lexical_search_idempotent (query : jsstring)
    (podcasts : list Podcast) :
  localSemanticSearch query (localSemanticSearch query podcasts) =
  localSemanticSearch query podcasts.
Proof.
  apply (ranking_idempotent (localScoreOf query)). reflexivity.
Qed.

(** *** The ranking of remote matches *)

Lemma non_null_scored (podcasts : list Podcast) (ms : list Match) :
  Forall (fun p => relevanceScore p <> None)
    (non_null (filter above_threshold (map (to_scored podcasts) ms))).
Proof.
  apply Forall_forall. intros p Hp.
  apply non_null_In, filter_In in Hp as [Hp _].
  apply in_map_iff in Hp as [m [Hm _]].
  apply to_scored_some in Hm as [d [_ [_ ->]]]. discriminate.
Qed.

Lemma to_scored_score (podcasts : list Podcast) (m : Match) (p : Podcast) :
  to_scored podcasts m = Some p ->
  relevanceScore p = Some (percentage (match_score m)).
Proof.
  intros H. apply to_scored_some in H as [d [_ [_ ->]]]. reflexivity.
Qed.

Lemma ranked_of_score (podcasts : list Podcast) (ms : list Match) (s : Z) :
  filter (has_score s)
    (non_null (filter above_threshold (map (to_scored podcasts) ms))) =
  if 20 <? s
  then non_null (map (to_scored podcasts)
                   (filter (fun m => percentage (match_score m) =? s) ms))
  else [].
Proof.
  induction ms as [|m ms IH]; simpl.
  - now destruct (20 <? s).
  - destruct (to_scored podcasts m) as [p|] eqn:T.
    + pose proof (to_scored_score _ _ _ T) as R.
      unfold above_threshold, score_above. rewrite R.
      destruct (percentage (match_score m) =? s) eqn:E.
      * apply Z.eqb_eq in E. rewrite E in *.
        destruct (20 <? s) eqn:L.
        -- assert ((s =? 0) = false) as ->
             by (apply Z.eqb_neq; apply Z.ltb_lt in L; lia).
           simpl. rewrite T. simpl. unfold has_score at 1. rewrite R.
           rewrite Z.eqb_refl. f_equal. exact IH.
        -- rewrite andb_false_r. exact IH.
      * destruct (negb (percentage (match_score m) =? 0) &&
                  (20 <? percentage (match_score m))); [|exact IH].
        simpl. unfold has_score at 1. rewrite R, E. exact IH.
    + simpl. destruct (percentage (match_score m) =? s); simpl;
        rewrite ?T; exact IH.
Qed.

(** X8: the ranked remote result is in descending order of percentage, and
    documents of one percentage keep the order in which the index returned
    their matches. *)
Theorem rank_matches_sorted_stable (matches : list Match)
    (podcasts : list Podcast) :
  let out := rank_matches matches podcasts in
  StronglySorted desc out /\
  (forall s,
     filter (has_score s) out =
     if 20 <? s
     then non_null (map (to_scored podcasts)
                      (filter (fun m => percentage (match_score m) =? s)
                              matches))
     else []).
Proof.
  cbv zeta. unfold rank_matches. split.
  - apply sort_sorted.
  - intros s. rewrite sort_stable by apply non_null_scored.
    apply ranked_of_score.
Qed.

Lemma Qfloor_ge (z : Z) (x : Q) : z <= Qfloor x <-> (inject_Z z <= x)%Q.
Proof.
  split; intros H.
  - apply Qle_trans with (inject_Z (Qfloor x)); [|apply Qfloor_le].
    rewrite <- Zle_Qle. exact H.
  - rewrite <- (Qfloor_Z z). now apply Qfloor_resp_le.
Qed.

Lemma percentage_above (s : Q) : 20 < percentage s <-> (41 # 200 <= s)%Q.
Proof.
  unfold percentage, Math_round.
  assert (E : 20 < Qfloor (s * 100 + (1 # 2)) <->
              21 <= Qfloor (s * 100 + (1 # 2))) by lia.
  rewrite E, Qfloor_ge. destruct s as [n d].
  unfold Qle, Qplus, Qmult, inject_Z. cbn [Qnum Qden]. lia.
Qed.

Lemma percentage_monotone (s s' : Q) :
  (s <= s')%Q -> percentage s <= percentage s'.
Proof.
  intros H. unfold percentage, Math_round. apply Qfloor_resp_le.
  apply Qplus_le_compat; [|apply Qle_refl].
  apply Qmult_le_compat_r; [exact H | discriminate].
Qed.

(** X9: a match of similarity 0.205 or more passes the client's threshold
    and one of similarity 0.20499 or less does not; after the fallback
    route, which scales by 0.8, a match passes when its similarity in the
    index is 0.25626 or more and does not when it is 0.25624 or less.  The
    bounds leave a margin around 0.205 and 0.25625, where the rounding of
    the products decides.  The percentage never inverts the order of two
    similarities. *)
Theorem similarity_cutoff (s s' : Q) :
  ((41 # 200 <= s)%Q -> 20 < percentage s) /\
  ((s <= 20499 # 100000)%Q -> percentage s <= 20) /\
  ((25626 # 100000 <= s)%Q -> 20 < percentage (s * (8 # 10))) /\
  ((s <= 25624 # 100000)%Q -> percentage (s * (8 # 10)) <= 20) /\
  ((s <= s')%Q -> percentage s <= percentage s').
Proof.
  assert (B : forall x : Q, (x < 41 # 200)%Q -> percentage x <= 20).
  { intros x L.
    destruct (Z_lt_le_dec 20 (percentage x)) as [G|G]; [|exact G].
    apply percentage_above in G. exfalso. exact (Qlt_not_le _ _ L G). }
  split; [apply percentage_above|]. split; [|split; [|split]].
  - intros H. apply B. destruct s as [n d].
    unfold Qle, Qlt in *. cbn [Qnum Qden] in *. lia.
  - intros H. apply percentage_above. destruct s as [n d].
    unfold Qle, Qmult in *. cbn [Qnum Qden] in *. lia.
  - intros H. apply B. destruct s as [n d].
    unfold Qle, Qlt, Qmult in *. cbn [Qnum Qden] in *. lia.
  - apply percentage_monotone.
Qed.

Lemma find_unique (podcasts : list Podcast) (d : Podcast) :
  NoDup (map id podcasts) -> In d podcasts ->
  JS.find (fun p => id p =? id d) podcasts = Some d.
Proof.
  unfold JS.find. induction podcasts as [|p ps IH]; simpl; [contradiction|].
  intros N H. inversion_clear N as [|? ? Np Nps].
  destruct (id p =? id d) eqn:E.
  - destruct H as [->|H]; [reflexivity|]. exfalso. apply Np.
    apply Z.eqb_eq in E. rewrite E. now apply in_map.
  - destruct H as [->|H]; [now rewrite Z.eqb_refl in E | auto].
Qed.

(** X10: when the candidates have distinct ids, every candidate named by a
    match of similarity at least 0.205 is in the ranked result, with the
    percentage of that match. *)
Theorem rank_matches_complete (matches : list Match)
    (podcasts : list Podcast) (m : Match) (d : Podcast) :
  NoDup (map id podcasts) ->
  In m matches -> In d podcasts ->
  parseInt (match_id m) = Some (id d) ->
  (41 # 200 <= match_score m)%Q ->
  In (with_score d (percentage (match_score m)))
     (rank_matches matches podcasts).
Proof.
  intros N Hm Hd Hid Hs. unfold rank_matches.
  apply sort_In, non_null_In, filter_In. split.
  - apply in_map_iff. exists m. split; [|exact Hm].
    unfold to_scored. rewrite Hid, (find_unique podcasts d N Hd). reflexivity.
  - apply percentage_above in Hs. unfold above_threshold, score_above. simpl.
    assert ((percentage (match_score m) =? 0) = false) as ->
      by (apply Z.eqb_neq; lia).
    apply Z.ltb_lt. exact Hs.
Qed.

(** *** The page state *)

(** X11: the search timer waits 150 ms after a keystroke; once the typing
    timer has fired it waits 1000 ms exactly for typed values of at least 3
    code units that are not white space only and do not end with a space,
    so that a remote search waits 1000 ms, except for values of 2 code
    units, which reach the remote chain after 300 ms. *)
Theorem debounce_by_state (v : jsstring) (st : SearchState) :
  let typing := handleSearchInput v st in
  let settled := typingTimer typing in
  In (debounceDelay st) [150; 300; 1000] /\
  debounceDelay typing = 150 /\
  (debounceDelay settled = 1000 <->
   3 <= len v /\ only_whitespace v = false /\ endsWith_space v = false) /\
  (remote_eligible settled = true <->
   debounceDelay settled = 1000 \/
   (len v = 2 /\ debounceDelay settled = 300 /\
    only_whitespace v = false /\ endsWith_space v = false)).
Proof.
  cbv zeta. split; [|split; [reflexivity|]].
  - unfold debounceDelay.
    destruct (isTyping st), (len (searchQuery st) <? 3), (shouldUseAPI st);
      simpl; auto.
  - assert (D : debounceDelay (typingTimer (handleSearchInput v st)) =
                if len v <? 3 then 300
                else if (2 <=? len v) && negb (only_whitespace v) &&
                        negb (endsWith_space v) then 1000 else 300)
      by reflexivity.
    rewrite remote_eligible_after_input, D.
    destruct (len v <? 3) eqn:L3; [apply Z.ltb_lt in L3 | apply Z.ltb_ge in L3];
      destruct (2 <=? len v) eqn:L2;
      [apply Z.leb_le in L2 | apply Z.leb_gt in L2
      |apply Z.leb_le in L2 | apply Z.leb_gt in L2];
      destruct (only_whitespace v), (endsWith_space v); simpl;
      split; split; intros; repeat match goal with
        | H : _ /\ _ |- _ => destruct H
        | H : _ \/ _ |- _ => destruct H
        end; try discriminate; try lia; auto;
      try (right; repeat split; auto; lia); try (repeat split; auto; lia).
Qed.

Lemma fallback_chain_scores fetch (query : jsstring)
    (podcasts : list Podcast) :
  Forall (fun p => exists s, relevanceScore p = Some s /\ 0 < s)
         (snd (snd (fallback_chain fetch query podcasts))).
Proof.
  assert (R : forall ms, Forall (fun p => exists s,
                relevanceScore p = Some s /\ 0 < s)
                (rank_matches ms podcasts)).
  { intros ms. apply Forall_forall. intros p Hp.
    apply rank_matches_In in Hp as [m [d [_ [_ [_ [-> Hs]]]]]].
    eexists. split; [reflexivity | lia]. }
  pose proof (ranking_sorted_stable (localScoreOf query) podcasts) as [L _].
  unfold fallback_chain.
  destruct (attempt fetch search_pinecone query); simpl; auto.
  destruct (attempt fetch search_fallback query); simpl; auto.
Qed.

(** X12: for a query that is not blank, every document of the list a search
    ends with carries a positive relevance, whichever strategy answered. *)
Theorem results_carry_scores fetch (st : SearchState) :
  only_whitespace (searchQuery st) = false ->
  exists calls result,
    performSearch fetch st = (calls, Ok result) /\
    Forall (fun p => exists s, relevanceScore p = Some s /\ 0 < s) result.
Proof.
  intros W. rewrite performSearch_eq. destruct (remote_eligible st).
  - pose proof (fallback_chain_scores fetch (searchQuery st)
                  (candidates (selectedCategory st))) as F.
    destruct (fallback_chain fetch _ _) as [calls [s result]].
    exists calls, result. split; [reflexivity | exact F].
  - exists [], (local_result st). split; [reflexivity|].
    unfold local_result. rewrite truthy_trim, W. simpl.
    apply (ranking_sorted_stable (localScoreOf (searchQuery st))).
Qed.

Lemma existsb_str_eqb (x : jsstring) (set : list jsstring) :
  existsb (str_eqb x) set = true <-> In x set.
Proof.
  rewrite existsb_exists. split.
  - intros [y [Hy E]]. apply str_eqb_eq in E. now subst.
  - intros H. exists x. split; [exact H | now apply str_eqb_eq].
Qed.

Lemma set_add_In (set : list jsstring) (x y : jsstring) :
  In y (set_add set x) <-> In y set \/ y = x.
Proof.
  unfold set_add. destruct (existsb (str_eqb x) set) eqn:E.
  - apply existsb_str_eqb in E. split; [auto | intros [H | ->]; auto].
  - rewrite in_app_iff. simpl. intuition congruence.
Qed.

Lemma set_add_NoDup (set : list jsstring) (x : jsstring) :
  NoDup set -> NoDup (set_add set x).
Proof.
  intros N. unfold set_add. destruct (existsb (str_eqb x) set) eqn:E; [auto|].
  apply NoDup_app; [exact N | repeat constructor; auto |].
  intros y Hy [<-|[]]. apply existsb_str_eqb in Hy. congruence.
Qed.

Lemma fold_set_add_In (l set : list jsstring) (y : jsstring) :
  In y (fold_left set_add l set) <-> In y set \/ In y l.
Proof.
  revert set; induction l as [|x l IH]; intros set; simpl; [tauto|].
  rewrite IH, set_add_In. intuition congruence.
Qed.

Lemma fold_set_add_NoDup (l set : list jsstring) :
  NoDup set -> NoDup (fold_left set_add l set).
Proof.
  revert set; induction l as [|x l IH]; intros set N; simpl; [auto|].
  apply IH, set_add_NoDup, N.
Qed.

Lemma categories_In (c : jsstring) :
  In c categories <-> exists p, In p podcastData /\ category p = c.
Proof.
  unfold categories. rewrite fold_set_add_In, in_map_iff. split.
  - intros [[]|[p [E H]]]. eauto.
  - intros [p [H E]]. right. eauto.
Qed.

(** X13: the categories offered are distinct and are exactly the categories
    of the documents of the corpus. *)
Theorem categories_distinct_and_complete (c : jsstring) :
  NoDup categories /\
  (In c categories <-> exists p, In p podcastData /\ category p = c).
Proof.
  split.
  - unfold categories. apply fold_set_add_NoDup. constructor.
  - apply categories_In.
Qed.

(** X14: choosing an offered category with a blank query shows the
    documents of that category, in corpus order, of which there is at least
    one, without any remote call. *)
Theorem listed_category_is_not_empty fetch (st : SearchState) :
  In (selectedCategory st) categories ->
  only_whitespace (searchQuery st) = true ->
  exists d,
    performSearch fetch st = ([], Ok (candidates (selectedCategory st))) /\
    In d (candidates (selectedCategory st)) /\
    category d = selectedCategory st.
Proof.
  intros C W.
  apply categories_In in C as [d [Hd Hc]].
  exists d. split; [|split; [|exact Hc]].
  - rewrite performSearch_eq. unfold remote_eligible, local_result.
    now rewrite truthy_trim, W, andb_false_r.
  - unfold candidates. destruct (truthy (selectedCategory st)); [|exact Hd].
    apply filter_In. split; [exact Hd|]. now apply str_eqb_eq.
Qed.

Lemma allTags_In_from (podcasts : list Podcast) (set : list jsstring)
    (t : jsstring) :
  In t (fold_left (fun set p => fold_left set_add (tags p) set) podcasts set)
  <-> In t set \/ exists p, In p podcasts /\ In t (tags p).
Proof.
  revert set; induction podcasts as [|p ps IH]; intros set; simpl.
  - split; [auto | intros [H|[p [[] _]]]; exact H].
  - rewrite IH, fold_set_add_In. split.
    + intros [[H|H]|[q [Hq Ht]]]; eauto.
    + intros [H|[q [[<-|Hq] Ht]]]; eauto.
Qed.

Lemma allTags_NoDup_from (podcasts : list Podcast) (set : list jsstring) :
  NoDup set ->
  NoDup (fold_left (fun set p => fold_left set_add (tags p) set) podcasts set).
Proof.
  revert set; induction podcasts as [|p ps IH]; intros set N; simpl; [auto|].
  apply IH, fold_set_add_NoDup, N.
Qed.

Lemma firstn_incl {A} (n : nat) (l : list A) (x : A) :
  In x (firstn n l) -> In x l.
Proof.
  intros H. rewrite <- (firstn_skipn n l). apply in_or_app. now left.
Qed.

Lemma firstn_NoDup {A} (n : nat) (l : list A) :
  NoDup l -> NoDup (firstn n l).
Proof.
  intros N. rewrite <- (firstn_skipn n l) in N.
  now apply NoDup_app_remove_r in N.
Qed.

(** X15: the tags collected from the corpus are distinct and are exactly
    the tags of its documents; the popular tags shown are the first ten of
    them at most. *)
Theorem tags_distinct_and_complete (t : jsstring) :
  NoDup allTags /\
  (In t allTags <-> exists p, In p podcastData /\ In t (tags p)) /\
  NoDup popularTags /\
  (List.length popularTags <= 10)%nat /\
  popularTags = firstn 10 allTags /\
  Forall (fun t => exists p, In p podcastData /\ In t (tags p)) popularTags.
Proof.
  assert (A : forall t, In t allTags <->
                        exists p, In p podcastData /\ In t (tags p)).
  { intros x. unfold allTags. rewrite allTags_In_from. simpl. tauto. }
  assert (N : NoDup allTags)
    by (unfold allTags; apply allTags_NoDup_from; constructor).
  split; [exact N|]. split; [apply A|]. unfold popularTags.
  split; [now apply firstn_NoDup|]. split; [apply firstn_le_length|].
  split; [reflexivity|].
  apply Forall_forall. intros x Hx. apply A. eapply firstn_incl, Hx.
Qed.

Lemma join_space_In (l : list jsstring) (t : jsstring) :
  In t l -> exists a b, join_space l = a ++ t ++ b.
Proof.
  induction l as [|w l IH]; [contradiction|].
  intros [->|H].
  - destruct l as [|w' l].
    + exists [], []. simpl. now rewrite app_nil_r.
    + exists [], (space :: join_space (w' :: l)). reflexivity.
  - destruct (IH H) as [a [b E]]. destruct l as [|w' l]; [contradiction|].
    exists (w ++ space :: a), b.
    change (join_space (w :: w' :: l))
      with (w ++ space :: join_space (w' :: l)).
    rewrite E, <- app_assoc. reflexivity.
Qed.

Lemma split_space_not_nil (s : jsstring) : split_space s <> [].
Proof.
  destruct s as [|c s]; simpl; [discriminate|].
  destruct (c =? space); [discriminate|].
  destruct (split_space s); discriminate.
Qed.

(** Joining the pieces of a split gives the string back. *)
Lemma join_split_space (s : jsstring) : join_space (split_space s) = s.
Proof.
  induction s as [|c s IH]; [reflexivity|]. simpl.
  pose proof (split_space_not_nil s) as N.
  destruct (c =? space) eqn:C.
  - apply Z.eqb_eq in C. subst c.
    destruct (split_space s) as [|w ws]; [contradiction|].
    change (join_space ([] :: w :: ws)) with (space :: join_space (w :: ws)).
    now rewrite IH.
  - destruct (split_space s) as [|w ws]; [contradiction|].
    destruct ws as [|w' ws]; simpl in *; now rewrite <- IH.
Qed.

Lemma split_space_substring (s w : jsstring) :
  In w (split_space s) -> substring w s.
Proof.
  intros H. apply join_space_In in H as [a [b E]].
  rewrite join_split_space in E. now exists a, b.
Qed.

Lemma substring_trans (a b c : jsstring) :
  substring a b -> substring b c -> substring a c.
Proof.
  intros [p [q ->]] [p' [q' ->]]. exists (p' ++ p), (q ++ q').
  now rewrite <- !app_assoc.
Qed.

Lemma sum_all_terms (m : list (jsstring * list jsstring))
    (terms : list jsstring) (content : jsstring) :
  Forall (fun t => includes content t = true) terms ->
  10 * Z.of_nat (List.length terms) <= score_sum concept_hit m terms content.
Proof.
  unfold score_sum. induction 1 as [|t ts Ht Hts IH]; [simpl; lia|].
  cbn [List.length map]. rewrite sumZ_cons, Ht. cbn [when].
  assert (0 <= sumZ (map (fun entry =>
                            when (concept_hit t content entry) 5) m)).
  { apply sumZ_nonneg, Forall_forall. intros y Hy.
    apply in_map_iff in Hy as [e [<- _]]. apply when_nonneg. lia. }
  lia.
Qed.

Lemma run_keeps_flag (events : list Event) (st : SearchState) :
  forallb (fun e => negb (is_typed e)) events = true ->
  shouldUseAPI (run st events) = shouldUseAPI st.
Proof.
  unfold run. revert st; induction events as [|e es IH]; intros st H; simpl;
    [reflexivity|].
  simpl in H. apply andb_true_iff in H as [He Hes].
  rewrite (IH _ Hes). destruct e; simpl in *; try reflexivity. discriminate.
Qed.

(** X16: clicking a tag of a document, in a state whose API flag is not
    set, runs the lexical scorer on the candidates without any remote call,
    and the result holds that document with a score of at least 10 for each
    term of the tag, provided the tag lowercases in the same way inside any
    text and holds at least one term. *)
Theorem tag_click_finds_tagged fetch (st : SearchState) (tag : jsstring)
    (d : Podcast) :
  shouldUseAPI st = false ->
  In d (candidates (selectedCategory st)) ->
  In tag (tags d) ->
  (forall a b, includes (toLowerCase (a ++ tag ++ b)) (toLowerCase tag)
               = true) ->
  only_whitespace tag = false ->
  0 < termCount tag ->
  performSearch fetch (handleTagClick tag st) =
    ([], Ok (localSemanticSearch tag (candidates (selectedCategory st)))) /\
  10 * termCount tag <= localScoreOf tag d /\
  In (with_score d (localScoreOf tag d))
     (localSemanticSearch tag (candidates (selectedCategory st))).
Proof.
  intros F Hd Ht L W N.
  assert (S : 10 * termCount tag <= localScoreOf tag d).
  { unfold localScoreOf, termCount. rewrite localScore_sum.
    apply sum_all_terms, Forall_forall. intros t Hin.
    unfold searchTerms in Hin. apply filter_In in Hin as [Hin _].
    apply split_space_substring in Hin.
    apply includes_spec. eapply substring_trans; [exact Hin|].
    apply includes_spec. unfold searchContent.
    destruct (join_space_In _ _ Ht) as [a [b E]]. rewrite E.
    rewrite !app_assoc. rewrite <- (app_assoc _ tag b). apply L. }
  split; [|split; [exact S|]].
  - rewrite performSearch_eq. unfold remote_eligible, local_result. simpl.
    now rewrite F, truthy_trim, W, andb_false_r.
  - apply (positive_In (localScoreOf tag)); [exact Hd | lia].
Qed.

(** X17: the API flag is set by typing alone: from a state without it, no
    sequence of tag clicks, suggestion clicks, category choices and timer
    expiries leads to a remote call. *)
Theorem clicks_never_reach_remote fetch (st : SearchState)
    (events : list Event) :
  shouldUseAPI st = false ->
  forallb (fun e => negb (is_typed e)) events = true ->
  performSearch fetch (run st events) = ([], Ok (local_result (run st events))).
Proof.
  intros F E. rewrite performSearch_eq. unfold remote_eligible.
  now rewrite (run_keeps_flag events st E), F, andb_false_r.
Qed.

Lemma semanticSearch_In (query : jsstring) (podcasts : list Podcast)
    (p : Podcast) :
  truthy (trim query) = true ->
  In p (semanticSearch query podcasts) ->
  exists d s, In d podcasts /\ p = with_score d s /\ 0 < s.
Proof.
  intros T. unfold semanticSearch. rewrite T. simpl.
  rewrite sort_In, filter_In, in_map_iff.
  intros [[d [<- Hd]] Hs]. exists d, (pageScore (searchTerms query)
                                                 (searchContent d)).
  repeat split; auto. unfold score_above in Hs. simpl in Hs.
  apply andb_true_iff in Hs as [_ Hs]. now apply Z.ltb_lt.
Qed.

(** X18: the search of the first page component shows, for a blank query,
    the corpus restricted to the selected category, and otherwise the
    scored corpus restricted to that category, in the scorer's order, each
    document with a defined full description and a positive relevance. *)
Theorem first_page_search (query c : jsstring) :
  let result := performSearch_first query c in
  result =
    (if truthy (trim query)
     then map fill (restrict c (semanticSearch query podcastData))
     else restrict c podcastData) /\
  Forall (fun p =>
            (truthy c = true -> category p = c) /\
            (truthy (trim query) = true ->
             fullDescription p <> None /\
             exists s, relevanceScore p = Some s /\ 0 < s)) result.
Proof.
  cbv zeta.
  assert (E : performSearch_first query c =
              if truthy (trim query)
              then map fill (restrict c (semanticSearch query podcastData))
              else restrict c podcastData).
  { unfold performSearch_first, restrict.
    destruct (truthy (trim query)) eqn:T, (truthy c) eqn:C; simpl;
      try reflexivity.
    f_equal. apply semanticSearch_filter. }
  split; [exact E|]. rewrite E. apply Forall_forall. intros p Hp.
  destruct (truthy (trim query)) eqn:T.
  - apply in_map_iff in Hp as [r [<- Hr]]. split.
    + intros C. unfold restrict in Hr. rewrite C in Hr.
      apply filter_In in Hr as [_ Hr]. simpl. now apply str_eqb_eq.
    + intros _. split; [discriminate|].
      assert (Hs : In r (semanticSearch query podcastData)).
      { unfold restrict in Hr. destruct (truthy c); [|exact Hr].
        now apply filter_In in Hr. }
      apply (semanticSearch_In _ _ _ T) in Hs as [d [s [_ [-> Hs]]]].
      exists s. auto.
  - split; [|discriminate]. intros C. unfold restrict in Hp. rewrite C in Hp.
    apply filter_In in Hp as [_ Hp]. now apply str_eqb_eq.
Qed.

(** *** The routes *)

Lemma missing_query_trim (q : jsstring) :
  missing_query q = negb (truthy (trim q)).
Proof.
  unfold missing_query, len. destruct q as [|c q]; [reflexivity|].
  cbn [truthy negb orb].
  destruct (trim (c :: q)) as [|x t]; reflexivity.
Qed.

Lemma error_response_status (message : jsstring) :
  status (error_response message) = (if quota_message message then 429 else 500)
  /\ exists e, body (error_response message) = ErrorBody e.
Proof.
  unfold error_response, quota_message.
  repeat match goal with
         | |- context [if ?b then _ else _] => destruct b
         end; simpl; eauto.
Qed.

Lemma error_response_attempt (message : jsstring) :
  (if ok (error_response message) then Failed
   else if status (error_response message) =? 429 then QuotaExceeded
   else Failed) =
  if quota_message message then QuotaExceeded else Failed.
Proof.
  unfold ok. destruct (error_response_status message) as [-> _].
  destruct (quota_message message); reflexivity.
Qed.

Lemma attempt_main (svc : Services) (q : jsstring) :
  truthy (trim q) = true -> OPENAI_API_KEY svc = true ->
  attempt (served svc) search_pinecone q =
  match embeddings_create svc q with
  | inr message => if quota_message message then QuotaExceeded else Failed
  | inl queryEmbedding =>
    match index_query svc queryEmbedding 10 true with
    | inr message => if quota_message message then QuotaExceeded else Failed
    | inl searchResponse => Succeeded (plain_matches searchResponse)
    end
  end.
Proof.
  intros T K. unfold attempt, served, POST_search_pinecone.
  cbn [query topK includeMetadata search_request default].
  rewrite missing_query_trim, T, K. cbn [negb].
  destruct (embeddings_create svc q) as [e|msg].
  - destruct (index_query svc e 10 true) as [[ms|]|msg].
    + reflexivity.
    + reflexivity.
    + pose proof (error_response_attempt msg) as E.
      destruct (error_response_status msg) as [_ [x B]].
      destruct (ok (error_response msg)) eqn:O.
      * rewrite B. destruct (quota_message msg); [discriminate | reflexivity].
      * exact E.
  - pose proof (error_response_attempt msg) as E.
    destruct (error_response_status msg) as [_ [x B]].
    destruct (ok (error_response msg)) eqn:O.
    + rewrite B. destruct (quota_message msg); [discriminate | reflexivity].
    + exact E.
Qed.

Lemma attempt_main_no_key (svc : Services) (q : jsstring) :
  OPENAI_API_KEY svc = false ->
  attempt (served svc) search_pinecone q = Failed.
Proof.
  intros K. unfold attempt, served, POST_search_pinecone.
  cbn [query search_request]. rewrite K. cbn [negb].
  destruct (missing_query q); reflexivity.
Qed.

Lemma attempt_fallback (svc : Services) (q : jsstring) :
  truthy (trim q) = true ->
  attempt (served svc) search_fallback q =
  match index_query svc (createLocalEmbedding q 1536) 10 true with
  | inr _ => Failed
  | inl searchResponse => Succeeded (scaled_matches searchResponse)
  end.
Proof.
  intros T. unfold attempt, served, POST_search_fallback.
  cbn [query topK includeMetadata search_request default].
  rewrite missing_query_trim, T. cbn [negb].
  destruct (index_query svc _ 10 true) as [[ms|]|msg]; reflexivity.
Qed.

Lemma served_search_eq (svc : Services) (q : jsstring)
    (podcasts : list Podcast) :
  truthy (trim q) = true ->
  semanticSearchWithPinecone (served svc) q podcasts =
  served_search svc q podcasts.
Proof.
  intros T. rewrite (semanticSearchWithPinecone_chain _ _ _ T).
  unfold fallback_chain, served_search.
  rewrite (attempt_fallback svc q T).
  destruct (OPENAI_API_KEY svc) eqn:K; cbn [negb].
  - rewrite (attempt_main svc q T K).
    destruct (embeddings_create svc q) as [e|msg].
    + destruct (index_query svc e 10 true) as [r|msg]; [reflexivity|].
      destruct (quota_message msg); [|reflexivity].
      destruct (index_query svc _ 10 true); reflexivity.
    + destruct (quota_message msg); [|reflexivity].
      destruct (index_query svc _ 10 true); reflexivity.
  - rewrite (attempt_main_no_key svc q K). reflexivity.
Qed.

(** X19: with both routes served, a search with a query that is not blank
    is decided by the services alone: the remote ranking when embedding and
    index succeed; when one of them fails with a text that mentions quota
    or 429, the ranking of the index queried with the local embedding, its
    scores scaled by 0.8, or the lexical scorer if the index fails there;
    the lexical scorer after one call in every other case. *)
Theorem served_search_by_service_outcome (svc : Services) (q : jsstring)
    (podcasts : list Podcast) :
  truthy (trim q) = true ->
  semanticSearchWithPinecone (served svc) q podcasts =
  served_search svc q podcasts.
Proof. apply served_search_eq. Qed.

(** X20: without an API key for the embedding service the main route
    answers 500, not 429: every search is answered by the lexical scorer
    after one call, and the route with the local embedding is never
    tried. *)
Theorem missing_key_skips_the_fallback_route (svc : Services)
    (q : jsstring) (podcasts : list Podcast) :
  OPENAI_API_KEY svc = false ->
  truthy (trim q) = true ->
  status (POST_search_pinecone svc (search_request q)) = 500 /\
  semanticSearchWithPinecone (served svc) q podcasts =
  ([(search_pinecone, search_request q)],
   Ok (localSemanticSearch q podcasts)).
Proof.
  intros K T. split.
  - unfold POST_search_pinecone. cbn [query search_request].
    now rewrite missing_query_trim, T, K.
  - rewrite (served_search_eq svc q podcasts T). unfold served_search.
    now rewrite K.
Qed.


(** *** More on the local embedding *)

Section EmbeddingBounds.

Local Open Scope R_scope.

Lemma accumulate_nonneg (text : jsstring) (dimension : Z) :
  Forall (Rle 0) (accumulate text dimension).
Proof.
  unfold accumulate. cbv zeta.
  apply fold_left_invariant; [apply addFeature_nonneg|].
  apply fold_left_invariant; [apply addWord_nonneg|].
  apply zeros_nonneg.
Qed.

Lemma square_le_sumsq (l : list R) (x : R) : In x l -> x * x <= sumsq l.
Proof.
  induction l as [|y l IH]; [contradiction|].
  rewrite sumsq_cons. pose proof (sumsq_nonneg l) as N.
  pose proof (Rle_0_sqr y) as S. unfold Rsqr in S.
  intros [->|H]; [lra|]. specialize (IH H). lra.
Qed.

Lemma component_le_magnitude (l : list R) (x : R) :
  In x l -> 0 <= x -> x <= magnitude l.
Proof.
  intros H P. rewrite magnitude_sumsq, <- (sqrt_square x P).
  apply sqrt_le_1_alt, square_le_sumsq, H.
Qed.

(** X22: every component of a local embedding lies between 0 and 1. *)
Theorem embedding_components_in_unit_interval (text : jsstring) :
  Forall (fun x => 0 <= x <= 1) (createLocalEmbedding text 1536).
Proof.
  unfold createLocalEmbedding. cbv zeta.
  pose proof (accumulate_nonneg text 1536) as N. rewrite Forall_forall in N.
  destruct (Rlt_dec 0 (magnitude (accumulate text 1536))) as [P|Z];
    apply Forall_forall; intros x Hx.
  - apply in_map_iff in Hx as [y [<- Hy]].
    pose proof (component_le_magnitude _ y Hy (N y Hy)) as L.
    specialize (N y Hy). split.
    + apply Rmult_le_pos; [exact N|]. apply Rlt_le, Rinv_0_lt_compat, P.
    + apply Rmult_le_reg_r with (magnitude (accumulate text 1536));
        [exact P|]. unfold Rdiv. rewrite Rmult_assoc, Rinv_l by lra. lra.
  - assert (E : magnitude (accumulate text 1536) = 0).
    { pose proof (magnitude_nonneg (accumulate text 1536)). lra. }
    rewrite magnitude_sumsq in E.
    apply sqrt_eq_0 in E; [|apply sumsq_nonneg].
    apply sumsq_zero in E. rewrite E in Hx. unfold zeros in Hx.
    apply repeat_spec in Hx. subst x. lra.
Qed.

Lemma features_in_range :
  Forall (fun feature : jsstring * list Z =>
            Forall (fun p => (0 <= p < 1536)%Z) (snd feature))
         semanticFeatures.
Proof.
  unfold semanticFeatures.
  repeat constructor; simpl; lia.
Qed.

Lemma nth_nonneg (l : list R) (i : nat) :
  Forall (Rle 0) l -> 0 <= nth i l 0.
Proof.
  intros H. revert i; induction H as [|x l Hx Hl IH]; intros [|i]; simpl;
    auto; lra.
Qed.

Lemma nth_add_at (pos : nat) (w : R) (l : list R) (i : nat) :
  (pos < List.length l)%nat ->
  nth i (add_at pos w l) 0 = nth i l 0 + (if (i =? pos)%nat then w else 0).
Proof.
  revert pos i; induction l as [|x l IH]; intros [|n] [|i] H; simpl in *;
    try lia; try lra.
  apply IH. lia.
Qed.

Lemma supported_add_at (l : list R) (set : list Z) (pos : Z) (w : R) :
  supported l set -> (0 <= pos < 1536)%Z -> 0 < w ->
  supported (add_at (Z.to_nat pos) w l) (set ++ [pos]).
Proof.
  intros [L [N S]] P W. split; [|split].
  - now rewrite add_at_length.
  - apply add_at_nonneg; [lra | exact N].
  - intros i. rewrite nth_add_at by (rewrite L; lia).
    rewrite in_app_iff, <- S. pose proof (nth_nonneg l i N) as G.
    destruct (Nat.eqb_spec i (Z.to_nat pos)) as [E|E].
    + split; [|lra]. intros _. right. left. lia.
    + split.
      * intros H. left. lra.
      * intros [H|[H|[]]]; [lra | lia].
Qed.

Lemma supported_ext (l : list R) (set set' : list Z) :
  supported l set -> (forall z, In z set <-> In z set') -> supported l set'.
Proof.
  intros [L [N S]] E. split; [exact L|]. split; [exact N|].
  intros i. now rewrite S.
Qed.

Lemma supported_addWord (l : list R) (set : list Z) (word : jsstring) :
  supported l set -> word <> [] ->
  supported (addWord 1536 l word) (set ++ wordPositions 1536 word).
Proof.
  intros S W. pose proof (wordWeight_pos word W) as P.
  assert (B : forall z, (0 <= z mod 1536 < 1536)%Z)
    by (intros z; apply Z.mod_pos_bound; lia).
  unfold addWord, wordPositions. cbv zeta.
  eapply supported_ext.
  - apply supported_add_at; [|apply B | lra].
    apply supported_add_at; [|apply B | lra].
    apply supported_add_at; [exact S | apply B | exact P].
  - intros z. rewrite !in_app_iff. simpl. tauto.
Qed.

Lemma supported_words (words : list jsstring) (l : list R) (set : list Z) :
  supported l set -> Forall (fun w => w <> []) words ->
  supported (fold_left (addWord 1536) words l)
            (set ++ flat_map (wordPositions 1536) words).
Proof.
  intros S H. revert l set S; induction H as [|w ws Hw Hws IH];
    intros l set S.
  - simpl. now rewrite app_nil_r.
  - cbn [fold_left flat_map]. rewrite app_assoc.
    apply IH, supported_addWord; assumption.
Qed.

Lemma supported_positions (positions : list Z) (l : list R) (set : list Z) :
  supported l set -> Forall (fun p => (0 <= p < 1536)%Z) positions ->
  supported (fold_left (fun embedding pos =>
                          if (pos <? 1536)%Z
                          then add_at (Z.to_nat pos) 2 embedding
                          else embedding) positions l)
            (set ++ positions).
Proof.
  intros S H. revert l set S; induction H as [|p ps Hp Hps IH];
    intros l set S.
  - simpl. now rewrite app_nil_r.
  - cbn [fold_left].
    assert ((p <? 1536)%Z = true) as -> by (apply Z.ltb_lt; lia).
    change (p :: ps) with ([p] ++ ps). rewrite app_assoc.
    apply IH, supported_add_at; [exact S | exact Hp | lra].
Qed.

Lemma supported_features (text : jsstring)
    (features : list (jsstring * list Z)) (l : list R) (set : list Z) :
  supported l set ->
  Forall (fun feature : jsstring * list Z =>
            Forall (fun p => (0 <= p < 1536)%Z) (snd feature)) features ->
  supported (fold_left (addFeature 1536 text) features l)
            (set ++ flat_map snd
                      (filter (fun feature => includes text (fst feature))
                              features)).
Proof.
  intros S H. revert l set S; induction H as [|[kw ps] fs Hp Hfs IH];
    intros l set S.
  - simpl. now rewrite app_nil_r.
  - cbn [fold_left filter fst]. unfold addFeature at 2.
    destruct (includes text kw).
    + cbn [flat_map snd]. rewrite app_assoc.
      apply IH, supported_positions; assumption.
    + apply IH, S.
Qed.

Lemma wordsOf_nonempty (s : jsstring) : Forall (fun w => w <> []) (wordsOf s).
Proof.
  unfold wordsOf. apply Forall_forall. intros w H.
  apply filter_In in H as [_ H]. intros ->. discriminate.
Qed.

(** X23: before normalisation, the components above zero are exactly those
    at the positions the words are hashed to and at the positions of the
    features whose keyword occurs in the normalised text; all of them lie
    inside the vector, and every other component is zero. *)
Theorem accumulated_support (text : jsstring) :
  Forall (fun pos => (0 <= pos < 1536)%Z) (written text 1536) /\
  forall i : nat,
    (0 < nth i (accumulate text 1536) 0 <->
     In (Z.of_nat i) (written text 1536)) /\
    (~ In (Z.of_nat i) (written text 1536) ->
     nth i (accumulate text 1536) 0 = 0).
Proof.
  assert (S : supported (accumulate text 1536) (written text 1536)).
  { unfold accumulate, written, matchedFeatures. cbv zeta.
    change (flat_map (wordPositions 1536) (wordsOf (normalizeText text)) ++
            flat_map snd
              (filter (fun feature =>
                         includes (normalizeText text) (fst feature))
                      semanticFeatures))
      with (([] ++ flat_map (wordPositions 1536)
                     (wordsOf (normalizeText text))) ++
            flat_map snd
              (filter (fun feature =>
                         includes (normalizeText text) (fst feature))
                      semanticFeatures)).
    apply supported_features; [|apply features_in_range].
    apply supported_words; [|apply wordsOf_nonempty].
    split; [apply repeat_length|]. split; [apply zeros_nonneg|].
    intros i. split; [|contradiction].
    intros H. exfalso.
    assert (E : nth i (repeat 0 (Z.to_nat 1536)) 0 = 0).
    { destruct (nth_in_or_default i (repeat 0 (Z.to_nat 1536)) 0) as [I|E];
        [|exact E]. now apply repeat_spec in I. }
    lra. }
  destruct S as [L [N S]]. split.
  - unfold written. apply Forall_app. split.
    + apply Forall_forall. intros z H.
      apply in_flat_map in H as [w [_ H]]. unfold wordPositions in H.
      assert (B : forall y, (0 <= y mod 1536 < 1536)%Z)
        by (intros y; apply Z.mod_pos_bound; lia).
      simpl in H. destruct H as [<-|[<-|[<-|[]]]]; apply B.
    + apply Forall_forall. intros z H.
      apply in_flat_map in H as [f [Hf H]]. unfold matchedFeatures in Hf.
      apply filter_In in Hf as [Hf _].
      pose proof features_in_range as R. rewrite Forall_forall in R.
      specialize (R f Hf). rewrite Forall_forall in R. now apply R.
  - intros i. split; [apply S|].
    intros H. pose proof (nth_nonneg _ i N) as G.
    destruct (Rle_lt_or_eq_dec _ _ G) as [P|E]; [|now symmetry].
    apply S in P. contradiction.
Qed.

End EmbeddingBounds.

(** *** The normalised text *)

Lemma is_space_space : is_space space = true.
Proof. reflexivity. Qed.

Lemma strip_symbols_units (s : jsstring) (c : code_unit) :
  In c (strip_symbols s) -> is_kept c = true \/ is_space c = true.
Proof.
  unfold strip_symbols. rewrite in_map_iff. intros [x [<- _]].
  change (((0x4e00 <=? x) && (x <=? 0x9fff)) || is_word x || is_space x)
    with (is_kept x || is_space x).
  destruct (is_kept x) eqn:K; simpl; [now left|].
  destruct (is_space x) eqn:S; right; [exact S | reflexivity].
Qed.

Lemma collapse_spaces_head (c : code_unit) (s : jsstring) :
  is_space c = false -> collapse_spaces (c :: s) = c :: collapse_spaces s.
Proof. intros H. simpl. now rewrite H. Qed.

Lemma collapse_spaces_units (s : jsstring) (c : code_unit) :
  In c (collapse_spaces s) -> (In c s /\ is_space c = false) \/ c = space.
Proof.
  assert (K : forall x t, (In c t /\ is_space c = false) \/ c = space ->
                          (In c (x :: t) /\ is_space c = false) \/ c = space).
  { intros x t [[I N]|E]; [left | right]; auto. split; [now right | exact N]. }
  induction s as [|x s IH]; [contradiction|].
  simpl. destruct (is_space x) eqn:X.
  - destruct s as [|y s].
    + intros [<-|[]]. now right.
    + destruct (is_space y) eqn:Y.
      * intros H. apply K, IH, H.
      * intros [<-|H]; [now right|]. apply K, IH, H.
  - intros [<-|H].
    + left. split; [now left | exact X].
    + apply K, IH, H.
Qed.

Lemma trimStart_suffix (s : jsstring) : exists pre, s = pre ++ trimStart s.
Proof.
  induction s as [|c s [pre E]]; [now exists []|].
  simpl. destruct (is_space c).
  - exists (c :: pre). simpl. now rewrite <- E.
  - now exists [].
Qed.

Lemma trimStart_head (s t : jsstring) (c : code_unit) :
  trimStart s = c :: t -> is_space c = false.
Proof.
  induction s as [|x s IH]; simpl; [discriminate|].
  destruct (is_space x) eqn:X; [exact IH|].
  intros H. injection H as <- _. exact X.
Qed.

Lemma trim_units (s : jsstring) (c : code_unit) : In c (trim s) -> In c s.
Proof.
  unfold trim. intros H. apply in_rev in H.
  destruct (trimStart_suffix (rev (trimStart s))) as [pre E].
  assert (I : In c (rev (trimStart s)))
    by (rewrite E; apply in_or_app; now right).
  apply in_rev in I. destruct (trimStart_suffix s) as [pre' E'].
  rewrite E'. apply in_or_app. now right.
Qed.

Lemma trim_last (s t : jsstring) (c : code_unit) :
  trim s = t ++ [c] -> is_space c = false.
Proof.
  unfold trim. intros H. apply (f_equal (@rev code_unit)) in H.
  rewrite rev_involutive, rev_app_distr in H. simpl in H.
  eapply trimStart_head, H.
Qed.

Lemma trim_head (s t : jsstring) (c : code_unit) :
  trim s = c :: t -> is_space c = false.
Proof.
  unfold trim. intros H.
  destruct (trimStart_suffix (rev (trimStart s))) as [pre E].
  apply (f_equal (@rev code_unit)) in H. rewrite rev_involutive in H.
  rewrite H in E. apply (f_equal (@rev code_unit)) in E.
  rewrite rev_involutive, rev_app_distr, rev_involutive in E.
  simpl in E. eapply trimStart_head, E.
Qed.

Lemma adjacent_cons (x y c : code_unit) (l : jsstring) :
  adjacent x y (c :: l) ->
  (x = c /\ exists b, l = y :: b) \/ adjacent x y l.
Proof.
  intros [a [b E]]. destruct a as [|z a]; simpl in E.
  - injection E as -> ->. left. eauto.
  - injection E as -> ->. right. now exists a, b.
Qed.

Lemma adjacent_suffix (x y : code_unit) (pre t : jsstring) :
  adjacent x y t -> adjacent x y (pre ++ t).
Proof.
  intros [a [b ->]]. exists (pre ++ a), b. now rewrite app_assoc.
Qed.

Lemma adjacent_rev (x y : code_unit) (s : jsstring) :
  adjacent x y (rev s) -> adjacent y x s.
Proof.
  intros [a [b E]]. apply (f_equal (@rev code_unit)) in E.
  rewrite rev_involutive, rev_app_distr in E. simpl in E.
  exists (rev b), (rev a). rewrite E, <- !app_assoc. reflexivity.
Qed.

Lemma adjacent_trim (x y : code_unit) (s : jsstring) :
  adjacent x y (trim s) -> adjacent x y s.
Proof.
  unfold trim. intros H. apply adjacent_rev in H.
  destruct (trimStart_suffix (rev (trimStart s))) as [pre E].
  apply (adjacent_suffix _ _ pre) in H. rewrite <- E in H.
  apply adjacent_rev in H.
  destruct (trimStart_suffix s) as [pre' E']. rewrite E'.
  now apply adjacent_suffix.
Qed.

Lemma collapse_spaces_single (s : jsstring) (x y : code_unit) :
  adjacent x y (collapse_spaces s) ->
  is_space x = true -> is_space y = true -> False.
Proof.
  induction s as [|c s IH]; intros A X Y.
  - destruct A as [[|? ?] [b E]]; discriminate.
  - simpl in A. destruct (is_space c) eqn:C.
    + destruct s as [|c' s].
      * destruct A as [[|? [|? ?]] [b E]]; discriminate.
      * destruct (is_space c') eqn:C'; [now apply IH|].
        apply adjacent_cons in A as [[_ [b E]]|A]; [|now apply IH].
        rewrite (collapse_spaces_head c' s C') in E.
        injection E as <- _. congruence.
    + apply adjacent_cons in A as [[-> _] | A]; [congruence | now apply IH].
Qed.

Lemma split_space_pieces (s : jsstring) :
  (forall x y, adjacent x y s -> x = space -> y = space -> False) ->
  (forall t c, s = t ++ [c] -> c <> space) ->
  exists w ws, split_space s = w :: ws /\
    Forall (fun p => p <> []) ws /\
    (w = [] -> s = [] \/ exists t, s = space :: t).
Proof.
  induction s as [|c s IH]; intros D L.
  - exists [], []. repeat split; auto.
  - destruct IH as [w [ws [E [F W]]]].
    + intros x y A. apply D. now apply (adjacent_suffix x y [c]).
    + intros t c0 ->. apply (L (c :: t) c0). reflexivity.
    + simpl. rewrite E. destruct (c =? space) eqn:C.
      * apply Z.eqb_eq in C. subst c.
        exists [], (w :: ws). repeat split; eauto.
        constructor; [|exact F]. intros ->.
        destruct (W eq_refl) as [->|[t ->]].
        -- now apply (L [] space).
        -- apply (D space space); auto. now exists [], t.
      * exists (c :: w), ws. repeat split; auto. discriminate.
Qed.

Lemma split_space_no_space (s w : jsstring) :
  In w (split_space s) -> ~ In space w.
Proof.
  revert w; induction s as [|c s IH]; intros w; simpl.
  - intros [<-|[]] [].
  - destruct (c =? space) eqn:C.
    + intros [<-|H]; [intros [] | now apply IH].
    + destruct (split_space s) as [|w0 ws].
      * intros [<-|[]] [E|[]]. subst c. now rewrite Z.eqb_refl in C.
      * intros [<-|H].
        -- intros [E|I].
           ++ subst c. now rewrite Z.eqb_refl in C.
           ++ now apply (IH w0 (or_introl eq_refl)).
        -- apply IH. now right.
Qed.

Lemma normalizeText_units (text : jsstring) (c : code_unit) :
  In c (normalizeText text) -> is_kept c = true \/ c = space.
Proof.
  unfold normalizeText. intros H. apply trim_units in H.
  apply collapse_spaces_units in H as [[I N]|E]; [|now right].
  apply strip_symbols_units in I as [K|S]; [now left | congruence].
Qed.

(** X24: the words of a normalised text are not empty and hold Chinese
    ideographs and word characters only, and joining them with single
    spaces gives the normalised text back: it has no space at either end
    and no two spaces in a row. *)
Theorem normalised_words (text : jsstring) :
  let normalizedText := normalizeText text in
  Forall (fun w => w <> [] /\ forallb is_kept w = true)
         (wordsOf normalizedText) /\
  join_space (wordsOf normalizedText) = normalizedText.
Proof.
  cbv zeta. split.
  - apply Forall_forall. intros w Hw. unfold wordsOf in Hw.
    apply filter_In in Hw as [Hw N]. split.
    + intros ->. discriminate.
    + apply forallb_forall. intros c Hc.
      pose proof (split_space_no_space _ _ Hw) as S.
      apply split_space_substring in Hw as [a [b E]].
      assert (I : In c (normalizeText text)).
      { rewrite E. apply in_or_app. right. apply in_or_app. now left. }
      destruct (normalizeText_units text c I) as [K | ->];
        [exact K | contradiction].
  - destruct (split_space_pieces (normalizeText text)) as [w [ws [E [F W]]]].
    + intros x y A -> ->. unfold normalizeText in A.
      apply adjacent_trim in A.
      now apply (collapse_spaces_single _ _ _ A).
    + intros t c E ->. unfold normalizeText in E.
      apply trim_last in E. discriminate.
    + unfold wordsOf. rewrite E.
      destruct w as [|c w].
      * destruct (W eq_refl) as [N|[t N]].
        -- rewrite N in E |- *. simpl in E. injection E as <-.
           reflexivity.
        -- exfalso. unfold normalizeText in N. apply trim_head in N.
           discriminate.
      * rewrite <- (join_split_space (normalizeText text)) at 1.
        rewrite E. f_equal. apply filter_all. constructor; [reflexivity|].
        eapply Forall_impl; [|exact F]. intros p P.
        destruct p; [contradiction | reflexivity].
Qed.

(** *** The similarity route *)

Section Similarity.

Local Open Scope R_scope.

Lemma nth_error_skipn {A} (l : list A) (i : nat) :
  match nth_error l i with
  | Some y => skipn i l = y :: skipn (S i) l
  | None => skipn i l = []
  end.
Proof.
  revert i; induction l as [|x l IH]; intros [|i]; simpl; try reflexivity.
  specialize (IH i). destruct (nth_error l i); exact IH.
Qed.

Lemma dotProduct_from (a b : list R) (sum : option R) (i : nat) :
  fst (fold_left
         (fun (acc : option R * nat) (val : R) =>
            let '(sum, i) := acc in
            (match sum, nth_error b i with
             | Some sum, Some y => Some (sum + val * y)
             | _, _ => None
             end, S i))
         a (sum, i)) =
  match sum with
  | Some s => option_map (Rplus s) (dot a (skipn i b))
  | None => None
  end.
Proof.
  revert sum i; induction a as [|x a IH]; intros sum i.
  - simpl. destruct sum as [s|]; simpl; [f_equal; lra | reflexivity].
  - cbn [fold_left]. rewrite IH. pose proof (nth_error_skipn b i) as N.
    destruct sum as [s|]; [|reflexivity].
    destruct (nth_error b i) as [y|]; rewrite N; [|reflexivity].
    cbn [dot]. destruct (dot a (skipn (S i) b)); simpl;
      [f_equal; lra | reflexivity].
Qed.

Lemma dotProduct_dot (a b : list R) : dotProduct a b = dot a b.
Proof.
  unfold dotProduct. rewrite dotProduct_from. simpl skipn.
  destruct (dot a b); simpl; [f_equal; lra | reflexivity].
Qed.

Lemma dot_swap (l : list (R * R)) :
  dot (map fst l) (map snd l) = dot (map snd l) (map fst l).
Proof.
  induction l as [|[x y] l IH]; [reflexivity|].
  cbn [map fst snd dot]. rewrite IH.
  destruct (dot (map snd l) (map fst l)) as [r|]; cbn [option_map];
    [f_equal; ring | reflexivity].
Qed.

Lemma dot_short (a b : list R) :
  (List.length b < List.length a)%nat -> dot a b = None.
Proof.
  revert b; induction a as [|x a IH]; intros b; simpl; [lia|].
  destruct b as [|y b]; simpl; [reflexivity|].
  intros H. rewrite IH by lia. reflexivity.
Qed.

Lemma magnitude_of_zeros (a : list R) :
  Forall (fun x => x = 0) a -> magnitude a = 0.
Proof.
  intros Z. rewrite magnitude_sumsq.
  assert (S : sumsq a = 0).
  { induction Z as [|x l -> _ IH]; [reflexivity|].
    rewrite sumsq_cons, IH. lra. }
  rewrite S. apply sqrt_0.
Qed.

Lemma cosineSimilarity_zero (a b : list R) :
  magnitude a = 0 \/ magnitude b = 0 -> cosineSimilarity a b = None.
Proof.
  intros Z. unfold cosineSimilarity. cbv zeta.
  destruct (dotProduct a b); [|reflexivity].
  destruct (Req_dec_T (magnitude a * magnitude b) 0) as [E|N];
    [reflexivity|].
  exfalso. apply N. destruct Z as [-> | ->]; lra.
Qed.

(** X25: the cosine similarity is symmetric on vectors of one length; it
    is NaN whenever one of the two vectors has only zero components, and
    whenever the second vector is shorter than the first. *)
Theorem cosineSimilarity_properties (a b : list R) (l : list (R * R)) :
  cosineSimilarity (map fst l) (map snd l) =
    cosineSimilarity (map snd l) (map fst l) /\
  (Forall (fun x => x = 0) a ->
   cosineSimilarity a b = None /\ cosineSimilarity b a = None) /\
  ((List.length b < List.length a)%nat -> cosineSimilarity a b = None).
Proof.
  split; [|split].
  - unfold cosineSimilarity. cbv zeta.
    rewrite !dotProduct_dot, dot_swap.
    rewrite (Rmult_comm (magnitude (map snd l)) (magnitude (map fst l))).
    reflexivity.
  - intros Z. apply magnitude_of_zeros in Z.
    split; apply cosineSimilarity_zero; auto.
  - intros H. unfold cosineSimilarity. cbv zeta.
    now rewrite dotProduct_dot, dot_short.
Qed.

Lemma insert_after_perm {A} (after : A -> A -> bool) (x : A) (l : list A) :
  Permutation (x :: l) (insert_after after x l).
Proof.
  induction l as [|y l IH]; simpl; [reflexivity|].
  destruct (after x y); [|reflexivity].
  rewrite perm_swap. now constructor.
Qed.

Lemma sort_after_perm {A} (after : A -> A -> bool) (l : list A) :
  Permutation l (sort_after after l).
Proof.
  induction l as [|x l IH]; simpl; [reflexivity|].
  rewrite <- insert_after_perm. now constructor.
Qed.

Lemma insert_similarity_sorted (x : Similarity) (l : list Similarity) :
  similarity_score x <> None ->
  Forall (fun m => similarity_score m <> None) l ->
  StronglySorted similarity_desc l ->
  StronglySorted similarity_desc (insert_after less_similar x l).
Proof.
  intros X F S. induction S as [|y l Sl IH Hy]; simpl.
  - repeat constructor.
  - inversion_clear F as [|? ? Fy Fl].
    destruct (similarity_score x) as [sx|] eqn:Ex; [|contradiction].
    destruct (similarity_score y) as [sy|] eqn:Ey; [|contradiction].
    unfold less_similar at 1. rewrite Ex, Ey.
    destruct (Rlt_dec 0 (sy - sx)) as [L|L].
    + constructor; [now apply IH|].
      eapply Permutation_Forall; [apply insert_after_perm|].
      constructor; [|exact Hy].
      intros a b Ha Hb. rewrite Ey in Ha. rewrite Ex in Hb.
      injection Ha as <-. injection Hb as <-. lra.
    + constructor; [now constructor|].
      constructor.
      * intros a b Ha Hb. rewrite Ex in Ha. rewrite Ey in Hb.
        injection Ha as <-. injection Hb as <-. lra.
      * rewrite Forall_forall in Hy, Fl |- *. intros z Hz a b Ha Hb.
        rewrite Ex in Ha. injection Ha as <-.
        specialize (Hy z Hz sy b Ey Hb). lra.
Qed.

Lemma sort_similarity_sorted (l : list Similarity) :
  Forall (fun m => similarity_score m <> None) l ->
  StronglySorted similarity_desc (sort_after less_similar l).
Proof.
  induction 1 as [|x l Hx Hl IH]; simpl; [constructor|].
  apply insert_similarity_sorted; auto.
  eapply Permutation_Forall; [apply sort_after_perm | exact Hl].
Qed.

Lemma similarities_In (q : list R) (docs : list Document)
    (embeddings : list (list R)) (i : nat) (scored : list Similarity)
    (m : Similarity) :
  similarities q docs embeddings i = Some scored -> In m scored ->
  exists d e, In d docs /\ In e embeddings /\
    similarity_id m = document_id d /\
    similarity_text m = document_text d /\
    similarity_score m = cosineSimilarity q e.
Proof.
  revert i scored; induction docs as [|d docs IH]; intros i scored; simpl.
  - intros H. injection H as <-. contradiction.
  - destruct (nth_error embeddings i) as [e|] eqn:N; [|discriminate].
    destruct (similarities q docs embeddings (S i)) as [ms|] eqn:S;
      [|discriminate].
    intros H. injection H as <-. intros [<-|Hm].
    + exists d, e. repeat split; auto. eapply nth_error_In, N.
    + destruct (IH _ _ S Hm) as [d' [e' [Hd H]]]. exists d', e'.
      split; [now right | exact H].
Qed.

Lemma above_similarity_spec (m : Similarity) :
  above_similarity m = true <->
  exists s, similarity_score m = Some s /\ 3 / 10 < s.
Proof.
  unfold above_similarity. destruct (similarity_score m) as [s|].
  - destruct (Rlt_dec (3 / 10) s); split; eauto; try discriminate.
    intros [s' [E L]]. injection E as <-. contradiction.
  - split; [discriminate | intros [s [E _]]; discriminate].
Qed.

(** X26: the similarity route answers 400 exactly when the query is empty
    or the documents are missing or empty, and otherwise 200 or 500; the
    matches of an answer 200 are counted by [total], are in descending
    order of similarity, and each carries the id and text of a document of
    the request and a similarity above 0.3. *)
Theorem semantic_search_answers (create : Embeddings)
    (request : SimilarityRequest) :
  let response := POST_semantic_search create request in
  (similarity_status response = 400%Z <->
   request_query request = [] \/ request_documents request = None \/
   request_documents request = Some []) /\
  In (similarity_status response) [200; 400; 500]%Z /\
  match similarity_body response with
  | SimilarityError _ => similarity_status response <> 200%Z
  | SimilarityMatches query matches total =>
    similarity_status response = 200%Z /\
    query = request_query request /\
    total = Z.of_nat (List.length matches) /\
    StronglySorted similarity_desc matches /\
    exists documents,
      request_documents request = Some documents /\
      Forall (fun m => exists s d,
                similarity_score m = Some s /\ 3 / 10 < s /\
                In d documents /\
                similarity_id m = document_id d /\
                similarity_text m = document_text d) matches
  end.
Proof.
  cbv zeta. unfold POST_semantic_search.
  destruct (request_documents request) as [docs|] eqn:D.
  2: { simpl. split; [split; auto|]. split; [auto | discriminate]. }
  destruct (request_query request) as [|c q] eqn:Q.
  { simpl. split; [split; auto|]. split; [auto | discriminate]. }
  cbn [truthy negb orb].
  destruct docs as [|d0 docs].
  { simpl. split; [split; auto|]. split; [auto | discriminate]. }
  assert ((Z.of_nat (List.length (d0 :: docs)) =? 0)%Z = false) as ->
    by (apply Z.eqb_neq; simpl List.length; lia).
  assert (N : forall z : Z,
            z <> 400%Z ->
            (z = 400%Z <->
             c :: q = [] \/ Some (d0 :: docs) = None \/
             Some (d0 :: docs) = Some [])).
  { intros z H. split; [contradiction|].
    intros [E|[E|E]]; discriminate. }
  destruct (create (One (c :: q))) as [[|qe data]|msg].
  1, 3: simpl; split; [apply N; discriminate|]; split;
        [auto | discriminate].
  destruct (create (Many _)) as [embeddings|msg].
  2: { simpl. split; [apply N; discriminate|]. split; [auto | discriminate]. }
  destruct (similarities qe (d0 :: docs) embeddings 0) as [scored|] eqn:S.
  2: { simpl. split; [apply N; discriminate|]. split; [auto | discriminate]. }
  cbn [similarity_status similarity_body].
  split; [apply N; discriminate|]. split; [simpl; auto|].
  assert (F : Forall (fun m => exists s d,
                similarity_score m = Some s /\ 3 / 10 < s /\
                In d (d0 :: docs) /\
                similarity_id m = document_id d /\
                similarity_text m = document_text d)
              (filter above_similarity scored)).
  { apply Forall_forall. intros m Hm. apply filter_In in Hm as [Hm A].
    apply above_similarity_spec in A as [s [Es Ls]].
    destruct (similarities_In _ _ _ _ _ _ S Hm)
      as [d [e [Hd [_ [Hi [Ht Hs]]]]]].
    exists s, d. repeat split; auto. }
  repeat split; auto.
  - apply sort_similarity_sorted. eapply Forall_impl; [|exact F].
    intros m [s [_ [E _]]]. congruence.
  - exists (d0 :: docs). split; [reflexivity|].
    eapply Permutation_Forall; [apply sort_after_perm | exact F].
Qed.

End Similarity.

(** *** A concept key inside the query *)

Lemma score_sum_key (m : list (jsstring * list jsstring))
    (terms : list jsstring) (content t key : jsstring)
    (values : list jsstring) :
  In t terms -> In (key, values) m -> includes t key = true ->
  5 <= score_sum concept_hit m terms content.
Proof.
  intros Ht Hm Hk. unfold score_sum.
  induction terms as [|x ts IH]; [contradiction|].
  cbn [map]. rewrite sumZ_cons.
  assert (N : forall u, 0 <= when (includes content u) 10 +
                 sumZ (map (fun entry =>
                              when (concept_hit u content entry) 5) m)).
  { intros u. pose proof (when_nonneg (includes content u) 10).
    assert (0 <= sumZ (map (fun entry =>
                              when (concept_hit u content entry) 5) m)).
    { apply sumZ_nonneg, Forall_forall. intros y Hy.
      apply in_map_iff in Hy as [e [<- _]]. apply when_nonneg. lia. }
    lia. }
  assert (T : 0 <= sumZ (map (fun term =>
                when (includes content term) 10 +
                sumZ (map (fun entry =>
                             when (concept_hit term content entry) 5) m)) ts)).
  { apply sumZ_nonneg, Forall_forall. intros y Hy.
    apply in_map_iff in Hy as [u [<- _]]. apply N. }
  destruct Ht as [->|Ht].
  - assert (5 <= sumZ (map (fun entry =>
                              when (concept_hit t content entry) 5) m)).
    { apply (sum_when_hit (concept_hit t content) m (key, values) Hm).
      apply concept_hit_spec. left. now apply includes_spec. }
    pose proof (when_nonneg (includes content t) 10). lia.
  - specialize (IH Ht). specialize (N x). lia.
Qed.

(** X27: the credit for a concept key inside a query term does not depend
    on the document: a query with such a term returns every document it is
    given, each with a score of at least 5. *)
Theorem concept_key_in_query_returns_everything (query : jsstring)
    (podcasts : list Podcast) (t key : jsstring) (values : list jsstring) :
  In (key, values) localSemanticSearch_semanticMap ->
  In t (searchTerms query) ->
  includes t key = true ->
  List.length (localSemanticSearch query podcasts) = List.length podcasts /\
  Forall (fun d =>
            5 <= localScoreOf query d /\
            In (with_score d (localScoreOf query d))
               (localSemanticSearch query podcasts)) podcasts.
Proof.
  intros Hm Ht Hk.
  assert (S : forall d, 5 <= localScoreOf query d).
  { intros d. unfold localScoreOf. rewrite localScore_sum.
    eapply score_sum_key; eauto. }
  split.
  - rewrite localSemanticSearch_length. f_equal. apply filter_all.
    apply Forall_forall. intros d _. apply Z.ltb_lt. specialize (S d). lia.
  - apply Forall_forall. intros d Hd. split; [apply S|].
    apply (positive_In (localScoreOf query)); [exact Hd|].
    specialize (S d). lia.
Qed.

(** *** The threshold of the remote strategies *)

Lemma to_scored_iff (podcasts : list Podcast) (m : Match) (p : Podcast) :
  to_scored podcasts m = Some p <->
  exists d, parseInt (match_id m) = Some (id d) /\
            JS.find (fun c => id c =? id d) podcasts = Some d /\
            p = with_score d (percentage (match_score m)).
Proof.
  unfold to_scored. split.
  - destruct (parseInt (match_id m)) as [n|].
    + destruct (JS.find (fun c => id c =? n) podcasts) as [d|] eqn:F;
        [|discriminate].
      intros H. injection H as <-. exists d.
      pose proof F as G. unfold JS.find in G.
      apply find_some in G as [_ G]. apply Z.eqb_eq in G. subst n. auto.
    + destruct (JS.find (fun _ => false) podcasts) as [d|] eqn:F;
        [|discriminate].
      unfold JS.find in F. apply find_some in F as [_ F]. discriminate.
  - intros [d [-> [-> ->]]]. reflexivity.
Qed.

Lemma rank_matches_iff (matches : list Match) (podcasts : list Podcast)
    (p : Podcast) :
  In p (rank_matches matches podcasts) <->
  exists m d,
    In m matches /\
    parseInt (match_id m) = Some (id d) /\
    JS.find (fun c => id c =? id d) podcasts = Some d /\
    p = with_score d (percentage (match_score m)) /\
    20 < percentage (match_score m).
Proof.
  unfold rank_matches. rewrite sort_In, non_null_In, filter_In, in_map_iff.
  split.
  - intros [[m [Hm Hin]] Hp]. apply to_scored_iff in Hm as [d [Hid [F ->]]].
    exists m, d. repeat split; auto.
    cbn [above_threshold] in Hp. unfold score_above in Hp. simpl in Hp.
    apply andb_true_iff in Hp as [_ Hp]. now apply Z.ltb_lt.
  - intros [m [d [Hm [Hid [F [-> Hs]]]]]]. split.
    + exists m. split; [|exact Hm]. apply to_scored_iff. eauto.
    + cbn [above_threshold]. unfold score_above. simpl.
      assert ((percentage (match_score m) =? 0) = false) as ->
        by (apply Z.eqb_neq; lia).
      now apply Z.ltb_lt.
Qed.

(** A remote answer is the ranking of the matches of the one attempt that
    succeeded: the first, or the second after a quota failure of the
    first. *)
Lemma remote_search_attempts fetch (q : jsstring) (podcasts : list Podcast)
    (calls : list Call) (result : list Podcast) :
  remote_search fetch q podcasts = (calls, Ok result) ->
  (calls = [(search_pinecone, search_request q)] /\
   exists matches,
     attempt fetch search_pinecone q = Succeeded matches /\
     result = rank_matches matches podcasts) \/
  (calls = [(search_pinecone, search_request q);
            (search_fallback, search_request q)] /\
   attempt fetch search_pinecone q = QuotaExceeded /\
   exists matches,
     attempt fetch search_fallback q = Succeeded matches /\
     result = rank_matches matches podcasts).
Proof.
  unfold remote_search, attempt, call_fetch, bind, response_matches, ret,
    throw.
  destruct (fetch search_pinecone (search_request q)) as [r1|];
    [|discriminate].
  destruct (ok r1) eqn:O1; simpl.
  - rewrite O1. simpl. destruct (body r1) as [e|ms|]; try discriminate.
    intros H. injection H as <- <-. left. eauto.
  - destruct (status r1 =? 429); simpl.
    + destruct (fetch search_fallback (search_request q)) as [r2|];
        [|discriminate].
      destruct (ok r2) eqn:O2; simpl; [|discriminate].
      destruct (body r2) as [e|ms|]; try discriminate.
      intros H. injection H as <- <-. right. eauto.
    + rewrite O1. discriminate.
Qed.

(** When both routes are served, a remote answer is the ranking of what one
    of the two queries of the index returned. *)
Lemma remote_search_served (svc : Services) (q : jsstring)
    (podcasts : list Podcast) (calls : list Call) (result : list Podcast) :
  remote_search (served svc) q podcasts = (calls, Ok result) ->
  (calls = [(search_pinecone, search_request q)] /\
   exists queryEmbedding searchResponse,
     embeddings_create svc q = inl queryEmbedding /\
     index_query svc queryEmbedding 10 true = inl searchResponse /\
     result = rank_matches (plain_matches searchResponse) podcasts) \/
  (calls = [(search_pinecone, search_request q);
            (search_fallback, search_request q)] /\
   exists searchResponse,
     index_query svc (createLocalEmbedding q 1536) 10 true
       = inl searchResponse /\
     result = rank_matches (scaled_matches searchResponse) podcasts).
Proof.
  intros H. destruct (truthy (trim q)) eqn:T.
  - apply remote_search_attempts in H
      as [[-> [ms [A ->]]] | [-> [_ [ms [A ->]]]]].
    + left. split; [reflexivity|].
      destruct (OPENAI_API_KEY svc) eqn:K.
      * rewrite (attempt_main svc q T K) in A.
        destruct (embeddings_create svc q) as [e|msg].
        -- destruct (index_query svc e 10 true) as [sr|msg] eqn:Q.
           ++ injection A as <-. eauto.
           ++ destruct (quota_message msg); discriminate.
        -- destruct (quota_message msg); discriminate.
      * rewrite (attempt_main_no_key svc q K) in A. discriminate.
    + right. split; [reflexivity|].
      rewrite (attempt_fallback svc q T) in A.
      destruct (index_query svc (createLocalEmbedding q 1536) 10 true)
        as [sr|msg]; [|discriminate].
      injection A as <-. eauto.
  - exfalso. revert H. unfold remote_search, call_fetch, bind, served.
    unfold POST_search_pinecone. cbn [query search_request].
    rewrite missing_query_trim, T. cbn [negb]. discriminate.
Qed.

Lemma percentage_at_most (s : Q) : percentage s <= 20 <-> (s < 41 # 200)%Q.
Proof.
  pose proof (percentage_above s) as A.
  destruct (Qlt_le_dec s (41 # 200)) as [L|L].
  - split; [auto|]. intros _.
    destruct (Z_lt_le_dec 20 (percentage s)) as [G|G]; [|exact G].
    apply A in G. exfalso. exact (Qlt_not_le _ _ L G).
  - split.
    + intros H. apply A in L. lia.
    + intros H. exfalso. exact (Qlt_not_le _ _ H L).
Qed.

Lemma percentage_nonneg (s : Q) : (0 <= s)%Q -> 0 <= percentage s.
Proof.
  intros H. unfold percentage, Math_round.
  apply Qfloor_ge. destruct s as [n d].
  unfold Qle, Qplus, Qmult, inject_Z in *. cbn [Qnum Qden] in *. lia.
Qed.

Lemma above_main_cutoff (s : Q) :
  20 < percentage s -> (20499 # 100000 < s)%Q.
Proof.
  intros H. apply percentage_above in H. destruct s as [n d].
  unfold Qle, Qlt in *. cbn [Qnum Qden] in *. lia.
Qed.

Lemma above_fallback_cutoff (s : Q) :
  20 < percentage (s * (8 # 10)) -> (25624 # 100000 < s)%Q.
Proof.
  intros H. apply percentage_above in H. destruct s as [n d].
  unfold Qle, Qlt, Qmult in *. cbn [Qnum Qden] in *. lia.
Qed.

(** C5, as the code has it.  When a remote strategy answers, the result
    holds exactly the candidates named by the id of a match of the answering
    response whose similarity, rounded to a percentage, is above 20: the one
    threshold of both remote strategies.  When the routes are served, the
    matches are those of the index: as they are after the main route, and
    scaled by 0.8 after the fallback route, so that a document returned by
    the main route has a similarity above 0.20499 in the index and one
    returned by the fallback route a similarity above 0.25624.  Every
    similarity from 0.205 up passes after the main route, none up to 0.25624
    passes after the fallback route and every one from 0.25626 up does: in
    terms of the index the threshold of the locally embedded strategy is the
    higher one.  Percentages of similarities between 0 and 1 lie between 0
    and 100.  The bounds are stated with a margin around 0.205 and 0.25625,
    where the rounding of the products decides.  The ids of the candidates
    are safe integers, as the ids of a corpus are: on them the integer that
    [parseInt] is read as and the double that the code compares agree. *)
Theorem remote_matches_above_threshold fetch (svc : Services)
    (query : jsstring) (podcasts : list Podcast) :
  Forall safe_id podcasts ->
  (forall calls result,
     remote_search fetch query podcasts = (calls, Ok result) ->
     exists endpoint response matches,
       fetch endpoint (search_request query) = Some response /\
       body response = SearchBody matches /\
       forall p,
         In p result <->
         exists m d,
           In m matches /\
           parseInt (match_id m) = Some (id d) /\
           JS.find (fun c => id c =? id d) podcasts = Some d /\
           p = with_score d (percentage (match_score m)) /\
           20 < percentage (match_score m)) /\
  (forall calls result,
     remote_search (served svc) query podcasts = (calls, Ok result) ->
     exists endpoint searchResponse,
       match endpoint with
       | search_pinecone =>
         calls = [(search_pinecone, search_request query)] /\
         exists queryEmbedding,
           embeddings_create svc query = inl queryEmbedding /\
           index_query svc queryEmbedding 10 true = inl searchResponse
       | search_fallback =>
         calls = [(search_pinecone, search_request query);
                  (search_fallback, search_request query)] /\
         index_query svc (createLocalEmbedding query 1536) 10 true
           = inl searchResponse
       end /\
       Forall (fun p => exists im d,
                 In im (default [] searchResponse) /\
                 parseInt (index_id im) = Some (id d) /\
                 JS.find (fun c => id c =? id d) podcasts = Some d /\
                 let s := score_or_zero (index_score im) in
                 match endpoint with
                 | search_pinecone =>
                   p = with_score d (percentage s) /\
                   20 < percentage s /\ (20499 # 100000 < s)%Q
                 | search_fallback =>
                   p = with_score d (percentage (s * (8 # 10))) /\
                   20 < percentage (s * (8 # 10)) /\ (25624 # 100000 < s)%Q
                 end) result) /\
  (forall s : Q,
     ((0 <= s)%Q -> (s <= 1)%Q -> 0 <= percentage s <= 100) /\
     ((205 # 1000 <= s)%Q -> 20 < percentage s) /\
     ((s <= 25624 # 100000)%Q -> percentage (s * (8 # 10)) <= 20) /\
     ((25626 # 100000 <= s)%Q -> 20 < percentage (s * (8 # 10)))).
Proof.
  intros _. split; [|split].
  - intros calls result H.
    apply remote_search_ok in H as [ep [r [ms [F [B [-> _]]]]]].
    exists ep, r, ms. split; [exact F|]. split; [exact B|].
    intros p. apply rank_matches_iff.
  - intros calls result H.
    apply remote_search_served in H
      as [[-> [e [sr [E [Q ->]]]]] | [-> [sr [Q ->]]]].
    + exists search_pinecone, sr. split; [eauto|].
      apply Forall_forall. intros p Hp.
      apply rank_matches_iff in Hp as [m [d [Hm [Hid [F [-> Hs]]]]]].
      unfold plain_matches in Hm. apply in_map_iff in Hm as [im [<- Him]].
      cbn [match_id match_score] in *. exists im, d. cbv zeta.
      repeat split; auto. now apply above_main_cutoff.
    + exists search_fallback, sr. split; [auto|].
      apply Forall_forall. intros p Hp.
      apply rank_matches_iff in Hp as [m [d [Hm [Hid [F [-> Hs]]]]]].
      unfold scaled_matches in Hm. apply in_map_iff in Hm as [im [<- Him]].
      cbn [match_id match_score] in *. exists im, d. cbv zeta.
      repeat split; auto. now apply above_fallback_cutoff.
  - intros s. split; [|split; [|split]].
    + intros Lo Hi. split; [now apply percentage_nonneg|].
      now apply percentage_le_100.
    + intros H. apply percentage_above. destruct s as [n d].
      unfold Qle in *. cbn [Qnum Qden] in *. lia.
    + intros H. apply percentage_at_most. destruct s as [n d].
      unfold Qle, Qlt, Qmult in *. cbn [Qnum Qden] in *. lia.
    + intros H. apply percentage_above. destruct s as [n d].
      unfold Qle, Qmult in *. cbn [Qnum Qden] in *. lia.
Qed.
End Search.

(** ** The claims on concrete inputs *)

Example lit_cjk : lit "美食" = [0x7F8E; 0x98DF].
Proof. reflexivity. Qed.

Example parseInt_examples :
  parseInt (lit " 42abc") = Some 42 /\ parseInt (lit "x1") = None /\
  parseInt (lit "-0x1f") = Some (-31) /\ parseInt (lit "") = None.
Proof. repeat split; reflexivity. Qed.

Example split_space_example :
  split_space (lit " a  b ") = [[]; lit "a"; []; lit "b"; []].
Proof. reflexivity. Qed.

Example trim_examples :
  trim (lit "  a b  ") = lit "a b" /\ trim [9; 0x3000] = [].
Proof. split; reflexivity. Qed.

Example Math_round_examples :
  Math_round (5 # 2) = 3 /\ Math_round (-5 # 2) = -2 /\
  Math_round (208 # 10) = 21.
Proof. repeat split; reflexivity. Qed.

Example wordHash_example : wordHash (lit "ab") = 3105.
Proof. reflexivity. Qed.

(** C1 as worded fails: for the query "美食推薦" a document with no related
    term scores 5 in the code (the key "美食" occurs in the term) where the
    wording gives 0, and for the query "美" the code gives 0 where the
    wording (the term occurs in the key) gives 5. *)
Lemma lexical_score_differs_from_wording :
  let content := searchContent ascii_toLowerCase ep2 in
  let long := searchTerms ascii_toLowerCase (lit "美食推薦") in
  let short := searchTerms ascii_toLowerCase (lit "美") in
  localScore long content = 5 /\
  score_sum spec_concept_hit localSemanticSearch_semanticMap long content = 0 /\
  localScore short content = 0 /\
  score_sum spec_concept_hit localSemanticSearch_semanticMap short content = 5.
Proof. vm_compute. repeat split. Qed.

Lemma fallback_chain_in_order_witness :
  remote_eligible settled_query = true /\
  performSearch ascii_toLowerCase sample_corpus
    (served ascii_toLowerCase svc_quota) settled_query =
  (let '(calls, (_, result)) :=
     fallback_chain ascii_toLowerCase (served ascii_toLowerCase svc_quota)
       (lit "川菜") (candidates sample_corpus []) in
   (calls, Ok result)).
Proof.
  split; [reflexivity|].
  apply (fallback_chain_in_order ascii_toLowerCase sample_corpus
           (served ascii_toLowerCase svc_quota) settled_query sample_corpus).
  reflexivity.
Defined.

Example quota_failure_uses_the_fallback_route :
  performSearch ascii_toLowerCase sample_corpus
    (served ascii_toLowerCase svc_quota) settled_query =
  ([(search_pinecone, search_request (lit "川菜"));
    (search_fallback, search_request (lit "川菜"))],
   Ok [with_score ep2 72]).
Proof. reflexivity. Qed.

Example other_failure_uses_the_lexical_scorer :
  performSearch ascii_toLowerCase sample_corpus
    (served ascii_toLowerCase svc_down) settled_query =
  ([(search_pinecone, search_request (lit "川菜"))],
   Ok [with_score ep1 15; with_score ep3 5]).
Proof. reflexivity. Qed.

Example network_failure_uses_the_lexical_scorer :
  performSearch ascii_toLowerCase sample_corpus unreachable settled_query =
  ([(search_pinecone, search_request (lit "川菜"))],
   Ok [with_score ep1 15; with_score ep3 5]).
Proof. reflexivity. Qed.

Example strategies_of_the_chain :
  fst (snd (fallback_chain ascii_toLowerCase (served ascii_toLowerCase svc_up)
              (lit "川菜") sample_corpus)) = RemoteEmbedding /\
  fst (snd (fallback_chain ascii_toLowerCase (served ascii_toLowerCase svc_quota)
              (lit "川菜") sample_corpus)) = RemoteLocalEmbedding /\
  fst (snd (fallback_chain ascii_toLowerCase (served ascii_toLowerCase svc_down)
              (lit "川菜") sample_corpus)) = LocalLexical.
Proof. repeat split. Qed.

Lemma blank_query_passthrough_witness :
  only_whitespace (searchQuery blank_query) = true /\
  selectedCategory blank_query = [] /\
  performSearch ascii_toLowerCase sample_corpus
    (served ascii_toLowerCase svc_up) blank_query = ([], Ok sample_corpus).
Proof.
  split; [reflexivity|]. split; [reflexivity|].
  apply blank_query_passthrough; reflexivity.
Defined.

Lemma category_filter_respected_witness :
  truthy (selectedCategory settled_in_category) = true /\
  exists calls result,
    performSearch ascii_toLowerCase sample_corpus
      (served ascii_toLowerCase svc_up) settled_in_category =
      (calls, Ok result) /\
    Forall (fun p =>
              category p = lit "旅行" /\
              exists d, In d (candidates sample_corpus (lit "旅行")) /\
                        category d = lit "旅行" /\
                        (p = d \/ exists s, p = with_score d s)) result.
Proof.
  split; [reflexivity|].
  apply (category_filter_respected ascii_toLowerCase sample_corpus
           (served ascii_toLowerCase svc_up) settled_in_category).
  reflexivity.
Defined.

Example category_is_filtered_before_ranking :
  performSearch ascii_toLowerCase sample_corpus
    (served ascii_toLowerCase svc_up) settled_in_category =
  ([(search_pinecone, search_request (lit "川菜"))], Ok [with_score ep3 25]).
Proof. reflexivity. Qed.

Lemma sample_index_unit_scores (vector : list R) (k : Z) (md : bool)
    (ms : list IndexMatch) :
  index_query svc_up vector k md = inl (Some ms) ->
  Forall (fun m => (0 <= score_or_zero (index_score m) /\
                    score_or_zero (index_score m) <= 1)%Q) ms.
Proof.
  intros H. injection H as <-. apply Forall_firstn_of.
  repeat constructor; discriminate.
Qed.

Lemma sample_index_honours_topK (vector : list R) (k : Z) (md : bool)
    (ms : list IndexMatch) :
  index_query svc_up vector k md = inl (Some ms) ->
  (List.length ms <= Z.to_nat k)%nat.
Proof. intros H. injection H as <-. apply firstn_le_length. Qed.

Lemma remote_matches_above_threshold_witness :
  let fetch := served ascii_toLowerCase svc_quota in
  let calls := [(search_pinecone, search_request (lit "川菜"));
                (search_fallback, search_request (lit "川菜"))] in
  Forall safe_id sample_corpus /\
  remote_search fetch (lit "川菜") sample_corpus =
    (calls, Ok [with_score ep2 72]) /\
  (exists endpoint response matches,
     fetch endpoint (search_request (lit "川菜")) = Some response /\
     body response = SearchBody matches /\
     forall p,
       In p [with_score ep2 72] <->
       exists m d,
         In m matches /\
         parseInt (match_id m) = Some (id d) /\
         JS.find (fun c => id c =? id d) sample_corpus = Some d /\
         p = with_score d (percentage (match_score m)) /\
         20 < percentage (match_score m)) /\
  (exists endpoint searchResponse,
     match endpoint with
     | search_pinecone =>
       calls = [(search_pinecone, search_request (lit "川菜"))] /\
       exists queryEmbedding,
         embeddings_create svc_quota (lit "川菜") = inl queryEmbedding /\
         index_query svc_quota queryEmbedding 10 true = inl searchResponse
     | search_fallback =>
       calls = [(search_pinecone, search_request (lit "川菜"));
                (search_fallback, search_request (lit "川菜"))] /\
       index_query svc_quota
         (createLocalEmbedding ascii_toLowerCase (lit "川菜") 1536) 10 true
         = inl searchResponse
     end /\
     Forall (fun p => exists im d,
               In im (default [] searchResponse) /\
               parseInt (index_id im) = Some (id d) /\
               JS.find (fun c => id c =? id d) sample_corpus = Some d /\
               let s := score_or_zero (index_score im) in
               match endpoint with
               | search_pinecone =>
                 p = with_score d (percentage s) /\
                 20 < percentage s /\ (20499 # 100000 < s)%Q
               | search_fallback =>
                 p = with_score d (percentage (s * (8 # 10))) /\
                 20 < percentage (s * (8 # 10)) /\ (25624 # 100000 < s)%Q
               end) [with_score ep2 72]).
Proof.
  cbv zeta.
  assert (S : Forall safe_id sample_corpus)
    by (repeat constructor; reflexivity).
  pose proof (remote_matches_above_threshold ascii_toLowerCase
                (served ascii_toLowerCase svc_quota) svc_quota
                (lit "川菜") sample_corpus S) as [A [B _]].
  split; [exact S|]. split; [reflexivity|]. split.
  - apply (A [(search_pinecone, search_request (lit "川菜"));
              (search_fallback, search_request (lit "川菜"))]).
    reflexivity.
  - apply (B [(search_pinecone, search_request (lit "川菜"));
              (search_fallback, search_request (lit "川菜"))]).
    reflexivity.
Defined.

(** C5 as worded fails: both runs below read the same index.  Answered with
    the remote embedding, the search keeps episode 1 at 21 percent;
    answered with the local embedding, whose route scales the similarities
    by 0.8, it drops episode 3 at 20 percent, although its similarity in the
    index, 0.25, is above that of episode 1.  The threshold of the second
    strategy is not the lower one. *)
Lemma hashed_strategy_is_not_more_lenient :
  semanticSearchWithPinecone ascii_toLowerCase
    (served ascii_toLowerCase svc_up) (lit "川菜") sample_corpus =
  ([(search_pinecone, search_request (lit "川菜"))],
   Ok [with_score ep2 90; with_score ep3 25; with_score ep1 21]) /\
  semanticSearchWithPinecone ascii_toLowerCase
    (served ascii_toLowerCase svc_quota) (lit "川菜") sample_corpus =
  ([(search_pinecone, search_request (lit "川菜"));
    (search_fallback, search_request (lit "川菜"))],
   Ok [with_score ep2 72]) /\
  index_query svc_up = index_query svc_quota.
Proof. repeat split. Qed.

Lemma lexical_score_monotone_witness :
  ascii_toLowerCase (lit "美食" ++ space :: lit "川菜") =
    ascii_toLowerCase (lit "美食") ++ space :: ascii_toLowerCase (lit "川菜") /\
  localScore (searchTerms ascii_toLowerCase (lit "美食"))
             (searchContent ascii_toLowerCase ep1) <=
  localScore (searchTerms ascii_toLowerCase (lit "美食" ++ space :: lit "川菜"))
             (searchContent ascii_toLowerCase ep1).
Proof.
  split; [reflexivity|].
  apply (lexical_score_monotone ascii_toLowerCase). reflexivity.
Defined.

Example one_more_term_raises_the_score :
  localScore (searchTerms ascii_toLowerCase (lit "美食"))
             (searchContent ascii_toLowerCase ep1) = 5 /\
  localScore (searchTerms ascii_toLowerCase (lit "美食 川菜"))
             (searchContent ascii_toLowerCase ep1) = 20.
Proof. split; reflexivity. Qed.

(** C9 as worded fails: the value "ab " has three code units, is not white
    space only and the typing timer has fired, yet no remote call is made:
    the API flag is not set for a value that ends with a space. *)
Lemma settled_query_ending_in_space_stays_local :
  let st := typingTimer (handleSearchInput (lit "ab ") idle) in
  isTyping st = false /\
  len (searchQuery st) = 3 /\
  only_whitespace (searchQuery st) = false /\
  performSearch ascii_toLowerCase sample_corpus
    (served ascii_toLowerCase svc_up) st =
  ([], Ok (localSemanticSearch ascii_toLowerCase (lit "ab ") sample_corpus)).
Proof. repeat split. Qed.

Lemma remote_results_capped_witness :
  honours_topK (served ascii_toLowerCase svc_up) /\
  remote_search (served ascii_toLowerCase svc_up) (lit "川菜") sample_corpus =
    ([(search_pinecone, search_request (lit "川菜"))],
     Ok [with_score ep2 90; with_score ep3 25; with_score ep1 21]) /\
  (List.length [with_score ep2 90; with_score ep3 25; with_score ep1 21]
   <= 10)%nat /\
  List.length (localSemanticSearch ascii_toLowerCase (lit "川菜")
                 eleven_episodes) = 11%nat.
Proof.
  assert (T : honours_topK (served ascii_toLowerCase svc_up))
    by exact (served_honours_topK ascii_toLowerCase svc_up
                sample_index_honours_topK).
  split; [exact T|]. split; [reflexivity|].
  destruct (remote_results_capped ascii_toLowerCase
              (served ascii_toLowerCase svc_up) (lit "川菜") sample_corpus
              [(search_pinecone, search_request (lit "川菜"))]
              [with_score ep2 90; with_score ep3 25; with_score ep1 21]
              T eq_refl) as [L [_ N]].
  split; [exact L|]. rewrite N. reflexivity.
Defined.

(** ** The further properties on concrete inputs *)

Lemma related_terms_match_any_query_witness :
  includes (searchContent ascii_toLowerCase ep1) (lit "川菜") = true /\
  0 < termCount ascii_toLowerCase (lit "hello") /\
  5 * termCount ascii_toLowerCase (lit "hello")
    <= localScoreOf ascii_toLowerCase (lit "hello") ep1 /\
  In (with_score ep1 (localScoreOf ascii_toLowerCase (lit "hello") ep1))
     (localSemanticSearch ascii_toLowerCase (lit "hello") sample_corpus).
Proof.
  split; [reflexivity|]. split; [reflexivity|].
  apply (related_terms_match_any_query ascii_toLowerCase (lit "hello")
           sample_corpus ep1 (lit "美食") (lit "川菜")
           (map lit ["餐廳"; "料理"; "川菜"; "茶餐廳"; "麻辣"; "中式料理";
                     "母親節"; "饕客"]%string)).
  - now left.
  - now left.
  - right. right. now left.
  - reflexivity.
  - reflexivity.
Defined.

Example any_query_returns_documents_with_related_terms :
  localSemanticSearch ascii_toLowerCase (lit "hello") sample_corpus =
  [with_score ep2 10; with_score ep1 5; with_score ep3 5].
Proof. reflexivity. Qed.

Lemma lexical_score_additive_witness :
  ascii_toLowerCase (lit "美食" ++ space :: lit "美食") =
    ascii_toLowerCase (lit "美食") ++ space :: ascii_toLowerCase (lit "美食") /\
  localScoreOf ascii_toLowerCase (lit "美食" ++ space :: lit "美食") ep1 =
  localScoreOf ascii_toLowerCase (lit "美食") ep1 +
  localScoreOf ascii_toLowerCase (lit "美食") ep1.
Proof.
  split; [reflexivity|].
  apply (lexical_score_additive ascii_toLowerCase). reflexivity.
Defined.

Lemma uppercase_related_terms_never_match_witness :
  forallb (fun c => negb (is_upper c)) (searchContent ascii_toLowerCase ep4)
    = true /\
  localScoreOf ascii_toLowerCase (lit "AI") ep4 =
    score_sum concept_hit (without_upper localSemanticSearch_semanticMap)
      (searchTerms ascii_toLowerCase (lit "AI"))
      (searchContent ascii_toLowerCase ep4).
Proof.
  split; [reflexivity|].
  apply (uppercase_related_terms_never_match ascii_toLowerCase (lit "AI") ep4).
  reflexivity.
Defined.

Example capitals_in_related_terms :
  localScoreOf ascii_toLowerCase (lit "AI") ep4 = 10 /\
  map snd (filter (fun entry => existsb has_upper (snd entry))
                  localSemanticSearch_semanticMap) =
  map snd (filter (fun entry => existsb has_upper (snd entry))
                  [ (lit "財經", map lit ["投資"; "企業"; "股票"; "AI"; "台積電";
                       "電動車"; "金融"; "理財"; "頭家"; "董事長"]%string);
                    (lit "娛樂", map lit ["戲劇"; "韓劇"; "Netflix"; "電影";
                       "影視"; "律政"; "職人劇"; "台劇"]%string);
                    (lit "科技", map lit ["AI"; "智能"; "科技"; "半導體";
                       "電子"; "導軌"; "連接器"; "雲端"]%string) ]).
Proof. split; reflexivity. Qed.

Lemma sample_corpus_ids : NoDup (map id sample_corpus).
Proof.
  repeat constructor; simpl; intuition discriminate.
Qed.

Lemma lexical_result_distinct_witness :
  NoDup (map id sample_corpus) /\
  NoDup (map id (localSemanticSearch ascii_toLowerCase (lit "川菜")
                   sample_corpus)) /\
  (List.length (localSemanticSearch ascii_toLowerCase (lit "川菜")
                  sample_corpus) <= List.length sample_corpus)%nat.
Proof.
  split; [exact sample_corpus_ids|].
  apply (lexical_result_distinct ascii_toLowerCase (lit "川菜") sample_corpus).
  exact sample_corpus_ids.
Defined.

Lemma rank_matches_complete_witness :
  let m := {| match_id := lit "3"; match_score := 25 # 100 |} in
  let matches := [ {| match_id := lit "99"; match_score := 95 # 100 |}; m ] in
  parseInt (match_id m) = Some (id ep3) /\
  (41 # 200 <= match_score m)%Q /\
  In (with_score ep3 (percentage (match_score m)))
     (rank_matches matches sample_corpus).
Proof.
  cbv zeta. split; [reflexivity|]. split; [discriminate|].
  apply rank_matches_complete.
  - exact sample_corpus_ids.
  - right. now left.
  - right. right. now left.
  - reflexivity.
  - discriminate.
Defined.

Lemma results_carry_scores_witness :
  only_whitespace (searchQuery settled_query) = false /\
  exists calls result,
    performSearch ascii_toLowerCase sample_corpus unreachable settled_query =
      (calls, Ok result) /\
    Forall (fun p => exists s, relevanceScore p = Some s /\ 0 < s) result.
Proof.
  split; [reflexivity|].
  apply (results_carry_scores ascii_toLowerCase sample_corpus unreachable
           settled_query).
  reflexivity.
Defined.

Example sample_categories_and_tags :
  categories sample_corpus = map lit ["美食"; "時事"; "旅行"]%string /\
  allTags sample_corpus =
    map lit ["川菜"; "餐廳"; "misc"; "日本"; "旅遊"]%string /\
  allTags (ep1 :: sample_corpus) = allTags sample_corpus.
Proof. repeat split. Qed.

Lemma listed_category_is_not_empty_witness :
  In (selectedCategory browsing) (categories sample_corpus) /\
  only_whitespace (searchQuery browsing) = true /\
  exists d,
    performSearch ascii_toLowerCase sample_corpus unreachable browsing =
      ([], Ok (candidates sample_corpus (selectedCategory browsing))) /\
    In d (candidates sample_corpus (selectedCategory browsing)) /\
    category d = selectedCategory browsing.
Proof.
  assert (C : In (selectedCategory browsing) (categories sample_corpus))
    by (now left).
  split; [exact C|]. split; [reflexivity|].
  apply (listed_category_is_not_empty ascii_toLowerCase sample_corpus
           unreachable browsing C).
  reflexivity.
Defined.

Lemma tag_in_any_text (tag a b : jsstring) :
  includes (ascii_toLowerCase (a ++ tag ++ b)) (ascii_toLowerCase tag) = true.
Proof.
  unfold ascii_toLowerCase. rewrite !map_app. apply includes_spec.
  now exists (map lower_unit a), (map lower_unit b).
Qed.

Lemma tag_click_finds_tagged_witness :
  shouldUseAPI idle = false /\
  only_whitespace (lit "川菜") = false /\
  0 < termCount ascii_toLowerCase (lit "川菜") /\
  performSearch ascii_toLowerCase sample_corpus unreachable
    (handleTagClick (lit "川菜") idle) =
    ([], Ok (localSemanticSearch ascii_toLowerCase (lit "川菜")
               (candidates sample_corpus (selectedCategory idle)))) /\
  10 * termCount ascii_toLowerCase (lit "川菜")
    <= localScoreOf ascii_toLowerCase (lit "川菜") ep1 /\
  In (with_score ep1 (localScoreOf ascii_toLowerCase (lit "川菜") ep1))
     (localSemanticSearch ascii_toLowerCase (lit "川菜")
        (candidates sample_corpus (selectedCategory idle))).
Proof.
  split; [reflexivity|]. split; [reflexivity|]. split; [reflexivity|].
  apply (tag_click_finds_tagged ascii_toLowerCase sample_corpus unreachable
           idle (lit "川菜") ep1).
  - reflexivity.
  - now left.
  - now left.
  - apply tag_in_any_text.
  - reflexivity.
  - reflexivity.
Defined.

Lemma clicks_never_reach_remote_witness :
  let events := [ SuggestionClicked (lit "美食推薦");
                  CategorySelected (lit "美食");
                  TimerFired;
                  TagClicked (lit "川菜") ] in
  shouldUseAPI idle = false /\
  forallb (fun e => negb (is_typed e)) events = true /\
  performSearch ascii_toLowerCase sample_corpus
    (served ascii_toLowerCase svc_up) (run idle events) =
  ([], Ok (local_result ascii_toLowerCase sample_corpus (run idle events))).
Proof.
  cbv zeta. split; [reflexivity|]. split; [reflexivity|].
  apply clicks_never_reach_remote; reflexivity.
Defined.

Example suggestion_from_the_initial_state_is_searched_locally :
  performSearch ascii_toLowerCase sample_corpus
    (served ascii_toLowerCase svc_up)
    (run idle [SuggestionClicked (lit "美食推薦")]) =
  ([], Ok [with_score ep3 10; with_score ep1 5; with_score ep2 5]).
Proof. reflexivity. Qed.

Lemma served_search_by_service_outcome_witness :
  truthy (trim (lit "川菜")) = true /\
  semanticSearchWithPinecone ascii_toLowerCase
    (served ascii_toLowerCase svc_quota) (lit "川菜") sample_corpus =
  served_search ascii_toLowerCase svc_quota (lit "川菜") sample_corpus.
Proof.
  split; [reflexivity|].
  apply (served_search_by_service_outcome ascii_toLowerCase svc_quota).
  reflexivity.
Defined.

Lemma missing_key_skips_the_fallback_route_witness :
  OPENAI_API_KEY svc_no_key = false /\
  truthy (trim (lit "川菜")) = true /\
  status (POST_search_pinecone svc_no_key (search_request (lit "川菜"))) = 500
  /\
  semanticSearchWithPinecone ascii_toLowerCase
    (served ascii_toLowerCase svc_no_key) (lit "川菜") sample_corpus =
  ([(search_pinecone, search_request (lit "川菜"))],
   Ok (localSemanticSearch ascii_toLowerCase (lit "川菜") sample_corpus)).
Proof.
  split; [reflexivity|]. split; [reflexivity|].
  apply (missing_key_skips_the_fallback_route ascii_toLowerCase svc_no_key);
    reflexivity.
Defined.

Example debounce_examples :
  debounceDelay (handleSearchInput (lit "川菜") idle) = 150 /\
  debounceDelay (typingTimer (handleSearchInput (lit "川菜") idle)) = 300 /\
  remote_eligible (typingTimer (handleSearchInput (lit "川菜") idle)) = true /\
  debounceDelay (typingTimer (handleSearchInput (lit "川菜館") idle)) = 1000.
Proof. repeat split. Qed.

Example first_page_example :
  performSearch_first ascii_toLowerCase sample_corpus (lit "川菜") (lit "美食")
  = [fill (with_score ep1 15)].
Proof. reflexivity. Qed.

Lemma concept_key_in_query_returns_everything_witness :
  In (lit "美食推薦") (searchTerms ascii_toLowerCase (lit "美食推薦")) /\
  includes (lit "美食推薦") (lit "美食") = true /\
  List.length (localSemanticSearch ascii_toLowerCase (lit "美食推薦")
                 sample_corpus) = List.length sample_corpus.
Proof.
  split; [now left|]. split; [reflexivity|].
  apply (concept_key_in_query_returns_everything ascii_toLowerCase
           (lit "美食推薦") sample_corpus (lit "美食推薦") (lit "美食")
           (map lit ["餐廳"; "料理"; "川菜"; "茶餐廳"; "麻辣"; "中式料理";
                     "母親節"; "饕客"]%string)).
  - now left.
  - now left.
  - reflexivity.
Defined.

(** *** The local embedding in double precision *)

Lemma long_word_alone :
  wordsOf (normalizeText ascii_toLowerCase
             (lit "科技internationalization")) =
  [lit "科技internationalization"].
Proof. reflexivity. Qed.

(** C6 as worded fails: in double precision the norm of the embedding of
    the one-word text below is not 1.  The word has 22 code units, so its
    weight is [Math.min(1, Math.log(23) / 3)], which is 1 for every
    logarithm that gives 3 or more to 23.  The vector returned has 1536
    components; the square root of the sum of their squares, evaluated in
    double precision as the code evaluates its magnitude, is
    0.9999999999999999, and the sum of the squares without any rounding
    is not 1 either. *)
Lemma embedding_norm_in_doubles :
  let text := lit "科技internationalization" in
  len text = 22 /\
  forall Math_log : Binary64.double -> Binary64.double,
    wordWeight64 Math_log text = Binary64.of_Z 1 ->
    let embedding :=
      createLocalEmbedding64 ascii_toLowerCase Math_log text 1536 in
    List.length embedding = 1536%nat /\
    magnitude64 embedding = S754_finite false 9007199254740991 (-53) /\
    magnitude64 embedding <> Binary64.of_Z 1 /\
    ~ (Binary64.exact_sumsq embedding == 1)%Q.
Proof.
  cbv zeta. split; [reflexivity|]. intros Math_log W.
  assert (E : createLocalEmbedding64 ascii_toLowerCase Math_log
                (lit "科技internationalization") 1536 =
              createLocalEmbedding64 ascii_toLowerCase
                (fun _ => Binary64.of_Z 4)
                (lit "科技internationalization") 1536).
  { unfold createLocalEmbedding64, accumulate64. cbv zeta.
    rewrite long_word_alone. cbn [fold_left].
    unfold addWord64. cbv zeta. rewrite W.
    assert (W' : wordWeight64 (fun _ => Binary64.of_Z 4)
                   (lit "科技internationalization") = Binary64.of_Z 1)
      by (vm_compute; reflexivity).
    rewrite W'. reflexivity. }
  rewrite E. clear E W Math_log.
  split; [vm_compute; reflexivity|]. split; [vm_compute; reflexivity|].
  split.
  - vm_compute. discriminate.
  - intros H. apply Qeq_bool_iff in H. vm_compute in H. discriminate.
Qed.

(** The premise on the logarithm holds for the double nearest to ln 23,
    3.1354942159291497. *)
Example weight_of_a_long_word :
  wordWeight64 (fun _ => S754_finite false 7060505291240432 (-51))
               (lit "科技internationalization") = Binary64.of_Z 1.
Proof. reflexivity. Qed.

(** A vector of 1536 weights 1, normalised with the rounding to 53
    significant bits. *)
Lemma ones_weights : Forall weight_range (repeat 1%R 1536).
Proof.
  apply Forall_forall. intros x H. apply repeat_spec in H. subst x.
  right. lra.
Qed.

Lemma ones_sumsq : (0 < sumsq (repeat 1%R 1536))%R.
Proof.
  change (repeat 1%R 1536) with (1%R :: repeat 1%R 1535).
  rewrite sumsq_cons. pose proof (sumsq_nonneg (repeat 1%R 1535)). lra.
Qed.

Lemma one_word : wordsOf (normalizeText ascii_toLowerCase (lit "美食")) <> [].
Proof. discriminate. Qed.

Lemma local_embedding_normalised_witness :
  (Rabs (magnitude (createLocalEmbedding ascii_toLowerCase (lit "美食") 1536)
         - 1) <= / 10 ^ 9)%R /\
  standard_model round53 /\
  Forall weight_range (repeat 1%R 1536) /\
  (Rabs (magnitude (normalize_rnd round53 (repeat 1%R 1536)) - 1)
   <= / 10 ^ 9)%R.
Proof.
  destruct (local_embedding_normalised ascii_toLowerCase (lit "美食"))
    as [_ [_ [_ [W [_ R]]]]].
  split; [apply (W one_word)|].
  split; [exact round53_standard|]. split; [exact ones_weights|].
  apply (R round53 (repeat 1%R 1536) round53_standard
           (repeat_length 1%R 1536) ones_weights).
  exact ones_sumsq.
Defined.
